(** * FORGE streaming response handler: a shallow embedding

    This development models [StreamingResponseHandler] (the incremental
    markdown parser that turns an LLM token stream into file artifacts plus
    explanation text) and proves properties of it.

    Conventions of the embedding:
    - a JavaScript string is the list of its UTF-16 code units ([N]);
    - the instance fields of the class are the fields of the record
      [Handler]; every method is a function [Handler -> Handler];
    - events passed to [emit] are appended to the [emitted] trace;
    - regular expressions are transcribed as terms of a small syntax ([re])
      and run by a backtracking matcher with the priorities of ECMAScript
      (greedy and lazy quantifiers, ordered alternation, capture groups). *)

From Stdlib Require Import String Ascii DecimalString List NArith ZArith Arith Bool Lia.
Import ListNotations.

Open Scope N_scope.
Open Scope list_scope.

(** ** Strings *)

Definition char := N.
Definition str := list char.

(** ASCII literals of the development, as code units. *)
Definition lit (s : string) : str :=
  map N_of_ascii (list_ascii_of_string s).

Definition LF : char := 10.

Fixpoint str_eqb (a b : str) : bool :=
  match a, b with
  | [], [] => true
  | x :: a', y :: b' => (x =? y) && str_eqb a' b'
  | _, _ => false
  end.

(** [WhiteSpace] and [LineTerminator] of ECMAScript: what [String.prototype.trim]
    strips and what [\s] matches. *)
Definition is_ws (c : char) : bool :=
  ((9 <=? c) && (c <=? 13)) || (c =? 32) || (c =? 160) || (c =? 5760)
  || ((8192 <=? c) && (c <=? 8202)) || (c =? 8232) || (c =? 8233)
  || (c =? 8239) || (c =? 8287) || (c =? 12288) || (c =? 65279).

(** [LineTerminator]: the code units that [.] does not match. *)
Definition is_line_terminator (c : char) : bool :=
  (c =? 10) || (c =? 13) || (c =? 8232) || (c =? 8233).

(** [\w] without the unicode flag: [A-Za-z0-9_]. *)
Definition is_word (c : char) : bool :=
  ((65 <=? c) && (c <=? 90)) || ((97 <=? c) && (c <=? 122))
  || ((48 <=? c) && (c <=? 57)) || (c =? 95).

Definition is_dot (c : char) : bool := negb (is_line_terminator c).
Definition is_any (c : char) : bool := true.   (* [\s\S] *)
(** The class of the two quote characters, double (34) and single (39). *)
Definition is_quote (c : char) : bool := (c =? 34) || (c =? 39).

Fixpoint dropWhile {A : Type} (p : A -> bool) (s : list A) : list A :=
  match s with
  | [] => []
  | c :: r => if p c then dropWhile p r else s
  end.

Fixpoint takeWhile (p : char -> bool) (s : str) : str :=
  match s with
  | [] => []
  | c :: r => if p c then c :: takeWhile p r else []
  end.

(** [String.prototype.trim]. *)
Definition trim (s : str) : str :=
  rev (dropWhile is_ws (rev (dropWhile is_ws s))).

(** [s.includes(c)] for a one-character needle. *)
Definition includes (c : char) (s : str) : bool := existsb (N.eqb c) s.

Fixpoint startsWith (pre s : str) : bool :=
  match pre, s with
  | [], _ => true
  | p :: pre', c :: s' => (c =? p) && startsWith pre' s'
  | _ :: _, [] => false
  end.

Definition endsWith (suf s : str) : bool := startsWith (rev suf) (rev s).

(** [s.split('\n')]: never empty, the last piece is what follows the last
    newline. *)
Fixpoint split_nl (s : str) : list str :=
  match s with
  | [] => [[]]
  | c :: r =>
      if c =? LF then [] :: split_nl r
      else match split_nl r with
           | h :: t => (c :: h) :: t
           | [] => [[c]]
           end
  end.

(** [lines.join('\n')]. *)
Fixpoint join_nl (ls : list str) : str :=
  match ls with
  | [] => []
  | [l] => l
  | l :: ls' => l ++ LF :: join_nl ls'
  end.

(** ** Regular expressions

    The fragment of ECMAScript patterns that the handler uses. *)

Inductive re : Type :=
| Eps                                   (* empty pattern *)
| Chr (c : char)                        (* a literal character *)
| ChrI (c : char)                       (* a literal under the [i] flag *)
| Cls (p : char -> bool)                (* a character class *)
| Seq (a b : re)
| Alt (a b : re)                        (* [a|b], [a] tried first *)
| Star (greedy : bool) (a : re)         (* [a*] and [a*?] *)
| Group (n : nat) (a : re)              (* capture group number [n] *)
| Bol                                   (* [^] *)
| Eol.                                  (* [$] *)

Definition Opt (a : re) : re := Alt a Eps.                 (* [a?] *)
Definition Plus (greedy : bool) (a : re) : re := Seq a (Star greedy a).

Fixpoint Lit (s : str) : re :=
  match s with
  | [] => Eps
  | c :: r => Seq (Chr c) (Lit r)
  end.

Fixpoint LitI (s : str) : re :=
  match s with
  | [] => Eps
  | c :: r => Seq (ChrI c) (LitI r)
  end.

(** [Canonicalize] of the [i] flag on the ASCII range.  A code unit of 128 or
    more never canonicalizes to one below 128, so an ASCII pattern character
    is matched by its two ASCII cases only. *)
Definition canonicalize (c : char) : char :=
  if (97 <=? c) && (c <=? 122) then c - 32 else c.

(** Under the [i] flag a character that is not a letter matches itself
    only. *)
Definition not_letter (x : char) : bool :=
  negb (((65 <=? x) && (x <=? 90)) || ((97 <=? x) && (x <=? 122))).

(** Captures: the most recent binding of a group number wins. *)
Definition caps := list (nat * str).

Fixpoint capture (n : nat) (c : caps) : option str :=
  match c with
  | [] => None
  | (k, v) :: c' => if Nat.eqb k n then Some v else capture n c'
  end.

(** A matcher state: the index reached in the input and what is left of it. *)
Definition mstate := (nat * str)%type.
Definition mresult := option (nat * caps).      (* end index, captures *)
Definition cont := mstate -> caps -> mresult.

Definition orelse (a b : mresult) : mresult :=
  match a with
  | Some r => Some r
  | None => b
  end.

(** The backtracking matcher in continuation-passing style: [m r k st c] runs
    [r] at [st] and hands every way of matching it, in priority order, to the
    continuation [k] until one succeeds.  An iteration of a quantifier that
    consumes nothing is rejected, as ECMAScript does. *)
Fixpoint m (r : re) (k : cont) (st : mstate) (c : caps) {struct r} : mresult :=
  match r with
  | Eps => k st c
  | Chr x =>
      match snd st with
      | y :: rest => if y =? x then k (S (fst st), rest) c else None
      | [] => None
      end
  | ChrI x =>
      match snd st with
      | y :: rest =>
          if canonicalize y =? canonicalize x then k (S (fst st), rest) c else None
      | [] => None
      end
  | Cls p =>
      match snd st with
      | y :: rest => if p y then k (S (fst st), rest) c else None
      | [] => None
      end
  | Seq a b => m a (m b k) st c
  | Alt a b => orelse (m a k st c) (m b k st c)
  | Star greedy a =>
      (fix loop (fuel : nat) (st : mstate) (c : caps) {struct fuel} : mresult :=
         match fuel with
         | O => k st c
         | S fuel' =>
             let again :=
               m a (fun st' c' =>
                      if Nat.ltb (length (snd st')) (length (snd st))
                      then loop fuel' st' c' else None) st c in
             if greedy then orelse again (k st c) else orelse (k st c) again
         end) (length (snd st)) st c
  | Group n a =>
      m a (fun st' c' =>
             k st' ((n, firstn (fst st' - fst st)%nat (snd st)) :: c')) st c
  | Bol => if Nat.eqb (fst st) 0 then k st c else None
  | Eol => match snd st with [] => k st c | _ :: _ => None end
  end.

Definition accept : cont := fun st c => Some (fst st, c).

(** One attempt at index [pos], where [rest] is the input from [pos] on. *)
Definition run (r : re) (pos : nat) (rest : str) : mresult :=
  m r accept (pos, rest) [].

(** The leftmost match at or after [pos]: start index, end index, captures. *)
Fixpoint exec_from (r : re) (pos : nat) (rest : str) : option (nat * nat * caps) :=
  match run r pos rest with
  | Some (e, c) => Some (pos, e, c)
  | None =>
      match rest with
      | [] => None
      | _ :: rest' => exec_from r (S pos) rest'
      end
  end.

(** [s.match(r)] for a pattern without the [g] flag: the captures of the
    leftmost match. *)
Definition match_re (r : re) (s : str) : option caps :=
  match exec_from r 0 s with
  | Some (_, _, c) => Some c
  | None => None
  end.

(** [r.test(s)]. *)
Definition test_re (r : re) (s : str) : bool :=
  match match_re r s with Some _ => true | None => false end.

(** [s.replace(r, '')] for a pattern with the [g] flag: every match, found
    left to right, is deleted.  [skip] counts the code units of the current
    match that are still to be dropped; after an empty match the search
    resumes one code unit later, as [AdvanceStringIndex] does. *)
Fixpoint replace_all (r : re) (pos skip : nat) (rest : str) : str :=
  match skip with
  | S k =>
      match rest with
      | [] => []
      | _ :: t => replace_all r (S pos) k t
      end
  | O =>
      match rest with
      | [] => []
      | x :: t =>
          match run r pos rest with
          | Some (e, _) =>
              if Nat.ltb pos e then replace_all r (S pos) (e - pos - 1) t
              else x :: replace_all r (S pos) 0 t
          | None => x :: replace_all r (S pos) 0 t
          end
      end
  end.

(** ** The patterns of the handler *)

Declare Scope re_scope.
Delimit Scope re_scope with re.
Infix ";;" := Seq (at level 61, right associativity) : re_scope.
Infix "<|>" := Alt (at level 62, right associativity) : re_scope.

Definition backticks : str := lit "```".

(** [/^```(\w+)?/] *)
Definition codeBlockStartRe : re :=
  (Bol ;; Lit backticks ;; Opt (Group 1 (Plus true (Cls is_word))))%re.

(** [/^```$/] *)
Definition codeBlockEndRe : re :=
  (Bol ;; Lit backticks ;; Eol)%re.

(** [/^(?:\/\/|#|\/\* )\s*(?:File:|Path:)?\s*(.+?)(?:\*\/)?$/i]
    (written here with a blank after the first alternation, which the
    pattern does not have) *)
Definition filePathPattern : re :=
  (Bol ;; (LitI (lit "//") <|> LitI (lit "#") <|> LitI (lit "/*")) ;;
   Star true (Cls is_ws) ;;
   Opt (LitI (lit "File:") <|> LitI (lit "Path:")) ;;
   Star true (Cls is_ws) ;;
   Group 1 (Plus false (Cls is_dot)) ;;
   Opt (LitI (lit "*/")) ;; Eol)%re.

(** [/^\/\/\s*(.+)$/], [/^#\s*(.+)$/] and [/^\/\*\s*(.+?)\s*\*\/$/] *)
Definition commentPatterns : list re :=
  [ (Bol ;; Lit (lit "//") ;; Star true (Cls is_ws) ;;
     Group 1 (Plus true (Cls is_dot)) ;; Eol)%re;
    (Bol ;; Lit (lit "#") ;; Star true (Cls is_ws) ;;
     Group 1 (Plus true (Cls is_dot)) ;; Eol)%re;
    (Bol ;; Lit (lit "/*") ;; Star true (Cls is_ws) ;;
     Group 1 (Plus false (Cls is_dot)) ;; Star true (Cls is_ws) ;;
     Lit (lit "*/") ;; Eol)%re ].

(** [/\.\w+$/] *)
Definition extensionRe : re :=
  (Chr 46 ;; Plus true (Cls is_word) ;; Eol)%re.

(** [/^Q|Q$/g], where [Q] is the class of the two quote characters *)
Definition quotesRe : re :=
  ((Bol ;; Cls is_quote) <|> (Cls is_quote ;; Eol))%re.

(** [/```(\w+)?\n([\s\S]*?)```/g] *)
Definition codeBlockRegex : re :=
  (Lit backticks ;; Opt (Group 1 (Plus true (Cls is_word))) ;; Chr LF ;;
   Group 2 (Star false (Cls is_any)) ;; Lit backticks)%re.

(** ** Data model *)

(** A value found in a [language] field.  The type says [string], but
    [normalizeLanguage] looks its key up in an object literal, so the two
    all-lowercase property names of [Object.prototype] answer with an object
    instead of a string. *)
Inductive jsval : Type :=
| JStr (s : str)
| JObjectConstructor          (* [langMap['constructor']] *)
| JObjectPrototype.           (* [langMap['__proto__']] *)

(** [FileGeneration]; [currentFile] is a [Partial<FileGeneration>] whose
    [path], [content] and [language] are always set by [startNewFile]. *)
Record FileGeneration : Type := mkFile {
  path : str;
  content : str;
  language : jsval;
  purpose : option str;
  patterns : option (list str)
}.

(** [StreamingChunk], one constructor per event type that is emitted. *)
Inductive StreamingChunk : Type :=
| FileStart (p : str) (l : jsval)
| ContentChunk (p : str) (chunk : str)
| FileComplete (file : FileGeneration)
| ExplanationText (text : str)
| Done (fs : list FileGeneration) (expl : str).

(** The fields of [StreamingResponseHandler], and the events emitted so far. *)
Record Handler : Type := mkHandler {
  buffer : str;
  currentFile : option FileGeneration;
  files : list FileGeneration;
  explanation : str;
  inCodeBlock : bool;
  codeBlockLanguage : str;
  codeBlockBuffer : str;
  emitted : list StreamingChunk
}.

(** The state after the constructor. *)
Definition init : Handler :=
  mkHandler [] None [] [] false [] [] [].

Definition set_buffer (v : str) (h : Handler) : Handler :=
  mkHandler v (currentFile h) (files h) (explanation h) (inCodeBlock h)
    (codeBlockLanguage h) (codeBlockBuffer h) (emitted h).
Definition set_currentFile (v : option FileGeneration) (h : Handler) : Handler :=
  mkHandler (buffer h) v (files h) (explanation h) (inCodeBlock h)
    (codeBlockLanguage h) (codeBlockBuffer h) (emitted h).
Definition set_files (v : list FileGeneration) (h : Handler) : Handler :=
  mkHandler (buffer h) (currentFile h) v (explanation h) (inCodeBlock h)
    (codeBlockLanguage h) (codeBlockBuffer h) (emitted h).
Definition set_explanation (v : str) (h : Handler) : Handler :=
  mkHandler (buffer h) (currentFile h) (files h) v (inCodeBlock h)
    (codeBlockLanguage h) (codeBlockBuffer h) (emitted h).
Definition set_inCodeBlock (v : bool) (h : Handler) : Handler :=
  mkHandler (buffer h) (currentFile h) (files h) (explanation h) v
    (codeBlockLanguage h) (codeBlockBuffer h) (emitted h).
Definition set_codeBlockLanguage (v : str) (h : Handler) : Handler :=
  mkHandler (buffer h) (currentFile h) (files h) (explanation h) (inCodeBlock h)
    v (codeBlockBuffer h) (emitted h).
Definition set_codeBlockBuffer (v : str) (h : Handler) : Handler :=
  mkHandler (buffer h) (currentFile h) (files h) (explanation h) (inCodeBlock h)
    (codeBlockLanguage h) v (emitted h).

(** [this.emit(type, chunk)] *)
Definition emit (e : StreamingChunk) (h : Handler) : Handler :=
  mkHandler (buffer h) (currentFile h) (files h) (explanation h) (inCodeBlock h)
    (codeBlockLanguage h) (codeBlockBuffer h) (emitted h ++ [e]).

(** Truthiness of a string, and [a || b] on strings. *)
Definition nonempty (s : str) : bool :=
  match s with [] => false | _ :: _ => true end.

Definition or_str (a : option str) (b : str) : str :=
  match a with
  | Some s => if nonempty s then s else b
  | None => b
  end.

(** [match[1]] of a successful match whose group 1 is not optional. *)
Definition group1 (c : caps) : str :=
  match capture 1 c with
  | Some v => v
  | None => []
  end.

(** ** Path detection *)

(** [looksLikeFilePath] *)
Definition looksLikeFilePath (line : str) : bool :=
  let trimmed := trim line in
  test_re filePathPattern trimmed
  || includes 47 trimmed
  || endsWith (lit ".ts") trimmed
  || endsWith (lit ".tsx") trimmed
  || endsWith (lit ".js") trimmed
  || endsWith (lit ".jsx") trimmed
  || endsWith (lit ".css") trimmed
  || endsWith (lit ".json") trimmed
  || endsWith (lit ".md") trimmed.

(** The loop over [commentPatterns] at the end of [extractFilePath]. *)
Fixpoint tryCommentPatterns (ps : list re) (trimmed : str) : option str :=
  match ps with
  | [] => None
  | pattern :: ps' =>
      match match_re pattern trimmed with
      | Some c =>
          let potential := trim (group1 c) in
          if includes 47 potential || test_re extensionRe potential
          then Some potential
          else tryCommentPatterns ps' trimmed
      | None => tryCommentPatterns ps' trimmed
      end
  end.

(** [extractFilePath]; [None] is [null]. *)
Definition extractFilePath (line : str) : option str :=
  let trimmed := trim line in
  match match_re filePathPattern trimmed with
  | Some c => Some (trim (group1 c))
  | None =>
      if includes 47 trimmed && negb (includes 32 trimmed) then Some trimmed
      else tryCommentPatterns commentPatterns trimmed
  end.

(** ** Normalization *)

(** [normalizeFilePath] *)
Definition normalizeFilePath (p : str) : str :=
  let normalized := trim p in
  let normalized := replace_all quotesRe 0 0 normalized in
  if negb (startsWith (lit "src/") normalized)
     && negb (startsWith (lit "public/") normalized)
     && negb (startsWith (lit "prisma/") normalized)
     && negb (startsWith (lit "tests/") normalized)
     && negb (startsWith (lit ".") normalized)
  then lit "src/" ++ normalized
  else normalized.

(** [String.prototype.toLowerCase], as far as a lookup of ASCII keys can tell:
    the ASCII capitals and the Kelvin sign (U+212A, lowered to [k]) are the
    only code units whose lower case is an ASCII string; the lower case of
    any other code unit above 127 keeps a code unit above 127, so leaving it
    as it is here changes no lookup. *)
Definition lower1 (c : char) : char :=
  if (65 <=? c) && (c <=? 90) then c + 32
  else if c =? 8490 then 107
  else c.

Definition toLowerCase (s : str) : str := map lower1 s.

(** The own properties of [langMap]. *)
Definition langMap : list (str * str) :=
  [ (lit "typescript", lit "typescript");
    (lit "ts", lit "typescript");
    (lit "tsx", lit "typescript");
    (lit "javascript", lit "javascript");
    (lit "js", lit "javascript");
    (lit "jsx", lit "javascript");
    (lit "json", lit "json");
    (lit "css", lit "css");
    (lit "scss", lit "scss");
    (lit "html", lit "html");
    (lit "markdown", lit "markdown");
    (lit "md", lit "markdown");
    (lit "prisma", lit "prisma");
    (lit "sql", lit "sql") ].

Fixpoint assoc (key : str) (l : list (str * str)) : option str :=
  match l with
  | [] => None
  | (k, v) :: l' => if str_eqb k key then Some v else assoc key l'
  end.

(** [langMap[key]]: an own property, or one inherited from
    [Object.prototype] (of whose property names only [constructor] and
    [__proto__] are fixed by [toLowerCase]). *)
Definition langMap_get (key : str) : option jsval :=
  match assoc key langMap with
  | Some v => Some (JStr v)
  | None =>
      if str_eqb key (lit "constructor") then Some JObjectConstructor
      else if str_eqb key (lit "__proto__") then Some JObjectPrototype
      else None
  end.

(** [normalizeLanguage]: every value of [langMap] is truthy. *)
Definition normalizeLanguage (lang : str) : jsval :=
  match langMap_get (toLowerCase lang) with
  | Some v => v
  | None => JStr lang
  end.

(** ** The line algorithm *)

(** [finalizeCurrentFile] *)
Definition finalizeCurrentFile (h : Handler) : Handler :=
  match currentFile h with
  | None => set_currentFile None h
  | Some cur =>
      if negb (nonempty (path cur)) || negb (nonempty (content cur))
      then set_currentFile None h
      else
        let file :=
          mkFile (path cur) (content cur)
            (match language cur with
             | JStr [] => JStr (lit "text")
             | l => l
             end)
            (purpose cur) (patterns cur) in
        let h := set_files (files h ++ [file]) h in
        let h := emit (FileComplete file) h in
        set_currentFile None h
  end.

(** [startNewFile] *)
Definition startNewFile (p : str) (lang : str) (h : Handler) : Handler :=
  let h :=
    match currentFile h with
    | Some cur => if nonempty (path cur) then finalizeCurrentFile h else h
    | None => h
    end in
  let cur := mkFile (normalizeFilePath p) [] (normalizeLanguage lang) None None in
  let h := set_currentFile (Some cur) h in
  emit (FileStart (path cur) (language cur)) h.

(** [finalizeCodeBlock] *)
Definition finalizeCodeBlock (h : Handler) : Handler :=
  match currentFile h with
  | None => set_codeBlockBuffer [] h
  | Some cur =>
      let cur := mkFile (path cur) (trim (codeBlockBuffer h)) (language cur)
                   (purpose cur) (patterns cur) in
      let h := set_currentFile (Some cur) h in
      let h := finalizeCurrentFile h in
      set_codeBlockBuffer [] h
  end.

(** [if (filePath)] on the result of [extractFilePath]: [null] and the empty
    string are falsy. *)
Definition detectTruthy (filePath : option str) : option str :=
  match filePath with
  | Some p => if nonempty p then Some p else None
  | None => None
  end.

(** The path that the first-line test of [processLine] finds in [line], if
    any: [looksLikeFilePath(line)] holds and [extractFilePath(line)] is
    truthy. *)
Definition detectPath (line : str) : option str :=
  if looksLikeFilePath line then detectTruthy (extractFilePath line) else None.

(** [processLine] *)
Definition processLine (line : str) (h : Handler) : Handler :=
  let codeBlockStart := match_re codeBlockStartRe line in
  match codeBlockStart, inCodeBlock h with
  | Some c, false =>
      let h := set_inCodeBlock true h in
      let h := set_codeBlockLanguage (or_str (capture 1 c) (lit "text")) h in
      set_codeBlockBuffer [] h
  | _, _ =>
      if test_re codeBlockEndRe line && inCodeBlock h then
        finalizeCodeBlock (set_inCodeBlock false h)
      else if inCodeBlock h then
        match (if nonempty (codeBlockBuffer h) then None else detectPath line) with
        | Some filePath => startNewFile filePath (codeBlockLanguage h) h
        | None =>
            let h := set_codeBlockBuffer (codeBlockBuffer h ++ line ++ [LF]) h in
            match currentFile h with
            | Some cur => emit (ContentChunk (path cur) (line ++ [LF])) h
            | None => h
            end
        end
      else if nonempty (trim line) then
        let h := set_explanation (explanation h ++ line ++ [LF]) h in
        emit (ExplanationText line) h
      else h
  end.

(** The [for] loop of [processChunk]. *)
Definition processLines (lines : list str) (h : Handler) : Handler :=
  fold_left (fun h line => processLine line h) lines h.

(** [processChunk] *)
Definition processChunk (chunk : str) (h : Handler) : Handler :=
  let h := set_buffer (buffer h ++ chunk) h in
  let lines := split_nl (buffer h) in
  let h := set_buffer (last lines []) h in
  processLines (removelast lines) h.

(** [getFiles] and [getExplanation] *)
Definition getFiles (h : Handler) : list FileGeneration := files h.
Definition getExplanation (h : Handler) : str := trim (explanation h).

(** [finalize] *)
Definition finalize (h : Handler) : Handler :=
  let h := if nonempty (trim (buffer h)) then processLine (buffer h) h else h in
  let h := if inCodeBlock h && nonempty (codeBlockBuffer h)
           then finalizeCodeBlock h else h in
  let h := match currentFile h with
           | Some _ => finalizeCurrentFile h
           | None => h
           end in
  emit (Done (files h) (trim (explanation h))) h.

(** [parseCompleteResponse] *)
Definition parseCompleteResponse (text : str) : list FileGeneration * str :=
  let handler := init in
  let handler := processChunk text handler in
  let handler := finalize handler in
  (getFiles handler, getExplanation handler).

(** Feeding fragments one after the other to [processChunk]. *)
Definition feed (fragments : list str) (h : Handler) : Handler :=
  fold_left (fun h chunk => processChunk chunk h) fragments h.

(** ** The non-streaming scan *)

(** [r.exec(s)] for a pattern with the [g] flag whose [lastIndex] is
    [lastIndex]: the leftmost match at or after that index. *)
Definition exec (r : re) (s : str) (lastIndex : nat) : option (nat * nat * caps) :=
  exec_from r lastIndex (skipn lastIndex s).

(** [match[2]] of [codeBlockRegex], a group that always takes part. *)
Definition group2 (c : caps) : str :=
  match capture 2 c with
  | Some v => v
  | None => []
  end.

(** A number in a template literal: its decimal digits. *)
Definition decimal (n : nat) : str :=
  lit (NilEmpty.string_of_uint (Nat.to_uint n)).

(** The body of the [while] loop of [extractFilesFromMarkdown]: the file
    pushed for a match with captures [c] when [files.length] is [n]. *)
Definition blockFile (c : caps) (n : nat) : FileGeneration :=
  let language := or_str (capture 1 c) (lit "text") in
  let content := group2 c in
  let lines := split_nl content in
  let firstLine := trim (hd [] lines) in
  match detectTruthy (extractFilePath firstLine) with
  | Some filePath =>
      mkFile (normalizeFilePath filePath) (trim (join_nl (tl lines)))
        (normalizeLanguage language) None None
  | None =>
      mkFile (lit "unknown-" ++ decimal n ++ lit "." ++ language)
        (trim content) (normalizeLanguage language) None None
  end.

(** The [while] loop of [extractFilesFromMarkdown]; a match is never empty,
    so [lastIndex] grows and [fuel] bounds the number of iterations (see
    [extract_loop_fuel]). *)
Fixpoint extract_loop (fuel : nat) (markdown : str) (lastIndex : nat)
    (files : list FileGeneration) : list FileGeneration :=
  match fuel with
  | O => files
  | S fuel' =>
      match exec codeBlockRegex markdown lastIndex with
      | None => files
      | Some (_, e, c) =>
          extract_loop fuel' markdown e (files ++ [blockFile c (length files)])
      end
  end.

(** [extractFilesFromMarkdown] *)
Definition extractFilesFromMarkdown (markdown : str) : list FileGeneration :=
  extract_loop (S (length markdown)) markdown 0 [].

(** The fenced blocks that the scan finds: the successive matches of
    [codeBlockRegex], each with its captures. *)
Fixpoint scan_loop (fuel : nat) (markdown : str) (lastIndex : nat) : list caps :=
  match fuel with
  | O => []
  | S fuel' =>
      match exec codeBlockRegex markdown lastIndex with
      | None => []
      | Some (_, e, c) => c :: scan_loop fuel' markdown e
      end
  end.


(** [binds n r]: every match of [r] goes through group [n]. *)
Fixpoint binds (n : nat) (r : re) : bool :=
  match r with
  | Group k a => Nat.eqb k n || binds n a
  | Seq a b => binds n a || binds n b
  | Alt a b => binds n a && binds n b
  | _ => false
  end.

(** The files of a list of blocks, the first of which is pushed when
    [files.length] is [n]. *)
Fixpoint filesOf (n : nat) (blocks : list caps) : list FileGeneration :=
  match blocks with
  | [] => []
  | c :: blocks' => blockFile c n :: filesOf (S n) blocks'
  end.

(** A document with three fences, the first with a path line. *)
Definition three_blocks_input : str :=
  join_nl [ lit "Intro ```ts"; lit "// a.ts"; lit " foo "; lit "```";
            lit "```"; lit "bar"; lit "```"; lit "```sh"; lit "```" ].

(** ** What a successful run of the matcher has matched

    [matches r st c st' c']: the pattern [r] can take the matcher from state
    [st] with captures [c] to state [st'] with captures [c']. *)
Inductive matches : re -> mstate -> caps -> mstate -> caps -> Prop :=
| M_Eps st c : matches Eps st c st c
| M_Chr x pos rest c : matches (Chr x) (pos, x :: rest) c (S pos, rest) c
| M_ChrI x y pos rest c :
    canonicalize y = canonicalize x ->
    matches (ChrI x) (pos, y :: rest) c (S pos, rest) c
| M_Cls (p : char -> bool) y pos rest c :
    p y = true -> matches (Cls p) (pos, y :: rest) c (S pos, rest) c
| M_Seq a b st c st1 c1 st2 c2 :
    matches a st c st1 c1 -> matches b st1 c1 st2 c2 ->
    matches (Seq a b) st c st2 c2
| M_AltL a b st c st' c' : matches a st c st' c' -> matches (Alt a b) st c st' c'
| M_AltR a b st c st' c' : matches b st c st' c' -> matches (Alt a b) st c st' c'
| M_StarNil g a st c : matches (Star g a) st c st c
| M_StarCons g a st c st1 c1 st2 c2 :
    matches a st c st1 c1 ->
    (length (snd st1) < length (snd st))%nat ->
    matches (Star g a) st1 c1 st2 c2 ->
    matches (Star g a) st c st2 c2
| M_Group n a st c st' c' :
    matches a st c st' c' ->
    matches (Group n a) st c st'
      ((n, firstn (fst st' - fst st)%nat (snd st)) :: c')
| M_Bol rest c : matches Bol (O, rest) c (O, rest) c
| M_Eol pos c : matches Eol (pos, []) c (pos, []) c.

(** ** States the handler can be in *)

(** The states reached from a fresh handler by calls of the two public
    mutators. *)
Inductive reachable : Handler -> Prop :=
| reach_init : reachable init
| reach_processChunk h chunk : reachable h -> reachable (processChunk chunk h)
| reach_finalize h : reachable h -> reachable (finalize h).

Definition newline_free (s : str) : Prop := ~ In LF s.

(** What holds of every state the handler can be in (see [reachable_Inv]). *)
Record Inv (h : Handler) : Prop := mkInv {
  inv_buffer : newline_free (buffer h);
  inv_currentFile : inCodeBlock h = false -> currentFile h = None;
  inv_draft : forall cur, currentFile h = Some cur -> content cur = [];
  inv_files :
    Forall (fun f => trim (content f) = content f /\ content f <> []) (files h)
}.

(** [lines] written out as text, every line terminated by a newline. *)
Fixpoint unlines (lines : list str) : str :=
  match lines with
  | [] => []
  | l :: ls => l ++ LF :: unlines ls
  end.

(** ** Readings of the specification, kept apart from the code *)

(** The fence-open form in the words of the specification: the delimiter,
    optionally followed at once by one bare word, and nothing else. *)
Definition spec_fence_open (line : str) : bool :=
  startsWith backticks line && forallb is_word (skipn 3 line).

(** A blank line has nothing but white space. *)
Definition blank (l : str) : bool := negb (nonempty (trim l)).

(** Trimming in the words of the specification: the leading and the trailing
    blank lines of the block go, nothing else does. *)
Definition spec_strip_blank_lines (buf : str) : str :=
  join_nl (rev (dropWhile blank (rev (dropWhile blank (split_nl buf))))).







(** ** The example of the specification *)

(** A fence whose only content line is indented. *)
Definition indented_block_lines : list str :=
  [ lit "```ts"; lit "// src/a.ts"; lit ""; lit "  indented();  "; lit "" ].

(** A fence whose path line is followed by an ordinary comment. *)
Definition comment_after_path_input : str :=
  unlines [ lit "```typescript"; lit "// src/a.ts"; lit "// helper";
            lit "const x = 1"; lit "```" ].


Definition example_lines : list str :=
  [ lit "Here is the plan."; lit ""; lit "```typescript";
    lit "// src/components/Button.tsx";
    lit "export function Button() { return null }";
    lit "```"; lit ""; lit "Done." ].

Definition example_input : str := join_nl example_lines.

Definition example_artifact : FileGeneration :=
  mkFile (lit "src/components/Button.tsx")
    (lit "export function Button() { return null }")
    (JStr (lit "typescript")) None None.

(** ** Further operations and notions *)

(** A line with something other than white space. *)
Definition nonblank (l : str) : bool := nonempty (trim l).

(** A path that begins with one of the roots that [normalizeFilePath] looks
    for. *)
Definition rooted (p : str) : bool :=
  startsWith (lit "src/") p || startsWith (lit "public/") p
  || startsWith (lit "prisma/") p || startsWith (lit "tests/") p
  || startsWith (lit ".") p.

(** Dropping the last character when it is a quote, and a quote at each
    end. *)
Fixpoint strip_last_quote (s : str) : str :=
  match s with
  | [] => []
  | y :: t =>
      match t with
      | [] => if is_quote y then [] else [y]
      | _ :: _ => y :: strip_last_quote t
      end
  end.

Definition strip_quotes (s : str) : str :=
  match s with
  | [] => []
  | x :: t => if is_quote x then strip_last_quote t else strip_last_quote s
  end.

(** A path with neither white space nor a quote at either end. *)
Definition clean_end (c : char) : bool := negb (is_ws c) && negb (is_quote c).

Definition clean_path (p : str) : bool :=
  match p with
  | [] => true
  | x :: _ => clean_end x && clean_end (last p x)
  end.

(** ** Well-formed documents

    A document as the prompt asks for it: lines of prose and fenced blocks
    whose first line names the file. *)
Inductive item : Type :=
| Prose (l : str)
| Block (open pathline : str) (body : list str).

Definition item_lines (i : item) : list str :=
  match i with
  | Prose l => [l]
  | Block open pathline body => open :: pathline :: body ++ [backticks]
  end.

(** A prose line does not open a fence; a block opens with the backticks, a
    path is detected in its path line, none in the line after it, and no
    line of its body is the closing marker. *)
Definition valid_item (i : item) : Prop :=
  match i with
  | Prose l => startsWith backticks l = false
  | Block open pathline body =>
      startsWith backticks open = true
      /\ detectPath pathline <> None
      /\ detectPath (hd [] body) = None
      /\ Forall (fun l => l <> backticks) body
  end.

(** The language tag of an opening line. *)
Definition block_tag (open : str) : str :=
  or_str (Some (takeWhile is_word (skipn 3 open))) (lit "text").

(** The draft that the path line of a block opens. *)
Definition block_draft (open pathline : str) : FileGeneration :=
  mkFile (normalizeFilePath (match detectPath pathline with
                             | Some p => p
                             | None => []
                             end))
    [] (normalizeLanguage (block_tag open)) None None.

(** The file of a block, if its body is not blank. *)
Definition block_files (open pathline : str) (body : list str)
    : list FileGeneration :=
  if nonempty (trim (unlines body))
  then [mkFile (path (block_draft open pathline)) (trim (unlines body))
          (language (block_draft open pathline)) None None]
  else [].

Definition item_files (i : item) : list FileGeneration :=
  match i with
  | Prose _ => []
  | Block open pathline body => block_files open pathline body
  end.

Definition item_prose (i : item) : list str :=
  match i with
  | Prose l => if nonblank l then [l] else []
  | Block _ _ _ => []
  end.

(** The events of an item, in the order of their emission. *)
Definition item_events (i : item) : list StreamingChunk :=
  match i with
  | Prose l => if nonblank l then [ExplanationText l] else []
  | Block open pathline body =>
      FileStart (path (block_draft open pathline))
        (language (block_draft open pathline))
      :: map (fun l => ContentChunk (path (block_draft open pathline))
                         (l ++ [LF])) body
      ++ map FileComplete (block_files open pathline body)
  end.

(** A document with two blocks between two lines of prose. *)
Definition two_block_items : list item :=
  [ Prose (lit "Intro");
    Block (lit "```ts") (lit "// a.ts") [lit "let x = 1"];
    Block (lit "```css title") (lit "/* styles/b.css */") [lit "a {}"; lit ""];
    Prose (lit "Bye") ].

(** ** The events as a protocol

    A reader of the events keeps the path of the draft that the last
    [file-start] opened and the chunks received for it since; an
    [explanation], a [file-complete] or a [done] closes it.  [None] is a
    trace that breaks the protocol: a [content-chunk] or a [file-complete]
    without an open draft or for another path, or a [file-complete] whose
    content is not the trimmed concatenation of the chunks. *)
Definition trace_state : Type := option (str * str).

Definition trace_step (st : option trace_state) (e : StreamingChunk)
    : option trace_state :=
  match st with
  | None => None
  | Some s =>
      match e with
      | FileStart p _ => Some (Some (p, []))
      | ContentChunk p chunk =>
          match s with
          | Some (q, acc) =>
              if str_eqb p q then Some (Some (q, acc ++ chunk)) else None
          | None => None
          end
      | FileComplete f =>
          match s with
          | Some (q, acc) =>
              if str_eqb (path f) q && str_eqb (content f) (trim acc)
              then Some None else None
          | None => None
          end
      | ExplanationText _ => Some None
      | Done _ _ => Some None
      end
  end.

Definition trace_run (t : list StreamingChunk) : option trace_state :=
  fold_left trace_step t (Some None).

(** The payloads of the [file-complete] events and the lines of the
    [explanation] events of a trace. *)
Definition completed (t : list StreamingChunk) : list FileGeneration :=
  flat_map (fun e => match e with FileComplete f => [f] | _ => [] end) t.

Definition explained (t : list StreamingChunk) : list str :=
  flat_map (fun e => match e with ExplanationText l => [l] | _ => [] end) t.

(** The link between a state and its trace. *)
Definition follows_protocol (h : Handler) : Prop :=
  exists st, trace_run (emitted h) = Some st
             /\ forall cur, currentFile h = Some cur ->
                            st = Some (path cur, codeBlockBuffer h).

(** What a method emits is what it adds to the files and to the
    explanation. *)
Definition accounted (h h' : Handler) : Prop :=
  exists ev, emitted h' = emitted h ++ ev
             /\ files h' = files h ++ completed ev
             /\ explanation h' = explanation h ++ unlines (explained ev).

(** ** Reuse of a handler *)

(** [reset].  The listeners that it detaches are outside the model; the
    trace of the calls of [emit] made so far stays what it is. *)
Definition reset (h : Handler) : Handler :=
  mkHandler [] None [] [] false [] [] (emitted h).

(** A state without its trace. *)
Definition forget (h : Handler) : Handler :=
  mkHandler (buffer h) (currentFile h) (files h) (explanation h)
    (inCodeBlock h) (codeBlockLanguage h) (codeBlockBuffer h) [].

(** What holds of the paths in every state the handler can be in (see
    [reachable_RootedPaths]). *)
Definition RootedPaths (h : Handler) : Prop :=
  (forall cur, currentFile h = Some cur -> rooted (path cur) = true)
  /\ Forall (fun f => rooted (path f) = true) (files h).

(** The lines of an explanation: none is blank, none holds a newline. *)
Definition prose_lines (e : str) : Prop :=
  exists ls, e = unlines ls
             /\ Forall (fun l => nonblank l = true /\ newline_free l) ls.

(** The loop of a quantifier in [m], under a name of its own. *)
Definition star_loop (greedy : bool) (a : re) (k : cont)
    : nat -> mstate -> caps -> mresult :=
  fix loop (fuel : nat) (st : mstate) (c : caps) {struct fuel} : mresult :=
    match fuel with
    | O => k st c
    | S fuel' =>
        let again :=
          m a (fun st' c' =>
                 if Nat.ltb (length (snd st')) (length (snd st))
                 then loop fuel' st' c' else None) st c in
        if greedy then orelse again (k st c) else orelse (k st c) again
    end.

(** The two patterns of [commentPatterns] for a line comment: the marker,
    white space, and then the rest of the line as the path. *)
Definition lineCommentPattern (marker : str) : re :=
  (Bol ;; Lit marker ;; Star true (Cls is_ws) ;;
   Group 1 (Plus true (Cls is_dot)) ;; Eol)%re.

(** * The retry loop of the client ([claude-client.ts]) *)

(** [getRetryDelay]: [Math.min(1000 * Math.pow(2, retryCount - 1), 8000)].
    The loop calls it with the count of retries, a whole number that is at
    least one; for zero the power is a half. *)
Definition getRetryDelay (retryCount : nat) : N :=
  match retryCount with
  | O => N.min 500 8000
  | S n => N.min (1000 * 2 ^ N.of_nat n) 8000
  end.

(** What one pass through the [try] block of [streamGeneration] meets: the
    texts of the [text_delta] events that the stream delivers, in order, and
    how the pass ends.  It ends with the [return], or with an error thrown
    by the request, by the stream or by the bookkeeping that follows it, of
    which [isRetryableError] says [retryable]. *)
Inductive ending : Type :=
| Completed
| Threw (retryable : bool).

Record attempt : Type := mkAttempt {
  deltas : list str;
  ending_of : ending
}.

(** What the caller of the generator observes while it runs. *)
Inductive effect : Type :=
| Yield (chunk : str)
| Sleep (ms : N).

(** How the generator ends: with its [return], with the error of the last
    attempt given to [handleError], or, when [lastError] is still [null] at
    the [throw] that follows the loop, with the failure of [handleError] to
    read a property of [null]. *)
Inductive completion : Type :=
| Returned (files : list FileGeneration) (explanation : str)
| Thrown
| ThrownOnNull.

(** [streamGeneration], from the test of its [while] on: [retries] and
    [failed] ([lastError] is not [null]) are the two variables of the loop,
    [script] says what the successive attempts meet.  The result is [None]
    when the script is too short to tell. *)
Fixpoint streamGeneration_from (maxRetries : Z) (retries : nat) (failed : bool)
    (script : list attempt) : option (list effect * completion) :=
  if (Z.of_nat retries <=? maxRetries)%Z then
    match script with
    | [] => None
    | a :: script' =>
        let handler := feed (deltas a) init in
        let yielded := map Yield (deltas a) in
        match ending_of a with
        | Completed =>
            let handler := finalize handler in
            Some (yielded, Returned (getFiles handler) (getExplanation handler))
        | Threw retryable =>
            if retryable then
              let retries := S retries in
              if (Z.of_nat retries <=? maxRetries)%Z then
                match streamGeneration_from maxRetries retries true script' with
                | Some (effects, r) =>
                    Some (yielded ++ Sleep (getRetryDelay retries) :: effects, r)
                | None => None
                end
              else Some (yielded, Thrown)
            else Some (yielded, Thrown)
        end
    end
  else Some ([], if failed then Thrown else ThrownOnNull).

Definition streamGeneration (maxRetries : Z) (script : list attempt)
    : option (list effect * completion) :=
  streamGeneration_from maxRetries 0 false script.

Definition sleeps (effects : list effect) : list N :=
  flat_map (fun e => match e with Sleep ms => [ms] | Yield _ => [] end) effects.

Definition yields (effects : list effect) : list str :=
  flat_map (fun e => match e with Yield chunk => [chunk] | Sleep _ => [] end)
    effects.

(** What the caller observes of a run that makes the attempts [made] after
    [retries] retries: the fragments of each attempt in turn and, between
    two successive attempts and nowhere else, one sleep, whose length is
    that of the retry it precedes. *)
Fixpoint schedule (retries : nat) (made : list attempt) : list effect :=
  match made with
  | [] => []
  | a :: made' =>
      map Yield (deltas a)
      ++ match made' with
         | [] => []
         | _ :: _ =>
             Sleep (getRetryDelay (S retries)) :: schedule (S retries) made'
         end
  end.

(** Two attempts that fail half way with an error worth a retry, and a
    third that completes. *)
Definition flaky_script : list attempt :=
  [ mkAttempt [lit "Here is"] (Threw true);
    mkAttempt [] (Threw true);
    mkAttempt [lit "Here is the "; lit "plan."] Completed ].

(** A text in which three backticks never stand in a row. *)
Definition fence_free (s : str) : Prop :=
  forall j : nat, startsWith backticks (skipn j s) = false.

(** A text with Windows line ends, cut at its newlines: every line keeps
    its carriage return. *)
Definition crlf_lines : list str :=
  [ lit "// src/a.ts" ++ [13]; lit "const x = 1" ++ [13];
    backticks ++ [13]; lit "Done." ++ [13] ].

(** * Properties *)

(** ** Splitting at newlines *)

Lemma split_nl_nonempty (s : str) : split_nl s <> [].
Proof.
  destruct s as [|c r]; simpl; [discriminate|].
  destruct (c =? LF); [discriminate|].
  destruct (split_nl r); discriminate.
Qed.

Lemma split_nl_app (a b : str) :
  split_nl (a ++ b) =
  removelast (split_nl a) ++ split_nl (last (split_nl a) [] ++ b).
Proof.
  induction a as [|c r IH]; [reflexivity|].
  cbn [app split_nl]. rewrite IH. clear IH.
  pose proof (split_nl_nonempty r) as Hne.
  destruct (c =? LF) eqn:Hc.
  - destruct (split_nl r) as [|h t]; [congruence|]. reflexivity.
  - destruct (split_nl r) as [|h [|x t]]; [congruence| |].
    + cbn [removelast last app split_nl]. rewrite Hc. reflexivity.
    + reflexivity.
Qed.

Lemma split_nl_newline_free (s : str) :
  newline_free s -> split_nl s = [s].
Proof.
  unfold newline_free. induction s as [|c r IH]; intros H; [reflexivity|].
  cbn [split_nl]. destruct (c =? LF) eqn:Hc.
  - apply N.eqb_eq in Hc. exfalso. apply H. left. exact Hc.
  - rewrite IH; [reflexivity|]. intros Hin. apply H. right. exact Hin.
Qed.

Lemma split_nl_last_newline_free (s : str) :
  newline_free (last (split_nl s) []).
Proof.
  unfold newline_free. induction s as [|c r IH]; [intros []|].
  cbn [split_nl]. pose proof (split_nl_nonempty r) as Hne.
  destruct (c =? LF) eqn:Hc.
  - destruct (split_nl r) as [|h t]; [congruence|]. exact IH.
  - destruct (split_nl r) as [|h [|x t]]; [congruence| |].
    + cbn [last] in *. intros [H|H]; [|exact (IH H)].
      apply N.eqb_neq in Hc. congruence.
    + exact IH.
Qed.

Lemma split_nl_line (l rest : str) :
  newline_free l -> split_nl (l ++ LF :: rest) = l :: split_nl rest.
Proof.
  unfold newline_free. induction l as [|c r IH]; intros H.
  - reflexivity.
  - cbn [app split_nl]. destruct (c =? LF) eqn:Hc.
    + apply N.eqb_eq in Hc. exfalso. apply H. left. exact Hc.
    + rewrite IH; [reflexivity|]. intros Hin. apply H. right. exact Hin.
Qed.

Lemma split_nl_unlines (lines : list str) (tail : str) :
  Forall newline_free lines -> newline_free tail ->
  split_nl (unlines lines ++ tail) = lines ++ [tail].
Proof.
  intros Hl Ht. induction Hl as [|l ls Hl _ IH]; cbn [unlines app].
  - apply split_nl_newline_free. exact Ht.
  - rewrite <- app_assoc. cbn [app]. rewrite (split_nl_line _ _ Hl).
    rewrite IH. reflexivity.
Qed.

(** ** The carry-over buffer is a frame of the line algorithm *)

Lemma finalizeCurrentFile_set_buffer (b : str) (h : Handler) :
  finalizeCurrentFile (set_buffer b h) = set_buffer b (finalizeCurrentFile h).
Proof.
  unfold finalizeCurrentFile. cbn [currentFile set_buffer].
  destruct (currentFile h) as [cur|]; [|reflexivity].
  destruct (negb (nonempty (path cur)) || negb (nonempty (content cur)));
    reflexivity.
Qed.

Lemma finalizeCodeBlock_set_buffer (b : str) (h : Handler) :
  finalizeCodeBlock (set_buffer b h) = set_buffer b (finalizeCodeBlock h).
Proof.
  unfold finalizeCodeBlock. cbn [currentFile codeBlockBuffer set_buffer].
  destruct (currentFile h) as [cur|]; [|reflexivity].
  change (set_currentFile ?v (set_buffer b h))
    with (set_buffer b (set_currentFile v h)).
  rewrite finalizeCurrentFile_set_buffer. reflexivity.
Qed.

Lemma startNewFile_set_buffer (b p lang : str) (h : Handler) :
  startNewFile p lang (set_buffer b h) = set_buffer b (startNewFile p lang h).
Proof.
  unfold startNewFile. cbn [currentFile set_buffer].
  destruct (currentFile h) as [cur|]; [|reflexivity].
  destruct (nonempty (path cur)); [|reflexivity].
  rewrite finalizeCurrentFile_set_buffer. reflexivity.
Qed.

Lemma processLine_set_buffer (b line : str) (h : Handler) :
  processLine line (set_buffer b h) = set_buffer b (processLine line h).
Proof.
  unfold processLine.
  cbn [inCodeBlock codeBlockBuffer codeBlockLanguage currentFile explanation
       set_buffer set_codeBlockBuffer].
  destruct (match_re codeBlockStartRe line) as [c|];
    destruct (inCodeBlock h); try reflexivity.
  all: destruct (test_re codeBlockEndRe line); cbn [andb];
    try apply (finalizeCodeBlock_set_buffer b (set_inCodeBlock false h)).
  all: try (destruct (if nonempty (codeBlockBuffer h) then None else detectPath line);
            [apply startNewFile_set_buffer|];
            destruct (currentFile h); reflexivity).
  all: destruct (nonempty (trim line)); reflexivity.
Qed.

Lemma buffer_finalizeCurrentFile (h : Handler) :
  buffer (finalizeCurrentFile h) = buffer h.
Proof.
  unfold finalizeCurrentFile. destruct (currentFile h) as [cur|]; [|reflexivity].
  destruct (negb (nonempty (path cur)) || negb (nonempty (content cur)));
    reflexivity.
Qed.

Lemma buffer_finalizeCodeBlock (h : Handler) :
  buffer (finalizeCodeBlock h) = buffer h.
Proof.
  unfold finalizeCodeBlock. destruct (currentFile h) as [cur|]; [|reflexivity].
  cbn [buffer set_codeBlockBuffer]. rewrite buffer_finalizeCurrentFile.
  reflexivity.
Qed.

Lemma buffer_startNewFile (p lang : str) (h : Handler) :
  buffer (startNewFile p lang h) = buffer h.
Proof.
  unfold startNewFile. cbn [buffer emit set_currentFile].
  destruct (currentFile h) as [cur|]; [|reflexivity].
  destruct (nonempty (path cur)); [|reflexivity].
  apply buffer_finalizeCurrentFile.
Qed.

Lemma buffer_processLine (line : str) (h : Handler) :
  buffer (processLine line h) = buffer h.
Proof.
  unfold processLine.
  destruct (match_re codeBlockStartRe line) as [c|];
    destruct (inCodeBlock h); try reflexivity.
  all: destruct (test_re codeBlockEndRe line); cbn [andb];
    try apply (buffer_finalizeCodeBlock (set_inCodeBlock false h)).
  all: try (destruct (if nonempty (codeBlockBuffer h) then None else detectPath line);
            [apply buffer_startNewFile|];
            cbn [currentFile set_codeBlockBuffer];
            destruct (currentFile h); reflexivity).
  all: destruct (nonempty (trim line)); reflexivity.
Qed.

Lemma processLines_app (l1 l2 : list str) (h : Handler) :
  processLines (l1 ++ l2) h = processLines l2 (processLines l1 h).
Proof. apply fold_left_app. Qed.

Lemma processLines_set_buffer (b : str) (lines : list str) (h : Handler) :
  processLines lines (set_buffer b h) = set_buffer b (processLines lines h).
Proof.
  revert h. induction lines as [|l ls IH]; intros h; [reflexivity|].
  cbn [processLines fold_left]. rewrite processLine_set_buffer. apply IH.
Qed.

Lemma buffer_processLines (lines : list str) (h : Handler) :
  buffer (processLines lines h) = buffer h.
Proof.
  revert h. induction lines as [|l ls IH]; intros h; [reflexivity|].
  cbn [processLines fold_left]. rewrite IH. apply buffer_processLine.
Qed.

Lemma set_buffer_set_buffer (a b : str) (h : Handler) :
  set_buffer a (set_buffer b h) = set_buffer a h.
Proof. reflexivity. Qed.

(** [processChunk] in one equation: the complete lines of the carried text
    are processed, what follows the last newline is carried over. *)
Lemma processChunk_eq (chunk : str) (h : Handler) :
  processChunk chunk h =
  set_buffer (last (split_nl (buffer h ++ chunk)) [])
    (processLines (removelast (split_nl (buffer h ++ chunk))) h).
Proof.
  unfold processChunk. cbn [buffer set_buffer].
  rewrite set_buffer_set_buffer, processLines_set_buffer. reflexivity.
Qed.

Lemma removelast_app_nonempty {A : Type} (l1 l2 : list A) :
  l2 <> [] -> removelast (l1 ++ l2) = l1 ++ removelast l2.
Proof. intros H. apply removelast_app. exact H. Qed.

Lemma last_app_nonempty {A : Type} (l1 l2 : list A) (d : A) :
  l2 <> [] -> last (l1 ++ l2) d = last l2 d.
Proof.
  intros H. induction l1 as [|x l1 IH]; [reflexivity|].
  cbn [app last]. destruct (l1 ++ l2) eqn:E; [|exact IH].
  apply app_eq_nil in E. tauto.
Qed.

(** Two successive chunks act as their concatenation. *)
Lemma processChunk_app (c1 c2 : str) (h : Handler) :
  processChunk c2 (processChunk c1 h) = processChunk (c1 ++ c2) h.
Proof.
  rewrite (processChunk_eq c2), (processChunk_eq c1), (processChunk_eq (c1 ++ c2)).
  cbn [buffer set_buffer].
  rewrite processLines_set_buffer, set_buffer_set_buffer.
  rewrite app_assoc, (split_nl_app (buffer h ++ c1) c2).
  set (s1 := split_nl (buffer h ++ c1)).
  set (s2 := split_nl (last s1 [] ++ c2)).
  assert (Hne : s2 <> []) by apply split_nl_nonempty.
  rewrite (removelast_app_nonempty _ _ Hne), (last_app_nonempty _ _ _ Hne).
  rewrite processLines_app. reflexivity.
Qed.

Lemma processChunk_nil_init : processChunk [] init = init.
Proof. reflexivity. Qed.

Lemma feed_processChunk (fragments : list str) (c : str) (h : Handler) :
  feed fragments (processChunk c h) = processChunk (c ++ concat fragments) h.
Proof.
  revert c. induction fragments as [|f fs IH]; intros c.
  - cbn [feed fold_left concat]. rewrite app_nil_r. reflexivity.
  - cbn [feed fold_left concat]. rewrite processChunk_app.
    change (fold_left (fun h0 chunk => processChunk chunk h0) fs) with (feed fs).
    rewrite IH, app_assoc. reflexivity.
Qed.

(** C1.  Chunk-boundary invariance: however a text is cut into fragments,
    feeding the fragments in order to a fresh handler and finalizing gives
    the files and the explanation that [parseCompleteResponse] gives for the
    whole text. *)
Theorem chunk_boundary_invariance (fragments : list str) :
  let handler := finalize (feed fragments init) in
  (getFiles handler, getExplanation handler)
  = parseCompleteResponse (concat fragments).
Proof.
  cbv zeta. unfold parseCompleteResponse.
  assert (H : feed fragments init = processChunk (concat fragments) init).
  { rewrite <- processChunk_nil_init at 1. apply feed_processChunk. }
  rewrite H. reflexivity.
Qed.

(** ** The matcher only reports what the pattern matches *)

Lemma orelse_Some (a b : mresult) (res : nat * caps) :
  orelse a b = Some res -> a = Some res \/ b = Some res.
Proof. destruct a; simpl; intros H; [left|right]; exact H. Qed.

Lemma m_sound (r : re) :
  forall (k : cont) (st : mstate) (c : caps) (res : nat * caps),
    m r k st c = Some res ->
    exists st' c', matches r st c st' c' /\ k st' c' = Some res.
Proof.
  induction r as [|x|x|p|a IHa b IHb|a IHa b IHb|g a IHa|n a IHa| |];
    intros k [pos rest] c res H; cbn [m fst snd] in H.
  - eauto using matches.
  - destruct rest as [|y rest]; [discriminate|].
    destruct (y =? x) eqn:E; [|discriminate].
    apply N.eqb_eq in E. subst y. eauto using matches.
  - destruct rest as [|y rest]; [discriminate|].
    destruct (canonicalize y =? canonicalize x) eqn:E; [|discriminate].
    apply N.eqb_eq in E. eauto using matches.
  - destruct rest as [|y rest]; [discriminate|].
    destruct (p y) eqn:E; [|discriminate]. eauto using matches.
  - apply IHa in H. destruct H as (st1 & c1 & Ha & H).
    apply IHb in H. destruct H as (st2 & c2 & Hb & H).
    eauto using matches.
  - apply orelse_Some in H. destruct H as [H|H].
    + apply IHa in H. destruct H as (st' & c' & Ha & H). eauto using matches.
    + apply IHb in H. destruct H as (st' & c' & Hb & H). eauto using matches.
  - remember (length rest) as fuel eqn:Hfuel. clear Hfuel.
    revert pos rest c H. induction fuel as [|fuel IHf]; intros pos rest c H.
    + eauto using matches.
    + assert (Hagain :
        m a (fun st' c' =>
               if Nat.ltb (length (snd st')) (length rest)
               then (fix loop (fuel : nat) (st : mstate) (c : caps) {struct fuel} : mresult :=
                       match fuel with
                       | O => k st c
                       | S fuel' =>
                           let again :=
                             m a (fun st' c' =>
                                    if Nat.ltb (length (snd st')) (length (snd st))
                                    then loop fuel' st' c' else None) st c in
                           if g then orelse again (k st c) else orelse (k st c) again
                       end) fuel st' c'
               else None) (pos, rest) c = Some res ->
        exists st' c', matches (Star g a) (pos, rest) c st' c' /\ k st' c' = Some res).
      { intros Ha. apply IHa in Ha. destruct Ha as ([pos1 rest1] & c1 & Ha & Hk).
        cbn [snd] in Hk. destruct (Nat.ltb (length rest1) (length rest)) eqn:Hlt;
          [|discriminate].
        apply Nat.ltb_lt in Hlt. apply IHf in Hk.
        destruct Hk as (st2 & c2 & Hs & Hk).
        exists st2, c2. split; [|exact Hk].
        eapply M_StarCons; eauto. }
      cbn [snd] in H. destruct g; apply orelse_Some in H; destruct H as [H|H];
        eauto using matches.
  - apply IHa in H. destruct H as (st' & c' & Ha & H).
    cbn [fst snd] in H. eexists _, _. split; [|exact H].
    apply (M_Group n a (pos, rest) c st' c' Ha).
  - destruct pos; [|discriminate]. eauto using matches.
  - destruct rest; [|discriminate]. eauto using matches.
Qed.

(** ** Groups that always take part

    [match[1]] and [match[2]] are read without a test by the handler; the
    groups concerned are bound by every match, so the reads never meet
    [undefined]. *)

Lemma matches_binds (n : nat) (r : re) (st : mstate) (c : caps) (st' : mstate)
    (c' : caps) :
  matches r st c st' c' ->
  (capture n c <> None -> capture n c' <> None)
  /\ (binds n r = true -> capture n c' <> None).
Proof.
  induction 1; cbn [binds capture];
    try (split; [intros K; exact K|discriminate]).
  - destruct IHmatches1 as [K1 B1], IHmatches2 as [K2 B2]. split; [auto|].
    intros Hb. apply orb_true_iff in Hb. destruct Hb; auto.
  - destruct IHmatches as [K B]. split; [auto|].
    intros Hb. apply andb_true_iff in Hb. apply B, Hb.
  - destruct IHmatches as [K B]. split; [auto|].
    intros Hb. apply andb_true_iff in Hb. apply B, Hb.
  - destruct IHmatches1 as [K1 _], IHmatches2 as [K2 _]. split; [auto|].
    discriminate.
  - destruct IHmatches as [K B].
    destruct (Nat.eqb n0 n) eqn:E; cbn [orb]; split; auto; discriminate.
Qed.

Lemma exec_from_binds (n : nat) (r : re) (rest : str) :
  binds n r = true ->
  forall (pos i e : nat) (c : caps),
    exec_from r pos rest = Some (i, e, c) -> capture n c <> None.
Proof.
  intros Hb. induction rest as [|x rest IH]; intros pos i e c H;
    cbn [exec_from] in H;
    destruct (run r pos _) as [[e0 c0]|] eqn:E; try discriminate;
    try (apply (IH _ _ _ _ H)).
  all: injection H as <- <- <-; unfold run in E; apply m_sound in E;
    destruct E as (st' & c' & Hm & Hacc); unfold accept in Hacc;
    injection Hacc as <- <-; exact (proj2 (matches_binds n _ _ _ _ _ Hm) Hb).
Qed.

Lemma match_re_binds (n : nat) (r : re) (s : str) (c : caps) :
  binds n r = true -> match_re r s = Some c -> capture n c <> None.
Proof.
  unfold match_re. intros Hb H.
  destruct (exec_from r 0 s) as [[[i e] c0]|] eqn:E; [|discriminate].
  injection H as <-. exact (exec_from_binds n r s Hb _ _ _ _ E).
Qed.

Lemma handler_groups_bound :
  binds 1 filePathPattern = true
  /\ forallb (binds 1) commentPatterns = true
  /\ binds 2 codeBlockRegex = true.
Proof. repeat split. Qed.

(** ** Trimming *)

Lemma takeWhile_dropWhile (p : char -> bool) (s : str) :
  s = takeWhile p s ++ dropWhile p s.
Proof.
  induction s as [|c r IH]; [reflexivity|].
  cbn [takeWhile dropWhile]. destruct (p c); [|reflexivity].
  cbn [app]. f_equal. exact IH.
Qed.

Lemma takeWhile_forallb (p : char -> bool) (s : str) :
  forallb p (takeWhile p s) = true.
Proof.
  induction s as [|c r IH]; [reflexivity|].
  cbn [takeWhile]. destruct (p c) eqn:E; [|reflexivity].
  cbn [forallb]. rewrite E. exact IH.
Qed.

Lemma dropWhile_head (p : char -> bool) (s : str) (x : char) (rest : str) :
  dropWhile p s = x :: rest -> p x = false.
Proof.
  induction s as [|c r IH]; [discriminate|].
  cbn [dropWhile]. destruct (p c) eqn:E; [exact IH|].
  intros H. injection H as -> _. exact E.
Qed.

Lemma dropWhile_id (p : char -> bool) (x : char) (rest : str) :
  p x = false -> dropWhile p (x :: rest) = x :: rest.
Proof. intros H. cbn [dropWhile]. rewrite H. reflexivity. Qed.

Lemma forallb_rev (p : char -> bool) (s : str) :
  forallb p (rev s) = forallb p s.
Proof.
  induction s as [|c r IH]; [reflexivity|].
  cbn [rev forallb]. rewrite forallb_app, IH. cbn [forallb].
  rewrite andb_true_r. apply andb_comm.
Qed.

(** [trim] only removes white space, from the two ends. *)
Lemma trim_decompose (s : str) :
  exists l r, s = l ++ trim s ++ r
              /\ forallb is_ws l = true /\ forallb is_ws r = true.
Proof.
  exists (takeWhile is_ws s),
         (rev (takeWhile is_ws (rev (dropWhile is_ws s)))).
  split; [|split].
  - unfold trim. rewrite <- rev_app_distr, <- takeWhile_dropWhile,
      rev_involutive. apply takeWhile_dropWhile.
  - apply takeWhile_forallb.
  - rewrite forallb_rev. apply takeWhile_forallb.
Qed.

(** A trimmed string neither starts nor ends with white space. *)
Lemma trim_ends (s : str) (x : char) (rest : str) :
  trim s = x :: rest ->
  is_ws x = false /\ is_ws (last (x :: rest) x) = false.
Proof.
  unfold trim. intros H.
  destruct (dropWhile is_ws s) as [|y t] eqn:Et; [discriminate H|].
  pose proof (dropWhile_head _ _ _ _ Et) as Hy.
  destruct (dropWhile is_ws (rev (y :: t))) as [|z u] eqn:Eu; [discriminate H|].
  pose proof (dropWhile_head _ _ _ _ Eu) as Hz.
  split.
  - pose proof (takeWhile_dropWhile is_ws (rev (y :: t))) as Hsplit.
    rewrite Eu in Hsplit. apply (f_equal (@rev char)) in Hsplit.
    rewrite rev_involutive, rev_app_distr, H in Hsplit.
    cbn [app] in Hsplit. injection Hsplit as -> _. exact Hy.
  - rewrite <- H. cbn [rev]. rewrite last_last. exact Hz.
Qed.

Lemma trim_idempotent (s : str) : trim (trim s) = trim s.
Proof.
  destruct (trim s) as [|x rest] eqn:E; [reflexivity|].
  destruct (trim_ends _ _ _ E) as [Hx Hl].
  unfold trim. rewrite (dropWhile_id _ _ _ Hx).
  destruct (exists_last (l := x :: rest)) as (front & z & Hz); [discriminate|].
  rewrite Hz in Hl |- *. rewrite last_last in Hl.
  rewrite rev_app_distr. cbn [rev app]. rewrite (dropWhile_id _ _ _ Hl).
  change (z :: rev front) with (rev [z] ++ rev front).
  rewrite <- rev_app_distr, rev_involutive. reflexivity.
Qed.


(** ** The invariant of the handler *)

Lemma nonempty_true (s : str) : nonempty s = true -> s <> [].
Proof. destruct s; [discriminate|discriminate]. Qed.

Lemma Inv_init : Inv init.
Proof.
  constructor; cbn.
  - intros [].
  - reflexivity.
  - discriminate.
  - constructor.
Qed.

Lemma Inv_set_buffer (b : str) (h : Handler) :
  newline_free b -> Inv h -> Inv (set_buffer b h).
Proof. intros Hb [H1 H2 H3 H4]. constructor; assumption. Qed.

Lemma Inv_finalizeCurrentFile (h : Handler) :
  newline_free (buffer h) ->
  Forall (fun f => trim (content f) = content f /\ content f <> []) (files h) ->
  (forall cur, currentFile h = Some cur ->
     content cur <> [] -> trim (content cur) = content cur) ->
  Inv (finalizeCurrentFile h).
Proof.
  intros Hb Hf Hc. unfold finalizeCurrentFile.
  destruct (currentFile h) as [cur|] eqn:Ecur.
  2: { constructor; cbn [buffer inCodeBlock currentFile files set_currentFile];
       auto; discriminate. }
  destruct (nonempty (path cur)); cbn [negb orb].
  2: { constructor; cbn [buffer inCodeBlock currentFile files set_currentFile];
       auto; discriminate. }
  destruct (nonempty (content cur)) eqn:En; cbn [negb].
  2: { constructor; cbn [buffer inCodeBlock currentFile files set_currentFile];
       auto; discriminate. }
  apply nonempty_true in En.
  constructor;
    cbn [buffer inCodeBlock currentFile files emit set_files set_currentFile];
    auto; try discriminate.
  apply Forall_app. split; [exact Hf|].
  constructor; [|constructor]. cbn [content].
  split; [exact (Hc cur eq_refl En)|exact En].
Qed.

Lemma currentFile_finalizeCurrentFile (h : Handler) :
  currentFile (finalizeCurrentFile h) = None.
Proof.
  unfold finalizeCurrentFile. destruct (currentFile h) as [cur|]; [|reflexivity].
  destruct (negb (nonempty (path cur)) || negb (nonempty (content cur)));
    reflexivity.
Qed.

Lemma inCodeBlock_finalizeCurrentFile (h : Handler) :
  inCodeBlock (finalizeCurrentFile h) = inCodeBlock h.
Proof.
  unfold finalizeCurrentFile. destruct (currentFile h) as [cur|]; [|reflexivity].
  destruct (negb (nonempty (path cur)) || negb (nonempty (content cur)));
    reflexivity.
Qed.

Lemma Inv_set_codeBlockBuffer (v : str) (h : Handler) :
  Inv h -> Inv (set_codeBlockBuffer v h).
Proof. intros [H1 H2 H3 H4]. constructor; assumption. Qed.

Lemma Inv_finalizeCodeBlock (h : Handler) :
  newline_free (buffer h) ->
  Forall (fun f => trim (content f) = content f /\ content f <> []) (files h) ->
  Inv (finalizeCodeBlock h).
Proof.
  intros H1 H4. unfold finalizeCodeBlock.
  destruct (currentFile h) as [cur|] eqn:Ecur; apply Inv_set_codeBlockBuffer.
  - apply Inv_finalizeCurrentFile; cbn [buffer files currentFile set_currentFile];
      auto.
    intros cur' E _. injection E as <-. cbn [content]. apply trim_idempotent.
  - constructor; auto; rewrite Ecur; auto; discriminate.
Qed.

Lemma currentFile_finalizeCodeBlock (h : Handler) :
  currentFile (finalizeCodeBlock h) = None.
Proof.
  unfold finalizeCodeBlock. destruct (currentFile h) as [cur|] eqn:Ecur.
  - cbn [currentFile set_codeBlockBuffer].
    apply currentFile_finalizeCurrentFile.
  - exact Ecur.
Qed.

Lemma Inv_startNewFile (p lang : str) (h : Handler) :
  inCodeBlock h = true -> Inv h -> Inv (startNewFile p lang h).
Proof.
  intros Hin HI. unfold startNewFile.
  set (h1 := match currentFile h with
             | Some cur => if nonempty (path cur) then finalizeCurrentFile h else h
             | None => h
             end).
  assert (H : Inv h1 /\ inCodeBlock h1 = true).
  { subst h1. destruct (currentFile h) as [cur|] eqn:Ecur; [|split; assumption].
    destruct (nonempty (path cur)); [|split; assumption]. split.
    - destruct HI as [H1 H2 H3 H4]. apply Inv_finalizeCurrentFile; auto.
      intros cur' E Hne. apply H3 in E. contradiction.
    - rewrite inCodeBlock_finalizeCurrentFile. exact Hin. }
  destruct H as [[H1 H2 H3 H4] Hin1].
  constructor;
    cbn [buffer inCodeBlock currentFile files emit set_currentFile path language].
  - exact H1.
  - congruence.
  - intros cur E. injection E as <-. reflexivity.
  - exact H4.
Qed.

(** The four cases of [processLine]. *)
Lemma processLine_open (line : str) (h : Handler) (c : caps) :
  inCodeBlock h = false -> match_re codeBlockStartRe line = Some c ->
  processLine line h =
  set_codeBlockBuffer []
    (set_codeBlockLanguage (or_str (capture 1 c) (lit "text"))
       (set_inCodeBlock true h)).
Proof. intros Hin Hm. unfold processLine. rewrite Hm, Hin. reflexivity. Qed.

Lemma processLine_close (line : str) (h : Handler) :
  inCodeBlock h = true -> test_re codeBlockEndRe line = true ->
  processLine line h = finalizeCodeBlock (set_inCodeBlock false h).
Proof.
  intros Hin Ht. unfold processLine. rewrite Hin, Ht.
  destruct (match_re codeBlockStartRe line); reflexivity.
Qed.

Lemma processLine_inside (line : str) (h : Handler) :
  inCodeBlock h = true -> test_re codeBlockEndRe line = false ->
  processLine line h =
  match (if nonempty (codeBlockBuffer h) then None else detectPath line) with
  | Some filePath => startNewFile filePath (codeBlockLanguage h) h
  | None =>
      let h := set_codeBlockBuffer (codeBlockBuffer h ++ line ++ [LF]) h in
      match currentFile h with
      | Some cur => emit (ContentChunk (path cur) (line ++ [LF])) h
      | None => h
      end
  end.
Proof.
  intros Hin Ht. unfold processLine. rewrite Hin, Ht.
  destruct (match_re codeBlockStartRe line); reflexivity.
Qed.

Lemma processLine_outside (line : str) (h : Handler) :
  inCodeBlock h = false -> match_re codeBlockStartRe line = None ->
  processLine line h =
  if nonempty (trim line)
  then emit (ExplanationText line)
         (set_explanation (explanation h ++ line ++ [LF]) h)
  else h.
Proof.
  intros Hin Hm. unfold processLine. rewrite Hm, Hin, andb_false_r.
  reflexivity.
Qed.

Lemma Inv_processLine (line : str) (h : Handler) :
  Inv h -> Inv (processLine line h).
Proof.
  intros HI. destruct (inCodeBlock h) eqn:Ein.
  - destruct (test_re codeBlockEndRe line) eqn:Et.
    + rewrite (processLine_close _ _ Ein Et).
      destruct HI as [H1 H2 H3 H4]. apply Inv_finalizeCodeBlock; assumption.
    + rewrite (processLine_inside _ _ Ein Et).
      destruct (if nonempty (codeBlockBuffer h) then None else detectPath line).
      * apply Inv_startNewFile; assumption.
      * destruct HI as [H1 H2 H3 H4]. cbv zeta.
        cbn [currentFile set_codeBlockBuffer].
        destruct (currentFile h) as [cur|] eqn:Ecur; constructor;
          cbn [buffer inCodeBlock currentFile files emit set_codeBlockBuffer];
          rewrite ?Ecur; auto; congruence.
  - destruct (match_re codeBlockStartRe line) as [c|] eqn:Em.
    + rewrite (processLine_open _ _ _ Ein Em).
      destruct HI as [H1 H2 H3 H4]. constructor; auto.
    + rewrite (processLine_outside _ _ Ein Em).
      destruct (nonempty (trim line)); [|exact HI].
      destruct HI as [H1 H2 H3 H4]. constructor; auto.
Qed.

Lemma Inv_processLines (lines : list str) (h : Handler) :
  Inv h -> Inv (processLines lines h).
Proof.
  revert h. induction lines as [|l ls IH]; intros h HI; [exact HI|].
  cbn [processLines fold_left]. apply IH, Inv_processLine, HI.
Qed.

Lemma Inv_processChunk (chunk : str) (h : Handler) :
  Inv h -> Inv (processChunk chunk h).
Proof.
  intros HI. rewrite processChunk_eq. apply Inv_set_buffer.
  - apply split_nl_last_newline_free.
  - apply Inv_processLines, HI.
Qed.

Lemma Inv_emit (e : StreamingChunk) (h : Handler) : Inv h -> Inv (emit e h).
Proof. intros [H1 H2 H3 H4]. constructor; assumption. Qed.

Lemma Inv_finalize (h : Handler) : Inv h -> Inv (finalize h).
Proof.
  intros HI. unfold finalize. apply Inv_emit.
  set (h1 := if nonempty (trim (buffer h)) then processLine (buffer h) h else h).
  assert (H1 : Inv h1).
  { subst h1. destruct (nonempty (trim (buffer h))); [apply Inv_processLine|]; exact HI. }
  set (h2 := if inCodeBlock h1 && nonempty (codeBlockBuffer h1)
             then finalizeCodeBlock h1 else h1).
  assert (H2 : Inv h2).
  { subst h2. destruct (inCodeBlock h1 && nonempty (codeBlockBuffer h1)); [|exact H1].
    destruct H1 as [I1 I2 I3 I4]. apply Inv_finalizeCodeBlock; assumption. }
  destruct (currentFile h2) as [cur|] eqn:Ecur; [|exact H2].
  destruct H2 as [I1 I2 I3 I4]. apply Inv_finalizeCurrentFile; auto.
  intros cur' E Hne. apply I3 in E. contradiction.
Qed.

Lemma reachable_Inv (h : Handler) : reachable h -> Inv h.
Proof.
  induction 1 as [|h chunk _ IH|h _ IH].
  - apply Inv_init.
  - apply Inv_processChunk, IH.
  - apply Inv_finalize, IH.
Qed.

(** ** Anchored patterns and the two fence markers *)

Lemma exec_from_anchored_later (r : re) (pos : nat) (rest : str) :
  exec_from (Seq Bol r) (S pos) rest = None.
Proof.
  revert pos. induction rest as [|x rest IH]; intros pos.
  - reflexivity.
  - cbn [exec_from run m fst Nat.eqb]. apply IH.
Qed.

Lemma match_re_anchored (r : re) (s : str) :
  match_re (Seq Bol r) s =
  match run (Seq Bol r) 0 s with
  | Some (_, c) => Some c
  | None => None
  end.
Proof.
  unfold match_re. destruct s as [|x rest]; cbn [exec_from].
  - destruct (run (Seq Bol r) 0 []) as [[e c]|]; reflexivity.
  - destruct (run (Seq Bol r) 0 (x :: rest)) as [[e c]|]; [reflexivity|].
    rewrite exec_from_anchored_later. reflexivity.
Qed.

Lemma codeBlockEnd_iff (line : str) :
  test_re codeBlockEndRe line = true <-> line = backticks.
Proof.
  split.
  - unfold test_re, codeBlockEndRe. rewrite match_re_anchored.
    destruct (run _ 0 line) as [[e c]|] eqn:E; [intros _|discriminate].
    unfold run in E. apply m_sound in E.
    destruct E as (st' & c' & Hm & _).
    repeat match goal with
           | H : matches (Seq _ _) _ _ _ _ |- _ => inversion H; subst; clear H
           | H : matches (Lit _) _ _ _ _ |- _ => cbn in H
           | H : matches (Chr _) _ _ _ _ |- _ => inversion H; subst; clear H
           | H : matches Eps _ _ _ _ |- _ => inversion H; subst; clear H
           | H : matches Bol _ _ _ _ |- _ => inversion H; subst; clear H
           | H : matches Eol _ _ _ _ |- _ => inversion H; subst; clear H
           end.
    reflexivity.
  - intros ->. reflexivity.
Qed.


(** The equations of the matcher, one per constructor. *)
Lemma m_seq (a b : re) (k : cont) (st : mstate) (c : caps) :
  m (Seq a b) k st c = m a (m b k) st c.
Proof. reflexivity. Qed.

Lemma m_alt (a b : re) (k : cont) (st : mstate) (c : caps) :
  m (Alt a b) k st c = orelse (m a k st c) (m b k st c).
Proof. reflexivity. Qed.

Lemma m_group (n : nat) (a : re) (k : cont) (st : mstate) (c : caps) :
  m (Group n a) k st c =
  m a (fun st' c' => k st' ((n, firstn (fst st' - fst st)%nat (snd st)) :: c'))
    st c.
Proof. reflexivity. Qed.

Lemma m_cls_cons (p : char -> bool) (k : cont) (pos : nat) (y : char)
    (t : str) (c : caps) :
  m (Cls p) k (pos, y :: t) c = if p y then k (S pos, t) c else None.
Proof. reflexivity. Qed.

Lemma m_eps (k : cont) (st : mstate) (c : caps) : m Eps k st c = k st c.
Proof. reflexivity. Qed.

(** One unfolding of a starred class. *)
Lemma m_star_cls_nil (g : bool) (p : char -> bool) (k : cont) (pos : nat)
    (c : caps) :
  m (Star g (Cls p)) k (pos, []) c = k (pos, []) c.
Proof. reflexivity. Qed.

Lemma m_star_cls_cons (g : bool) (p : char -> bool) (k : cont) (pos : nat)
    (y : char) (t : str) (c : caps) :
  m (Star g (Cls p)) k (pos, y :: t) c =
  let again := if p y then m (Star g (Cls p)) k (S pos, t) c else None in
  if g then orelse again (k (pos, y :: t) c)
  else orelse (k (pos, y :: t) c) again.
Proof.
  cbv zeta. cbn [m snd fst length].
  assert (E : Nat.ltb (length t) (S (length t)) = true)
    by (apply Nat.ltb_lt; lia).
  rewrite E. reflexivity.
Qed.

(** A greedy starred class in front of a continuation that cannot fail takes
    the longest run of the class. *)
Lemma star_greedy_total (p : char -> bool) (k : cont) :
  (forall st c, k st c <> None) ->
  forall (rest : str) (pos : nat) (c : caps),
    m (Star true (Cls p)) k (pos, rest) c
    = k ((pos + length (takeWhile p rest))%nat, dropWhile p rest) c.
Proof.
  intros Hk. induction rest as [|y t IH]; intros pos c.
  - rewrite m_star_cls_nil. cbn [takeWhile dropWhile length].
    rewrite Nat.add_0_r. reflexivity.
  - rewrite m_star_cls_cons. cbv zeta. cbn [takeWhile dropWhile].
    destruct (p y) eqn:Ey.
    + rewrite IH. cbn [length]. rewrite Nat.add_succ_r. cbn [Nat.add].
      destruct (k (S (pos + length (takeWhile p t)), dropWhile p t) c) eqn:E;
        [reflexivity|]. exfalso. exact (Hk _ _ E).
    + cbn [orelse length]. rewrite Nat.add_0_r. reflexivity.
Qed.

Lemma firstn_takeWhile (p : char -> bool) (s : str) :
  firstn (length (takeWhile p s)) s = takeWhile p s.
Proof.
  induction s as [|y t IH]; [reflexivity|].
  cbn [takeWhile]. destruct (p y); [|reflexivity].
  cbn [length firstn]. f_equal. exact IH.
Qed.

Lemma backticks_eq : backticks = [96; 96; 96].
Proof. reflexivity. Qed.

(** [/^```(\w+)?/] matches exactly the lines that begin with three backticks;
    its group is the run of word characters that follows them, if any. *)
Lemma codeBlockStart_match (line : str) :
  match_re codeBlockStartRe line =
  if startsWith backticks line then
    Some (match takeWhile is_word (skipn 3 line) with
          | [] => []
          | w => [(1%nat, w)]
          end)
  else None.
Proof.
  unfold codeBlockStartRe. rewrite match_re_anchored. unfold run.
  rewrite backticks_eq. cbn [Lit m fst snd Nat.eqb startsWith].
  destruct line as [|a line]; [reflexivity|].
  destruct (a =? 96); [|reflexivity].
  destruct line as [|b line]; [reflexivity|].
  destruct (b =? 96); [|reflexivity].
  destruct line as [|c rest]; [reflexivity|].
  destruct (c =? 96); [|reflexivity].
  cbn [andb skipn]. unfold Opt, Plus. rewrite m_alt, m_group, m_seq, m_eps.
  destruct rest as [|y t]; [reflexivity|].
  rewrite m_cls_cons. cbn [takeWhile].
  destruct (is_word y) eqn:Ey; [|reflexivity].
  rewrite star_greedy_total.
  - unfold accept. cbn [fst orelse].
    replace (4 + length (takeWhile is_word t) - 3)%nat
      with (S (length (takeWhile is_word t))) by lia.
    cbn [firstn snd]. rewrite firstn_takeWhile. reflexivity.
  - intros st c0. unfold accept. discriminate.
Qed.

(** ** The draft, the fence flag and chunks without a newline *)

Lemma reachable_draft_in_fence (h : Handler) :
  reachable h -> inCodeBlock h = false -> currentFile h = None.
Proof. intros Hr. apply (inv_currentFile h), reachable_Inv, Hr. Qed.

(** C9.  State invariant: in every state reached from a fresh handler by
    calls of [processChunk] and [finalize], an artifact draft is open only
    inside a fenced block: when [inCodeBlock] is false, [currentFile] is
    null. *)
Theorem currentFile_only_in_code_block (h : Handler) :
  reachable h -> inCodeBlock h = false -> currentFile h = None.
Proof.
  intros Hr. destruct Hr as [|h chunk Hr|h Hr].
  - reflexivity.
  - apply (inv_currentFile _ (Inv_processChunk chunk h (reachable_Inv h Hr))).
  - intros _. unfold finalize. cbn [currentFile emit].
    match goal with
    | |- currentFile (match currentFile ?x with _ => _ end) = None =>
        destruct (currentFile x) eqn:E; [|exact E]
    end.
    apply currentFile_finalizeCurrentFile.
Qed.

Lemma currentFile_only_in_code_block_witness :
  reachable (finalize (processChunk example_input init))
  /\ inCodeBlock (finalize (processChunk example_input init)) = false
  /\ currentFile (finalize (processChunk example_input init)) = None.
Proof.
  assert (Hr : reachable (finalize (processChunk example_input init)))
    by apply reach_finalize, reach_processChunk, reach_init.
  assert (Hin : inCodeBlock (finalize (processChunk example_input init)) = false)
    by (vm_compute; reflexivity).
  split; [exact Hr|]. split; [exact Hin|].
  exact (currentFile_only_in_code_block _ Hr Hin).
Defined.

Lemma newline_free_dec (s : str) :
  existsb (N.eqb LF) s = false -> newline_free s.
Proof.
  intros E Hin.
  assert (Ht : existsb (N.eqb LF) s = true).
  { apply existsb_exists. exists LF. split; [exact Hin|apply N.eqb_refl]. }
  rewrite E in Ht. discriminate.
Qed.

Lemma newline_free_app (a b : str) :
  newline_free a -> newline_free b -> newline_free (a ++ b).
Proof.
  unfold newline_free. intros Ha Hb Hin. apply in_app_or in Hin. tauto.
Qed.

(** C10.  Frame property of a chunk without a newline: in any state the
    handler can be in, [processChunk] appends such a chunk to the carry-over
    buffer and changes nothing else; in particular the files, the
    explanation, the fence flag, the fence language, the block buffer and
    the draft stay as they are and no event is emitted. *)
Theorem processChunk_without_newline (h : Handler) (chunk : str) :
  reachable h -> newline_free chunk ->
  processChunk chunk h = set_buffer (buffer h ++ chunk) h
  /\ buffer (processChunk chunk h) = buffer h ++ chunk
  /\ files (processChunk chunk h) = files h
  /\ explanation (processChunk chunk h) = explanation h
  /\ inCodeBlock (processChunk chunk h) = inCodeBlock h
  /\ codeBlockLanguage (processChunk chunk h) = codeBlockLanguage h
  /\ codeBlockBuffer (processChunk chunk h) = codeBlockBuffer h
  /\ currentFile (processChunk chunk h) = currentFile h
  /\ emitted (processChunk chunk h) = emitted h.
Proof.
  intros Hr Hc.
  assert (E : processChunk chunk h = set_buffer (buffer h ++ chunk) h).
  { rewrite processChunk_eq.
    rewrite split_nl_newline_free.
    - reflexivity.
    - apply newline_free_app; [|exact Hc].
      apply (inv_buffer h), reachable_Inv, Hr. }
  rewrite E. repeat split; reflexivity.
Qed.

Lemma processChunk_without_newline_witness :
  reachable (processChunk (lit "```ts") init)
  /\ newline_free (lit "x // src/a.ts")
  /\ processChunk (lit "x // src/a.ts") (processChunk (lit "```ts") init)
     = set_buffer (lit "```tsx // src/a.ts") (processChunk (lit "```ts") init).
Proof.
  assert (Hr : reachable (processChunk (lit "```ts") init))
    by apply reach_processChunk, reach_init.
  assert (Hc : newline_free (lit "x // src/a.ts"))
    by (apply newline_free_dec; reflexivity).
  split; [exact Hr|]. split; [exact Hc|].
  exact (proj1 (processChunk_without_newline _ _ Hr Hc)).
Defined.

(** ** Opening a fence *)

Lemma startsWith_false_outside (line : str) (h : Handler) :
  inCodeBlock h = false -> startsWith backticks line = false ->
  inCodeBlock (processLine line h) = false.
Proof.
  intros Hin Hs.
  rewrite (processLine_outside _ _ Hin);
    [|rewrite codeBlockStart_match, Hs; reflexivity].
  destruct (nonempty (trim line)); exact Hin.
Qed.

Lemma processLine_fence_open (line : str) (h : Handler) :
  inCodeBlock h = false -> startsWith backticks line = true ->
  processLine line h =
  mkHandler (buffer h) (currentFile h) (files h) (explanation h) true
    (or_str (Some (takeWhile is_word (skipn 3 line))) (lit "text"))
    [] (emitted h).
Proof.
  intros Hin Hs. pose proof (codeBlockStart_match line) as Hm. rewrite Hs in Hm.
  rewrite (processLine_open _ _ _ Hin Hm).
  destruct (takeWhile is_word (skipn 3 line)); reflexivity.
Qed.

(** C5, as the code has it.  Outside a fence, a completed line makes the
    handler enter fenced-block mode if and only if it begins with the three
    backticks, whatever follows them.  The language is the run of word
    characters right after the backticks, or [text] when that run is empty;
    the block buffer is reset, nothing else changes and no event is
    emitted. *)
Theorem fence_open_recognition (h : Handler) (line : str) :
  inCodeBlock h = false ->
  (inCodeBlock (processLine line h) = true <-> startsWith backticks line = true)
  /\ (startsWith backticks line = true ->
      processLine line h =
      mkHandler (buffer h) (currentFile h) (files h) (explanation h) true
        (or_str (Some (takeWhile is_word (skipn 3 line))) (lit "text"))
        [] (emitted h)).
Proof.
  intros Hin. split; [|apply processLine_fence_open; exact Hin]. split.
  - intros Ht. destruct (startsWith backticks line) eqn:Hs; [reflexivity|].
    rewrite (startsWith_false_outside _ _ Hin Hs) in Ht. discriminate.
  - intros Hs. rewrite (processLine_fence_open _ _ Hin Hs). reflexivity.
Qed.

Lemma fence_open_recognition_witness :
  inCodeBlock init = false
  /\ (inCodeBlock (processLine (lit "```ts title") init) = true
      <-> startsWith backticks (lit "```ts title") = true)
  /\ (startsWith backticks (lit "```ts title") = true ->
      processLine (lit "```ts title") init =
      mkHandler [] None [] [] true (lit "ts") [] []).
Proof.
  split; [reflexivity|].
  exact (fence_open_recognition init (lit "```ts title") eq_refl).
Defined.

(** C5, as the specification words it, fails: a line with a blank and a
    second word after the backticks is not of the stated form, and yet it
    opens a fence (with the default language). *)
Lemma fence_open_counterexample :
  inCodeBlock init = false
  /\ spec_fence_open (lit "``` js") = false
  /\ inCodeBlock (processLine (lit "``` js") init) = true
  /\ codeBlockLanguage (processLine (lit "``` js") init) = lit "text".
Proof. vm_compute. repeat split. Qed.

(** ** The example, and a comment under the path line *)

(** C2, as the specification words it, fails: the explanation of the example
    has no empty line between its two sentences. *)
Lemma example_explanation_counterexample :
  snd (parseCompleteResponse example_input)
  <> join_nl [lit "Here is the plan."; lit ""; lit "Done."].
Proof. vm_compute. discriminate. Qed.

(** C2, as the code has it.  The example input yields exactly one artifact,
    with path [src/components/Button.tsx], language [typescript] and content
    [export function Button() { return null }], and the explanation is the
    two sentences separated by a single newline, blank lines being left out
    of the explanation.  A final newline after the input changes nothing. *)
Theorem example_scenario :
  parseCompleteResponse example_input
  = ([example_artifact], join_nl [lit "Here is the plan."; lit "Done."])
  /\ parseCompleteResponse (example_input ++ [LF])
     = ([example_artifact], join_nl [lit "Here is the plan."; lit "Done."]).
Proof. split; vm_compute; reflexivity. Qed.

(** C4, on the failing input.  A comment that follows the path line is taken
    for a second path: the draft for [src/a.ts] is replaced by one for
    [src/helper], and the comment is not part of the content. *)
Theorem path_detection_after_path_line :
  parseCompleteResponse comment_after_path_input
  = ([mkFile (lit "src/helper") (lit "const x = 1") (JStr (lit "typescript"))
        None None], [])
  /\ detectPath (lit "// helper") = Some (lit "helper")
  /\ codeBlockBuffer
       (processLines [lit "```typescript"; lit "// src/a.ts"] init) = [].
Proof. repeat split; vm_compute; reflexivity. Qed.

(** ** A fenced block without a path line *)

Lemma not_close (line : str) :
  line <> backticks -> test_re codeBlockEndRe line = false.
Proof.
  intros Hne. destruct (test_re codeBlockEndRe line) eqn:E; [|reflexivity].
  apply codeBlockEnd_iff in E. contradiction.
Qed.

Lemma nonempty_app_l (a b : str) : nonempty a = true -> nonempty (a ++ b) = true.
Proof. destruct a; [discriminate|reflexivity]. Qed.

Lemma nonempty_line (l : str) : nonempty (l ++ [LF]) = true.
Proof. destruct l; reflexivity. Qed.



Lemma processChunk_nil (h : Handler) :
  newline_free (buffer h) -> processChunk [] h = h.
Proof.
  intros Hb. rewrite processChunk_eq, app_nil_r.
  rewrite (split_nl_newline_free _ Hb). destruct h; reflexivity.
Qed.

Lemma feed_concat (fragments : list str) (h : Handler) :
  newline_free (buffer h) ->
  feed fragments h = processChunk (concat fragments) h.
Proof.
  intros Hb. rewrite <- (processChunk_nil h Hb) at 1.
  apply feed_processChunk.
Qed.

Lemma processChunk_lines (lines : list str) (tail : str) (h : Handler) :
  buffer h = [] -> Forall newline_free lines -> newline_free tail ->
  processChunk (unlines lines ++ tail) h = set_buffer tail (processLines lines h).
Proof.
  intros Hb Hl Ht. rewrite processChunk_eq, Hb. cbn [app].
  rewrite (split_nl_unlines _ _ Hl Ht), removelast_last, last_last.
  reflexivity.
Qed.

Lemma backticks_newline_free : newline_free backticks.
Proof. unfold newline_free. vm_compute. intuition discriminate. Qed.




(** ** What a finalized artifact contains *)

Lemma files_finalizeCurrentFile (h : Handler) (cur : FileGeneration) :
  currentFile h = Some cur ->
  files (finalizeCurrentFile h)
  = files h ++
    (if nonempty (path cur) && nonempty (content cur)
     then [mkFile (path cur) (content cur)
             (match language cur with
              | JStr [] => JStr (lit "text")
              | l => l
              end) (purpose cur) (patterns cur)]
     else []).
Proof.
  intros Hcur. unfold finalizeCurrentFile. rewrite Hcur.
  destruct (nonempty (path cur)); destruct (nonempty (content cur));
    cbn [negb orb andb files set_currentFile]; rewrite ?app_nil_r; reflexivity.
Qed.

Lemma files_finalizeCodeBlock (h : Handler) (cur : FileGeneration) :
  currentFile h = Some cur ->
  files (finalizeCodeBlock h)
  = files h ++
    (if nonempty (path cur) && nonempty (trim (codeBlockBuffer h))
     then [mkFile (path cur) (trim (codeBlockBuffer h))
             (match language cur with
              | JStr [] => JStr (lit "text")
              | l => l
              end) (purpose cur) (patterns cur)]
     else []).
Proof.
  intros Hcur. unfold finalizeCodeBlock. rewrite Hcur.
  cbn [files set_codeBlockBuffer].
  rewrite (files_finalizeCurrentFile
             (set_currentFile
                (Some (mkFile (path cur) (trim (codeBlockBuffer h))
                         (language cur) (purpose cur) (patterns cur))) h)
             _ eq_refl).
  reflexivity.
Qed.

(** [finalize] on a state that meets the invariant: after the unfinished
    last line, if any, has been processed, an open draft is completed with
    the trimmed block buffer, and nothing else is added to the files. *)
Lemma files_finalize (h : Handler) :
  Inv h ->
  files (finalize h)
  = files (if nonempty (trim (buffer h)) then processLine (buffer h) h else h)
    ++ match currentFile
               (if nonempty (trim (buffer h)) then processLine (buffer h) h
                else h) with
       | Some cur =>
           if nonempty (path cur)
              && nonempty
                   (trim (codeBlockBuffer
                            (if nonempty (trim (buffer h))
                             then processLine (buffer h) h else h)))
           then [mkFile (path cur)
                   (trim (codeBlockBuffer
                            (if nonempty (trim (buffer h))
                             then processLine (buffer h) h else h)))
                   (match language cur with
                    | JStr [] => JStr (lit "text")
                    | l => l
                    end) (purpose cur) (patterns cur)]
           else []
       | None => []
       end.
Proof.
  intros HI. unfold finalize.
  set (h1 := if nonempty (trim (buffer h)) then processLine (buffer h) h else h).
  assert (H1 : Inv h1).
  { subst h1. destruct (nonempty (trim (buffer h)));
      [apply Inv_processLine|]; exact HI. }
  clearbody h1. cbn [files emit].
  destruct (currentFile h1) as [cur|] eqn:Ecur.
  - assert (Hin : inCodeBlock h1 = true).
    { destruct (inCodeBlock h1) eqn:E; [reflexivity|].
      rewrite (inv_currentFile h1 H1 E) in Ecur. discriminate. }
    rewrite Hin. cbn [andb].
    destruct (nonempty (codeBlockBuffer h1)) eqn:Hbuf.
    + rewrite currentFile_finalizeCodeBlock.
      apply (files_finalizeCodeBlock _ _ Ecur).
    + rewrite Ecur, (files_finalizeCurrentFile _ _ Ecur).
      rewrite (inv_draft h1 H1 cur Ecur).
      destruct (codeBlockBuffer h1); [|discriminate Hbuf].
      change (nonempty (trim [])) with false.
      cbn [nonempty]. rewrite !andb_false_r. reflexivity.
  - destruct (inCodeBlock h1 && nonempty (codeBlockBuffer h1)).
    + rewrite currentFile_finalizeCodeBlock.
      unfold finalizeCodeBlock. rewrite Ecur.
      cbn [files set_codeBlockBuffer]. rewrite app_nil_r. reflexivity.
    + rewrite Ecur, app_nil_r. reflexivity.
Qed.

(** C6, as the specification words it, fails: the indentation of the first
    content line and the blanks at the end of the last one are removed as
    well, which removing blank lines alone would not do. *)
Lemma content_trimming_counterexample :
  codeBlockBuffer (processLines indented_block_lines init)
  = unlines [lit ""; lit "  indented();  "; lit ""]
  /\ map content (files (processLines (indented_block_lines ++ [lit "```"]) init))
     = [lit "indented();"]
  /\ spec_strip_blank_lines (unlines [lit ""; lit "  indented();  "; lit ""])
     = lit "  indented();  "
  /\ lit "indented();" <> lit "  indented();  ".
Proof. vm_compute. repeat split. discriminate. Qed.

(** C6, as the code has it.  An artifact is finalized at two places: when
    [processLine] meets the closing marker of the fence, and when [finalize]
    ends the stream inside it, after the unfinished last line, if any, was
    processed.  At both, the content of the artifact is the block buffer
    with all the white space at its two ends removed
    ([String.prototype.trim]) and nothing else, and the artifact is added
    when its content is not empty: any text is its trimmed text between two
    runs of white space, and the trimmed text neither starts nor ends with a
    white-space character.  So blank lines never survive at either end, and
    neither does the indentation of the first line that is not blank nor the
    white space that ends the last one.  Every artifact in the list of a
    state the handler can be in has such a content, and it is not empty. *)
Theorem finalized_content_trimmed (h : Handler) (cur : FileGeneration) :
  reachable h ->
  (currentFile h = Some cur ->
   files (processLine backticks h)
   = files h ++
     (if nonempty (path cur) && nonempty (trim (codeBlockBuffer h))
      then [mkFile (path cur) (trim (codeBlockBuffer h))
              (match language cur with
               | JStr [] => JStr (lit "text")
               | l => l
               end) (purpose cur) (patterns cur)]
      else []))
  /\ (forall h1 : Handler,
        h1 = (if nonempty (trim (buffer h)) then processLine (buffer h) h
              else h) ->
        currentFile h1 = Some cur ->
        files (finalize h)
        = files h1 ++
          (if nonempty (path cur) && nonempty (trim (codeBlockBuffer h1))
           then [mkFile (path cur) (trim (codeBlockBuffer h1))
                   (match language cur with
                    | JStr [] => JStr (lit "text")
                    | l => l
                    end) (purpose cur) (patterns cur)]
           else []))
  /\ (forall buf : str,
        exists l r, buf = l ++ trim buf ++ r
                    /\ forallb is_ws l = true /\ forallb is_ws r = true)
  /\ (forall (buf : str) (x : char) (t : str),
        trim buf = x :: t ->
        is_ws x = false /\ is_ws (last (x :: t) x) = false)
  /\ (forall f, In f (files h) \/ In f (files (processLine backticks h))
                \/ In f (files (finalize h)) ->
        trim (content f) = content f /\ content f <> []).
Proof.
  intros Hr. pose proof (reachable_Inv h Hr) as HI.
  split; [|split; [|split; [|split]]].
  - intros Hcur.
    assert (Hin : inCodeBlock h = true).
    { destruct (inCodeBlock h) eqn:E; [reflexivity|].
      rewrite (inv_currentFile h HI E) in Hcur. discriminate. }
    rewrite (processLine_close backticks h Hin eq_refl).
    apply (files_finalizeCodeBlock (set_inCodeBlock false h) cur Hcur).
  - intros h1 -> Hcur. rewrite (files_finalize h HI), Hcur. reflexivity.
  - intros buf. apply trim_decompose.
  - intros buf. apply trim_ends.
  - intros f Hf.
    assert (Hall : forall g, Inv g -> In f (files g) ->
                             trim (content f) = content f /\ content f <> []).
    { intros g Hg Hin. pose proof (inv_files g Hg) as H.
      rewrite Forall_forall in H. exact (H f Hin). }
    destruct Hf as [Hf|[Hf|Hf]].
    + exact (Hall h HI Hf).
    + exact (Hall _ (Inv_processLine backticks h HI) Hf).
    + exact (Hall _ (Inv_finalize h HI) Hf).
Qed.

Lemma finalized_content_trimmed_witness :
  reachable (processChunk (unlines indented_block_lines) init)
  /\ files (processLine backticks
              (processChunk (unlines indented_block_lines) init))
     = [mkFile (lit "src/a.ts") (lit "indented();") (JStr (lit "typescript"))
          None None]
  /\ files (finalize (processChunk (unlines indented_block_lines) init))
     = [mkFile (lit "src/a.ts") (lit "indented();") (JStr (lit "typescript"))
          None None].
Proof.
  assert (Hr : reachable (processChunk (unlines indented_block_lines) init))
    by apply reach_processChunk, reach_init.
  pose proof (finalized_content_trimmed
                (processChunk (unlines indented_block_lines) init)
                (mkFile (lit "src/a.ts") [] (JStr (lit "typescript")) None None)
                Hr) as (Hclose & Hend & _).
  split; [exact Hr|]. split.
  - exact (Hclose eq_refl).
  - exact (Hend _ eq_refl eq_refl).
Defined.

(** ** Which first lines carry a path *)

Lemma matches_seq_inv (a b : re) (st : mstate) (c : caps) (st2 : mstate)
    (c2 : caps) :
  matches (Seq a b) st c st2 c2 ->
  exists st1 c1, matches a st c st1 c1 /\ matches b st1 c1 st2 c2.
Proof. intros H. inversion H; subst. eauto. Qed.

Lemma matches_bol_inv (st : mstate) (c : caps) (st' : mstate) (c' : caps) :
  matches Bol st c st' c' -> st' = st /\ c' = c /\ fst st = O.
Proof. intros H. inversion H; subst. auto. Qed.

Lemma matches_Lit_prefix (s : str) :
  forall (st : mstate) (c : caps) (st' : mstate) (c' : caps),
    matches (Lit s) st c st' c' -> startsWith s (snd st) = true.
Proof.
  induction s as [|x s IH]; intros st c st' c' H; [reflexivity|].
  cbn [Lit] in H. apply matches_seq_inv in H.
  destruct H as (st1 & c1 & Hx & Hs). inversion Hx; subst.
  cbn [snd startsWith]. rewrite N.eqb_refl.
  apply (IH _ _ _ _ Hs).
Qed.

Lemma canonicalize_not_letter (x y : char) :
  not_letter x = true -> canonicalize y = canonicalize x -> y = x.
Proof.
  unfold not_letter, canonicalize. intros Hx.
  apply negb_true_iff, orb_false_iff in Hx. destruct Hx as [Hu Hl].
  rewrite Hl.
  destruct ((97 <=? y) && (y <=? 122)) eqn:Ey; [|auto].
  apply andb_true_iff in Ey. destruct Ey as [E1 E2].
  apply N.leb_le in E1, E2. intros <-.
  exfalso. revert Hu. apply not_false_iff_true, andb_true_iff.
  split; apply N.leb_le; lia.
Qed.





Lemma codeBlockBuffer_finalizeCurrentFile (h : Handler) :
  codeBlockBuffer (finalizeCurrentFile h) = codeBlockBuffer h.
Proof.
  unfold finalizeCurrentFile. destruct (currentFile h) as [cur|]; [|reflexivity].
  destruct (negb (nonempty (path cur)) || negb (nonempty (content cur)));
    reflexivity.
Qed.





(** ** One file for every block of the non-streaming scan *)

(** A match moves forward in the input and stays inside it. *)
Lemma matches_position (r : re) (st : mstate) (c : caps) (st' : mstate)
    (c' : caps) :
  matches r st c st' c' ->
  (fst st <= fst st')%nat
  /\ (fst st' + length (snd st') = fst st + length (snd st))%nat.
Proof.
  induction 1; cbn [fst snd length] in *; lia.
Qed.

(** A match of [codeBlockRegex] is never empty. *)
Lemma codeBlockRegex_run (pos : nat) (rest : str) (e : nat) (c : caps) :
  run codeBlockRegex pos rest = Some (e, c) ->
  (pos < e /\ e <= pos + length rest)%nat.
Proof.
  unfold run. intros H. apply m_sound in H.
  destruct H as (st' & c' & Hm & Hacc).
  unfold accept in Hacc. injection Hacc as <- <-.
  pose proof (matches_position _ _ _ _ _ Hm) as [_ Hlen].
  unfold codeBlockRegex in Hm. rewrite backticks_eq in Hm. cbn [Lit] in Hm.
  apply matches_seq_inv in Hm. destruct Hm as (st1 & c1 & Hm & Hrest).
  apply matches_seq_inv in Hm. destruct Hm as (st2 & c2 & Hm & Hmid).
  pose proof (matches_position _ _ _ _ _ Hrest) as [Hle _].
  pose proof (matches_position _ _ _ _ _ Hmid) as [Hle' _].
  inversion Hm; subst.
  cbn [fst snd length] in *. lia.
Qed.

Lemma codeBlockRegex_exec_from (rest : str) :
  forall (pos i e : nat) (c : caps),
    exec_from codeBlockRegex pos rest = Some (i, e, c) ->
    (pos < e /\ e <= pos + length rest)%nat.
Proof.
  induction rest as [|x rest IH]; intros pos i e c H; cbn [exec_from] in H.
  - destruct (run codeBlockRegex pos []) as [[e0 c0]|] eqn:E; [|discriminate].
    injection H as <- <- <-. exact (codeBlockRegex_run _ _ _ _ E).
  - destruct (run codeBlockRegex pos (x :: rest)) as [[e0 c0]|] eqn:E.
    + injection H as <- <- <-. exact (codeBlockRegex_run _ _ _ _ E).
    + apply IH in H. cbn [length]. lia.
Qed.

Lemma codeBlockRegex_exec (markdown : str) (lastIndex i e : nat) (c : caps) :
  exec codeBlockRegex markdown lastIndex = Some (i, e, c) ->
  (lastIndex < e /\ e <= length markdown)%nat.
Proof.
  unfold exec. intros H. apply codeBlockRegex_exec_from in H.
  rewrite length_skipn in H. lia.
Qed.


Lemma scan_loop_fuel (markdown : str) (fuel : nat) :
  forall (fuel' lastIndex : nat),
    (length markdown - lastIndex < fuel)%nat ->
    (length markdown - lastIndex < fuel')%nat ->
    scan_loop fuel markdown lastIndex = scan_loop fuel' markdown lastIndex.
Proof.
  induction fuel as [|fuel IH]; intros fuel' lastIndex H H'; [lia|].
  destruct fuel' as [|fuel']; [lia|]. cbn [scan_loop].
  destruct (exec codeBlockRegex markdown lastIndex) as [[[i e] c]|] eqn:E;
    [|reflexivity].
  apply codeBlockRegex_exec in E. f_equal. apply IH; lia.
Qed.

(** The loop pushes one file per match, numbered by [files.length]. *)
Lemma extract_loop_scan (markdown : str) (fuel : nat) :
  forall (lastIndex : nat) (files : list FileGeneration),
    extract_loop fuel markdown lastIndex files
    = files ++ filesOf (length files) (scan_loop fuel markdown lastIndex).
Proof.
  induction fuel as [|fuel IH]; intros lastIndex files;
    cbn [extract_loop scan_loop].
  - cbn [filesOf]. rewrite app_nil_r. reflexivity.
  - destruct (exec codeBlockRegex markdown lastIndex) as [[[i e] c]|].
    + rewrite IH, length_app. cbn [length filesOf].
      rewrite <- app_assoc, Nat.add_1_r. reflexivity.
    + cbn [filesOf]. rewrite app_nil_r. reflexivity.
Qed.






(** * Further properties *)

(** ** Text without a fence *)

Lemma processLines_prose (lines : list str) :
  forall h : Handler,
    inCodeBlock h = false ->
    Forall (fun l => startsWith backticks l = false) lines ->
    processLines lines h
    = mkHandler (buffer h) (currentFile h) (files h)
        (explanation h ++ unlines (filter nonblank lines))
        false (codeBlockLanguage h) (codeBlockBuffer h)
        (emitted h ++ map ExplanationText (filter nonblank lines)).
Proof.
  induction lines as [|l ls IH]; intros h Hin Hall.
  - cbn [processLines fold_left filter unlines map]. rewrite !app_nil_r.
    destruct h; cbn in Hin; subst; reflexivity.
  - inversion Hall as [|? ? Hl Hls]; subst.
    cbn [processLines fold_left].
    change (fold_left (fun h0 line => processLine line h0) ls)
      with (processLines ls).
    rewrite (processLine_outside _ _ Hin);
      [|rewrite codeBlockStart_match, Hl; reflexivity].
    cbn [filter]. destruct (nonblank l) eqn:E; unfold nonblank in E; rewrite E.
    + rewrite IH; [|exact Hin|exact Hls].
      cbn [buffer currentFile files explanation inCodeBlock codeBlockLanguage
           codeBlockBuffer emitted emit set_explanation unlines map].
      rewrite <- !app_assoc. reflexivity.
    + apply IH; assumption.
Qed.

Lemma unlines_app (a b : list str) : unlines (a ++ b) = unlines a ++ unlines b.
Proof.
  induction a as [|l a IH]; [reflexivity|].
  cbn [app unlines]. rewrite IH, <- app_assoc. reflexivity.
Qed.

Lemma parse_prose (text : str) :
  Forall (fun l => startsWith backticks l = false) (split_nl text) ->
  parseCompleteResponse text
  = ([], trim (unlines (filter nonblank (split_nl text)))).
Proof.
  intros Hall. unfold parseCompleteResponse.
  rewrite processChunk_eq. cbn [buffer init app].
  destruct (exists_last (split_nl_nonempty text)) as (front & lst & E).
  rewrite E in *. rewrite removelast_last, last_last.
  apply Forall_app in Hall. destruct Hall as [Hinit Hlast].
  inversion Hlast as [|? ? Hl _]; subst.
  rewrite (processLines_prose _ init eq_refl Hinit).
  cbn [buffer currentFile files explanation inCodeBlock codeBlockLanguage
       codeBlockBuffer emitted init app set_buffer].
  rewrite filter_app, unlines_app. cbn [filter].
  unfold finalize, getFiles, getExplanation.
  cbn [buffer set_buffer].
  destruct (nonblank lst) eqn:En; unfold nonblank in En; rewrite En.
  - rewrite processLine_outside;
      [|reflexivity|rewrite codeBlockStart_match, Hl; reflexivity].
    rewrite En.
    cbn [buffer currentFile files explanation inCodeBlock codeBlockLanguage
         codeBlockBuffer emitted emit set_explanation andb unlines app].
    reflexivity.
  - cbn [buffer currentFile files explanation inCodeBlock codeBlockLanguage
         codeBlockBuffer emitted emit andb unlines app].
    rewrite app_nil_r. reflexivity.
Qed.

(** X1.  A text none of whose lines begins with three backticks has no
    artifact, and its explanation is its lines that are not blank, each
    followed by a newline, trimmed as a whole. *)
Theorem prose_only (text : str) :
  Forall (fun l => startsWith backticks l = false) (split_nl text) ->
  parseCompleteResponse text
  = ([], trim (unlines (filter nonblank (split_nl text)))).
Proof. exact (parse_prose text). Qed.

Lemma prose_only_witness :
  Forall (fun l => startsWith backticks l = false)
    (split_nl (join_nl [lit "Plan: use `tRPC`."; lit "  "; lit "Done."]))
  /\ parseCompleteResponse (join_nl [lit "Plan: use `tRPC`."; lit "  "; lit "Done."])
     = ([], join_nl [lit "Plan: use `tRPC`."; lit "Done."]).
Proof.
  assert (H : Forall (fun l => startsWith backticks l = false)
                (split_nl (join_nl [lit "Plan: use `tRPC`."; lit "  ";
                                    lit "Done."])))
    by (vm_compute; repeat constructor).
  split; [exact H|].
  exact (prose_only _ H).
Defined.

Lemma dropWhile_all (p : char -> bool) (l : str) :
  forallb p l = true -> dropWhile p l = [].
Proof.
  induction l as [|x l IH]; [reflexivity|].
  cbn [forallb dropWhile]. intros H. apply andb_true_iff in H.
  destruct H as [Hx Hl]. rewrite Hx. exact (IH Hl).
Qed.

Lemma split_nl_forallb (p : char -> bool) (text : str) :
  forallb p text = true ->
  Forall (fun l => forallb p l = true) (split_nl text).
Proof.
  induction text as [|x t IH]; intros H.
  - repeat constructor.
  - cbn [forallb] in H. apply andb_true_iff in H. destruct H as [Hx Ht].
    specialize (IH Ht). cbn [split_nl].
    destruct (x =? LF); [constructor; [reflexivity|exact IH]|].
    destruct (split_nl t) as [|h tl]; [repeat constructor; cbn; rewrite Hx; reflexivity|].
    inversion IH; subst. constructor; [|assumption].
    cbn [forallb]. rewrite Hx. assumption.
Qed.

Lemma blank_line (l : str) :
  forallb is_ws l = true ->
  startsWith backticks l = false /\ nonblank l = false.
Proof.
  intros H. split.
  - destruct l as [|x l]; [reflexivity|].
    cbn [forallb] in H. apply andb_true_iff in H. destruct H as [Hx _].
    rewrite backticks_eq. cbn [startsWith].
    destruct (x =? 96) eqn:E; [|reflexivity].
    apply N.eqb_eq in E. subst x. discriminate Hx.
  - unfold nonblank, trim. rewrite (dropWhile_all _ _ H). reflexivity.
Qed.

(** X2.  Empty input, and input made of white space only, gives no artifact
    and an empty explanation. *)
Theorem blank_input (text : str) :
  forallb is_ws text = true -> parseCompleteResponse text = ([], []).
Proof.
  intros H. apply split_nl_forallb in H.
  rewrite parse_prose.
  - replace (filter nonblank (split_nl text)) with (@nil str); [reflexivity|].
    induction H as [|l ls Hl _ IH]; [reflexivity|].
    cbn [filter]. rewrite (proj2 (blank_line l Hl)). exact IH.
  - induction H as [|l ls Hl _ IH]; constructor; [|exact IH].
    exact (proj1 (blank_line l Hl)).
Qed.

Lemma blank_input_witness :
  forallb is_ws (lit "  " ++ LF :: 9 :: 13 :: LF :: [160]) = true
  /\ parseCompleteResponse (lit "  " ++ LF :: 9 :: 13 :: LF :: [160]) = ([], []).
Proof.
  split; [reflexivity|].
  exact (blank_input (lit "  " ++ LF :: 9 :: 13 :: LF :: [160]) eq_refl).
Defined.

(** ** Path normalization *)

Lemma run_quotesRe (pos : nat) (y : char) (t : str) :
  run quotesRe pos (y :: t)
  = if is_quote y && (Nat.eqb pos 0 || negb (nonempty t))
    then Some (S pos, []) else None.
Proof.
  unfold run, quotesRe. cbn [m fst snd].
  destruct pos as [|pos]; cbn [Nat.eqb orb]; destruct (is_quote y);
    cbn [orelse andb]; try reflexivity.
  destruct t; reflexivity.
Qed.

Lemma replace_quotes_later (rest : str) :
  forall pos, replace_all quotesRe (S pos) 0 rest = strip_last_quote rest.
Proof.
  induction rest as [|y t IH]; intros pos; [reflexivity|].
  cbn [replace_all strip_last_quote]. rewrite run_quotesRe.
  cbn [Nat.eqb orb]. destruct t as [|z t'].
  - destruct (is_quote y); cbn [andb nonempty negb].
    + replace (Nat.ltb (S pos) (S (S pos))) with true
        by (symmetry; apply Nat.ltb_lt; lia).
      replace (S (S pos) - S pos - 1)%nat with O by lia.
      reflexivity.
    + reflexivity.
  - cbn [nonempty negb]. rewrite andb_false_r. rewrite IH. reflexivity.
Qed.

Lemma replace_quotes (s : str) : replace_all quotesRe 0 0 s = strip_quotes s.
Proof.
  destruct s as [|x t]; [reflexivity|].
  cbn [replace_all strip_quotes]. rewrite run_quotesRe.
  cbn [Nat.eqb orb]. rewrite andb_true_r.
  destruct (is_quote x) eqn:Ex.
  - cbn [Nat.ltb Nat.leb Nat.sub]. apply replace_quotes_later.
  - rewrite replace_quotes_later. destruct t; cbn [strip_last_quote];
      rewrite ?Ex; reflexivity.
Qed.

Lemma startsWith_app (pre s : str) : startsWith pre (pre ++ s) = true.
Proof.
  induction pre as [|x pre IH]; [reflexivity|].
  cbn [app startsWith]. rewrite N.eqb_refl. exact IH.
Qed.

Lemma normalizeFilePath_eq (p : str) :
  normalizeFilePath p
  = if rooted (strip_quotes (trim p)) then strip_quotes (trim p)
    else lit "src/" ++ strip_quotes (trim p).
Proof.
  unfold normalizeFilePath, rooted. rewrite replace_quotes.
  destruct (startsWith (lit "src/") _); [reflexivity|].
  destruct (startsWith (lit "public/") _); [reflexivity|].
  destruct (startsWith (lit "prisma/") _); [reflexivity|].
  destruct (startsWith (lit "tests/") _); [reflexivity|].
  destruct (startsWith (lit ".") _); reflexivity.
Qed.

Lemma rooted_normalizeFilePath (p : str) : rooted (normalizeFilePath p) = true.
Proof.
  rewrite normalizeFilePath_eq.
  destruct (rooted (strip_quotes (trim p))) eqn:E; [exact E|].
  unfold rooted. rewrite startsWith_app. reflexivity.
Qed.

Lemma rooted_nonempty (p : str) : rooted p = true -> nonempty p = true.
Proof. destruct p; [discriminate|reflexivity]. Qed.

(** X3.  Whatever it is given, [normalizeFilePath] returns a path that begins
    with [src/], [public/], [prisma/], [tests/] or a dot; in particular the
    path is never empty. *)
Theorem normalizeFilePath_rooted (p : str) :
  rooted (normalizeFilePath p) = true /\ normalizeFilePath p <> [].
Proof.
  split; [apply rooted_normalizeFilePath|].
  apply nonempty_true, rooted_nonempty, rooted_normalizeFilePath.
Qed.

(** X4.  [normalizeFilePath] removes the white space around the path, then at
    most one quote character at each end, and nothing inside; the result is
    kept when it begins with a known root and prefixed with [src/]
    otherwise. *)
Theorem normalizeFilePath_strips (p : str) :
  normalizeFilePath p
  = if rooted (strip_quotes (trim p)) then strip_quotes (trim p)
    else lit "src/" ++ strip_quotes (trim p).
Proof. apply normalizeFilePath_eq. Qed.

Lemma trim_fix (x : char) (rest : str) :
  is_ws x = false -> is_ws (last (x :: rest) x) = false ->
  trim (x :: rest) = x :: rest.
Proof.
  intros Hx Hl. unfold trim. rewrite (dropWhile_id _ _ _ Hx).
  destruct (exists_last (l := x :: rest)) as (front & z & Hz); [discriminate|].
  rewrite Hz in Hl |- *. rewrite last_last in Hl.
  rewrite rev_app_distr. cbn [rev app]. rewrite (dropWhile_id _ _ _ Hl).
  change (z :: rev front) with (rev [z] ++ rev front).
  rewrite <- rev_app_distr, rev_involutive. reflexivity.
Qed.

Lemma last_any_default {A : Type} (l : list A) (d d' : A) :
  l <> [] -> last l d = last l d'.
Proof.
  induction l as [|x l IH]; [congruence|]. intros _.
  destruct l as [|y l]; [reflexivity|].
  change (last (x :: y :: l) d) with (last (y :: l) d).
  change (last (x :: y :: l) d') with (last (y :: l) d').
  apply IH. discriminate.
Qed.

Lemma strip_last_quote_fix (s : str) (d : char) :
  s <> [] -> is_quote (last s d) = false -> strip_last_quote s = s.
Proof.
  induction s as [|y t IH]; [congruence|]. intros _ Hl.
  destruct t as [|z t].
  - cbn [last] in Hl. cbn [strip_last_quote]. rewrite Hl. reflexivity.
  - change (last (y :: z :: t) d) with (last (z :: t) d) in Hl.
    change (strip_last_quote (y :: z :: t))
      with (y :: strip_last_quote (z :: t)).
    rewrite IH; [reflexivity|discriminate|exact Hl].
Qed.

Lemma clean_path_fix (p : str) :
  clean_path p = true -> strip_quotes (trim p) = p.
Proof.
  destruct p as [|x rest]; [reflexivity|].
  unfold clean_path, clean_end. intros H.
  apply andb_true_iff in H. destruct H as [Hx Hl].
  apply andb_true_iff in Hx, Hl.
  destruct Hx as [Hx1 Hx2], Hl as [Hl1 Hl2].
  apply negb_true_iff in Hx1, Hx2, Hl1, Hl2.
  rewrite (trim_fix _ _ Hx1 Hl1). cbn [strip_quotes]. rewrite Hx2.
  apply (strip_last_quote_fix _ x); [discriminate|exact Hl2].
Qed.

Lemma clean_path_src (p : str) :
  clean_path p = true -> clean_path (lit "src/" ++ p) = true.
Proof.
  intros H. destruct p as [|x rest]; [reflexivity|].
  unfold clean_path in *. apply andb_true_iff in H. destruct H as [_ Hl].
  replace (lit "src/") with [115; 114; 99; 47] by reflexivity.
  cbn [app].
  change (last (115 :: 114 :: 99 :: 47 :: x :: rest) 115)
    with (last (x :: rest) 115).
  rewrite (last_any_default _ 115 x); [|discriminate].
  apply andb_true_iff. split; [reflexivity|exact Hl].
Qed.

(** X5.  Path normalization round trip: a path with neither white space nor
    a quote at either end is returned as it is when it begins with a known
    root, and with [src/] in front otherwise; normalizing the result again
    changes nothing. *)
Theorem normalizeFilePath_clean (p : str) :
  clean_path p = true ->
  normalizeFilePath p = (if rooted p then p else lit "src/" ++ p)
  /\ normalizeFilePath (normalizeFilePath p) = normalizeFilePath p.
Proof.
  intros H.
  assert (E : forall q, clean_path q = true ->
            normalizeFilePath q = if rooted q then q else lit "src/" ++ q).
  { intros q Hq. rewrite normalizeFilePath_eq, (clean_path_fix _ Hq).
    reflexivity. }
  split; [exact (E p H)|].
  assert (Hr : clean_path (normalizeFilePath p) = true).
  { rewrite (E p H). destruct (rooted p); [exact H|].
    apply clean_path_src, H. }
  rewrite (E _ Hr), rooted_normalizeFilePath. reflexivity.
Qed.

Lemma normalizeFilePath_clean_witness :
  clean_path (lit "components/Foo.tsx") = true
  /\ normalizeFilePath (lit "components/Foo.tsx") = lit "src/components/Foo.tsx"
  /\ normalizeFilePath (normalizeFilePath (lit "components/Foo.tsx"))
     = normalizeFilePath (lit "components/Foo.tsx").
Proof.
  split; [reflexivity|].
  exact (normalizeFilePath_clean (lit "components/Foo.tsx") eq_refl).
Defined.

(** ** Language normalization *)

Lemma langMap_value_fixed (k v : str) :
  assoc k langMap = Some v -> normalizeLanguage v = JStr v /\ v <> [].
Proof.
  unfold langMap. cbn [assoc].
  repeat (destruct (str_eqb _ k);
          [intros E; injection E as <-; split;
           [vm_compute; reflexivity|vm_compute; discriminate]|]).
  discriminate.
Qed.

Lemma normalizeLanguage_cases (lang : str) :
  (exists v, assoc (toLowerCase lang) langMap = Some v
             /\ normalizeLanguage lang = JStr v)
  \/ (assoc (toLowerCase lang) langMap = None
      /\ ((str_eqb (toLowerCase lang) (lit "constructor") = true
           /\ normalizeLanguage lang = JObjectConstructor)
          \/ (str_eqb (toLowerCase lang) (lit "constructor") = false
              /\ str_eqb (toLowerCase lang) (lit "__proto__") = true
              /\ normalizeLanguage lang = JObjectPrototype)
          \/ (str_eqb (toLowerCase lang) (lit "constructor") = false
              /\ str_eqb (toLowerCase lang) (lit "__proto__") = false
              /\ normalizeLanguage lang = JStr lang))).
Proof.
  unfold normalizeLanguage, langMap_get.
  destruct (assoc (toLowerCase lang) langMap) as [v|]; [left; eauto|].
  right. split; [reflexivity|].
  destruct (str_eqb (toLowerCase lang) (lit "constructor")); [left; auto|].
  destruct (str_eqb (toLowerCase lang) (lit "__proto__")); right; [left|right];
    auto.
Qed.

(** X6.  [normalizeLanguage] is idempotent on its string results: a language
    that it returns is returned unchanged when normalized again. *)
Theorem normalizeLanguage_idempotent (lang v : str) :
  normalizeLanguage lang = JStr v -> normalizeLanguage v = JStr v.
Proof.
  intros H.
  destruct (normalizeLanguage_cases lang)
    as [(w & Hw & E)|(Hn & [(_ & E)|[(_ & _ & E)|(_ & _ & E)]])];
    rewrite E in H; try discriminate; injection H as <-.
  - exact (proj1 (langMap_value_fixed _ _ Hw)).
  - exact E.
Qed.

Lemma normalizeLanguage_idempotent_witness :
  normalizeLanguage (lit "TSX") = JStr (lit "typescript")
  /\ normalizeLanguage (lit "typescript") = JStr (lit "typescript").
Proof.
  split; [reflexivity|].
  exact (normalizeLanguage_idempotent (lit "TSX") (lit "typescript") eq_refl).
Defined.

Lemma str_eqb_eq (a b : str) : str_eqb a b = true <-> a = b.
Proof.
  revert b. induction a as [|x a IH]; intros [|y b]; cbn [str_eqb];
    try (split; [discriminate|discriminate]); [split; reflexivity|].
  rewrite andb_true_iff, N.eqb_eq, IH. split.
  - intros [-> ->]. reflexivity.
  - intros E. injection E as -> ->. split; reflexivity.
Qed.

Lemma normalizeLanguage_nonempty (lang : str) :
  lang <> [] -> normalizeLanguage lang <> JStr [].
Proof.
  intros Hne H.
  destruct (normalizeLanguage_cases lang)
    as [(w & Hw & E)|(Hn & [(_ & E)|[(_ & _ & E)|(_ & _ & E)]])];
    rewrite E in H; try discriminate; injection H as H.
  - exact (proj2 (langMap_value_fixed _ _ Hw) H).
  - exact (Hne H).
Qed.

(** X7.  The language that [normalizeLanguage] returns is a string, and not
    an empty one when the tag is not empty, except for a tag that in lower
    case is [constructor] or [__proto__]: the lookup in the object literal
    then finds the property that every object inherits, and that object is
    what is returned. *)
Theorem normalizeLanguage_string (lang : str) :
  lang <> [] ->
  (normalizeLanguage lang = JObjectConstructor
   <-> toLowerCase lang = lit "constructor")
  /\ (normalizeLanguage lang = JObjectPrototype
      <-> toLowerCase lang = lit "__proto__")
  /\ (toLowerCase lang <> lit "constructor" ->
      toLowerCase lang <> lit "__proto__" ->
      exists v, normalizeLanguage lang = JStr v /\ v <> []).
Proof.
  intros Hne.
  assert (Hkeys : forall k, k = lit "constructor" \/ k = lit "__proto__" ->
                   assoc k langMap = None).
  { intros k [-> | ->]; reflexivity. }
  destruct (normalizeLanguage_cases lang)
    as [(w & Hw & E)|(Hn & [(K & E)|[(K1 & K2 & E)|(K1 & K2 & E)]])].
  - assert (N1 : toLowerCase lang <> lit "constructor")
      by (intros K; rewrite (Hkeys _ (or_introl K)) in Hw; discriminate).
    assert (N2 : toLowerCase lang <> lit "__proto__")
      by (intros K; rewrite (Hkeys _ (or_intror K)) in Hw; discriminate).
    rewrite E. repeat split; try discriminate; try contradiction.
    intros _ _. exists w. split; [reflexivity|].
    exact (proj2 (langMap_value_fixed _ _ Hw)).
  - apply str_eqb_eq in K. rewrite E, K. repeat split; try discriminate;
      try reflexivity. intros N1. contradiction.
  - apply str_eqb_eq in K2. rewrite E, K2. repeat split; try discriminate;
      try reflexivity. intros _ N2. contradiction.
  - assert (N1 : toLowerCase lang <> lit "constructor")
      by (intros K; apply str_eqb_eq in K; congruence).
    assert (N2 : toLowerCase lang <> lit "__proto__")
      by (intros K; apply str_eqb_eq in K; congruence).
    rewrite E. repeat split; try discriminate; try contradiction.
    intros _ _. exists lang. split; [reflexivity|exact Hne].
Qed.

Lemma normalizeLanguage_string_witness :
  lit "Constructor" <> []
  /\ (normalizeLanguage (lit "Constructor") = JObjectConstructor
      <-> toLowerCase (lit "Constructor") = lit "constructor").
Proof.
  assert (H : lit "Constructor" <> []) by (vm_compute; discriminate).
  split; [exact H|].
  exact (proj1 (normalizeLanguage_string (lit "Constructor") H)).
Defined.

(** ** Well-formed documents *)

Lemma block_tag_nonempty (open : str) : block_tag open <> [].
Proof.
  unfold block_tag, or_str.
  destruct (takeWhile is_word (skipn 3 open)); cbn [nonempty];
    [vm_compute|]; discriminate.
Qed.

(** Inside a fence with a draft and a block buffer that is not empty, every
    line but the closing marker goes to the block buffer and is announced by
    a [content-chunk] event. *)
Lemma processLines_draft_content (body : list str) :
  forall (h : Handler) (cur : FileGeneration),
    inCodeBlock h = true -> currentFile h = Some cur ->
    nonempty (codeBlockBuffer h) = true ->
    Forall (fun l => l <> backticks) body ->
    processLines body h
    = mkHandler (buffer h) (Some cur) (files h) (explanation h) true
        (codeBlockLanguage h) (codeBlockBuffer h ++ unlines body)
        (emitted h ++ map (fun l => ContentChunk (path cur) (l ++ [LF])) body).
Proof.
  induction body as [|l ls IH]; intros h cur Hin Hcur Hbuf Hall.
  - cbn [processLines fold_left unlines map]. rewrite !app_nil_r.
    destruct h; cbn in Hin, Hcur; subst; reflexivity.
  - inversion Hall as [|? ? Hl Hls]; subst.
    cbn [processLines fold_left].
    change (fold_left (fun h0 line => processLine line h0) ls)
      with (processLines ls).
    rewrite (processLine_inside _ _ Hin (not_close _ Hl)).
    rewrite Hbuf. cbv zeta. cbn [currentFile set_codeBlockBuffer].
    rewrite Hcur.
    rewrite (IH _ cur); auto.
    + cbn [buffer currentFile files explanation inCodeBlock codeBlockLanguage
           codeBlockBuffer emitted emit set_codeBlockBuffer unlines map].
      rewrite <- !app_assoc. reflexivity.
    + cbn [codeBlockBuffer emit set_codeBlockBuffer].
      apply nonempty_app_l. exact Hbuf.
Qed.

(** Normal form of an explicit state. *)
Ltac hsimpl :=
  unfold set_buffer, set_currentFile, set_files, set_explanation,
    set_inCodeBlock, set_codeBlockLanguage, set_codeBlockBuffer, emit;
  cbn [buffer currentFile files explanation inCodeBlock codeBlockLanguage
       codeBlockBuffer emitted path content language purpose patterns].

(** The state inside a block, after its opening line, its path line and its
    body. *)
Lemma processLines_block_open (h : Handler) (open pathline : str)
    (body : list str) :
  inCodeBlock h = false -> currentFile h = None ->
  valid_item (Block open pathline body) ->
  processLines (open :: pathline :: body) h
  = mkHandler (buffer h) (Some (block_draft open pathline)) (files h)
      (explanation h) true (block_tag open) (unlines body)
      (emitted h
       ++ FileStart (path (block_draft open pathline))
            (language (block_draft open pathline))
       :: map (fun l => ContentChunk (path (block_draft open pathline))
                          (l ++ [LF])) body).
Proof.
  intros Hin Hcur (Hopen & Hpath & Hfirst & Hbody).
  assert (Hpl : pathline <> backticks).
  { intros ->. apply Hpath. vm_compute. reflexivity. }
  cbn [processLines fold_left].
  change (fold_left (fun h0 line => processLine line h0) body)
    with (processLines body).
  rewrite (processLine_fence_open _ _ Hin Hopen).
  rewrite processLine_inside; [|reflexivity|apply not_close; exact Hpl].
  cbn [codeBlockBuffer codeBlockLanguage nonempty].
  unfold block_draft.
  destruct (detectPath pathline) as [p|] eqn:Hd; [|congruence].
  unfold startNewFile. cbn [currentFile]. rewrite Hcur. hsimpl.
  fold (block_tag open).
  destruct body as [|b1 rest].
  - cbn [processLines fold_left unlines map]. reflexivity.
  - inversion Hbody as [|? ? Hb1 Hrest]; subst. cbn [hd] in Hfirst.
    cbn [processLines fold_left].
    change (fold_left (fun h0 line => processLine line h0) rest)
      with (processLines rest).
    rewrite processLine_inside; [|reflexivity|apply not_close; exact Hb1].
    cbn [codeBlockBuffer nonempty]. rewrite Hfirst. cbv zeta. hsimpl.
    cbn [app].
    erewrite processLines_draft_content;
      [|reflexivity|reflexivity|apply nonempty_line|exact Hrest].
    hsimpl. cbn [unlines map]. rewrite <- !app_assoc. reflexivity.
Qed.

Lemma language_or_text (open pathline : str) :
  match language (block_draft open pathline) with
  | JStr [] => JStr (lit "text")
  | l => l
  end = language (block_draft open pathline).
Proof.
  unfold block_draft. cbn [language].
  pose proof (normalizeLanguage_nonempty _ (block_tag_nonempty open)) as H.
  destruct (normalizeLanguage (block_tag open)) as [[|x v]| |];
    [congruence|reflexivity|reflexivity|reflexivity].
Qed.

Lemma path_block_draft (open pathline : str) :
  nonempty (path (block_draft open pathline)) = true.
Proof.
  unfold block_draft. cbn [path].
  apply rooted_nonempty, rooted_normalizeFilePath.
Qed.

(** What one item does to a handler that is outside a fence. *)
Lemma processLines_item (i : item) (h : Handler) :
  inCodeBlock h = false -> currentFile h = None -> valid_item i ->
  files (processLines (item_lines i) h) = files h ++ item_files i
  /\ explanation (processLines (item_lines i) h)
     = explanation h ++ unlines (item_prose i)
  /\ emitted (processLines (item_lines i) h) = emitted h ++ item_events i
  /\ inCodeBlock (processLines (item_lines i) h) = false
  /\ currentFile (processLines (item_lines i) h) = None
  /\ buffer (processLines (item_lines i) h) = buffer h.
Proof.
  intros Hin Hcur Hv. destruct i as [l|open pathline body].
  - cbn [item_lines item_files item_prose item_events valid_item] in *.
    rewrite (processLines_prose [l] h Hin (Forall_cons _ Hv (Forall_nil _))).
    cbn [filter]. destruct (nonblank l); hsimpl;
      cbn [unlines map]; rewrite ?app_nil_r; repeat split; auto.
  - cbn [item_lines item_files item_prose item_events].
    change (open :: pathline :: body ++ [backticks])
      with ((open :: pathline :: body) ++ [backticks]).
    rewrite processLines_app, (processLines_block_open _ _ _ _ Hin Hcur Hv).
    cbn [processLines fold_left].
    rewrite processLine_close; [|reflexivity|reflexivity].
    unfold finalizeCodeBlock. hsimpl. unfold finalizeCurrentFile. hsimpl.
    rewrite path_block_draft. cbn [negb orb]. unfold block_files.
    destruct (nonempty (trim (unlines body))); cbn [negb]; hsimpl;
      cbn [unlines map]; rewrite ?language_or_text, ?app_nil_r;
      repeat split; auto.
    all: unfold block_draft; cbn [purpose patterns path language];
      rewrite <- ?app_assoc; cbn [app]; reflexivity.
Qed.

Lemma processLines_items (items : list item) :
  forall h : Handler,
    inCodeBlock h = false -> currentFile h = None ->
    Forall valid_item items ->
    files (processLines (flat_map item_lines items) h)
    = files h ++ flat_map item_files items
    /\ explanation (processLines (flat_map item_lines items) h)
       = explanation h ++ unlines (flat_map item_prose items)
    /\ emitted (processLines (flat_map item_lines items) h)
       = emitted h ++ flat_map item_events items
    /\ inCodeBlock (processLines (flat_map item_lines items) h) = false
    /\ currentFile (processLines (flat_map item_lines items) h) = None
    /\ buffer (processLines (flat_map item_lines items) h) = buffer h.
Proof.
  induction items as [|i items IH]; intros h Hin Hcur Hall.
  - cbn [flat_map processLines fold_left unlines]. rewrite !app_nil_r.
    repeat split; auto.
  - inversion Hall as [|? ? Hi Hitems]; subst.
    cbn [flat_map]. rewrite processLines_app.
    destruct (processLines_item i h Hin Hcur Hi)
      as (F & E & T & Hin' & Hcur' & B).
    destruct (IH _ Hin' Hcur' Hitems) as (F' & E' & T' & Hin'' & Hcur'' & B').
    rewrite F', E', T', B', F, E, T, B. cbn [flat_map].
    rewrite unlines_app, <- !app_assoc. repeat split; auto.
Qed.

Lemma finalize_idle (h : Handler) :
  buffer h = [] -> inCodeBlock h = false -> currentFile h = None ->
  finalize h = emit (Done (files h) (trim (explanation h))) h.
Proof.
  intros Hb Hin Hcur. unfold finalize. rewrite Hb.
  change (nonempty (trim [])) with false. cbv iota.
  rewrite Hin. cbn [andb]. rewrite Hcur. reflexivity.
Qed.

(** X8.  A well-formed document is parsed as it reads.  For a text made of
    prose lines and closed fenced blocks, each block having a path line
    followed by a line in which no path is detected: the artifacts are, in
    the order of the blocks, one per block whose body is not blank, with the
    normalized path of the path line, the normalized language of the opening
    line and the trimmed body as content; the explanation is the prose lines
    that are not blank; and the events are [file-start], one
    [content-chunk] per body line and [file-complete] for each block,
    [explanation] for each prose line, in document order, then [done]. *)
Theorem well_formed_document (items : list item) :
  Forall valid_item items ->
  Forall newline_free (flat_map item_lines items) ->
  parseCompleteResponse (unlines (flat_map item_lines items))
  = (flat_map item_files items, trim (unlines (flat_map item_prose items)))
  /\ emitted (finalize (processChunk (unlines (flat_map item_lines items)) init))
     = flat_map item_events items
       ++ [Done (flat_map item_files items)
             (trim (unlines (flat_map item_prose items)))].
Proof.
  intros Hv Hn. unfold parseCompleteResponse.
  rewrite <- (app_nil_r (unlines _)).
  rewrite processChunk_lines; [|reflexivity|exact Hn|intros []].
  destruct (processLines_items items init eq_refl eq_refl Hv)
    as (F & E & T & Hin & Hcur & B).
  rewrite finalize_idle; [|reflexivity|exact Hin|exact Hcur].
  unfold getFiles, getExplanation. hsimpl. rewrite F, E, T. auto.
Qed.

Lemma two_block_items_valid :
  Forall valid_item two_block_items
  /\ Forall newline_free (flat_map item_lines two_block_items).
Proof.
  split.
  - repeat constructor;
      try (vm_compute; reflexivity);
      try (vm_compute; discriminate);
      intros E; vm_compute in E; discriminate E.
  - repeat constructor; apply newline_free_dec; reflexivity.
Qed.

Lemma well_formed_document_witness :
  Forall valid_item two_block_items
  /\ parseCompleteResponse (unlines (flat_map item_lines two_block_items))
     = ([ mkFile (lit "src/a.ts") (lit "let x = 1") (JStr (lit "typescript"))
            None None;
          mkFile (lit "src/styles/b.css") (lit "a {}") (JStr (lit "css"))
            None None ],
        join_nl [lit "Intro"; lit "Bye"]).
Proof.
  split; [exact (proj1 two_block_items_valid)|].
  exact (proj1 (well_formed_document two_block_items
                  (proj1 two_block_items_valid)
                  (proj2 two_block_items_valid))).
Defined.

Lemma explanation_finalizeCurrentFile (h : Handler) :
  explanation (finalizeCurrentFile h) = explanation h.
Proof.
  unfold finalizeCurrentFile. destruct (currentFile h) as [cur|]; [|reflexivity].
  destruct (negb (nonempty (path cur)) || negb (nonempty (content cur)));
    reflexivity.
Qed.

Lemma explanation_finalizeCodeBlock (h : Handler) :
  explanation (finalizeCodeBlock h) = explanation h.
Proof.
  unfold finalizeCodeBlock. destruct (currentFile h) as [cur|]; [|reflexivity].
  cbn [explanation set_codeBlockBuffer].
  rewrite explanation_finalizeCurrentFile. reflexivity.
Qed.

Lemma files_finalizeCodeBlock_any (h : Handler) :
  files (finalizeCodeBlock h)
  = files h
    ++ match currentFile h with
       | Some cur =>
           if nonempty (path cur) && nonempty (trim (codeBlockBuffer h))
           then [mkFile (path cur) (trim (codeBlockBuffer h))
                   (match language cur with
                    | JStr [] => JStr (lit "text")
                    | l => l
                    end) (purpose cur) (patterns cur)]
           else []
       | None => []
       end.
Proof.
  destruct (currentFile h) as [cur|] eqn:Ecur.
  - apply (files_finalizeCodeBlock _ _ Ecur).
  - unfold finalizeCodeBlock. rewrite Ecur.
    cbn [files set_codeBlockBuffer]. rewrite app_nil_r. reflexivity.
Qed.

Lemma explanation_finalize (h : Handler) :
  explanation (finalize h)
  = explanation
      (if nonempty (trim (buffer h)) then processLine (buffer h) h else h).
Proof.
  unfold finalize.
  set (h1 := if nonempty (trim (buffer h)) then processLine (buffer h) h else h).
  clearbody h1. cbn [explanation emit].
  assert (H2 : explanation
                 (if inCodeBlock h1 && nonempty (codeBlockBuffer h1)
                  then finalizeCodeBlock h1 else h1) = explanation h1).
  { destruct (inCodeBlock h1 && nonempty (codeBlockBuffer h1));
      [apply explanation_finalizeCodeBlock|reflexivity]. }
  destruct (currentFile
              (if inCodeBlock h1 && nonempty (codeBlockBuffer h1)
               then finalizeCodeBlock h1 else h1));
    [rewrite explanation_finalizeCurrentFile|]; exact H2.
Qed.

(** [finalize] at a line boundary. *)
Lemma finalize_at_line_boundary (h : Handler) :
  Inv h -> buffer h = [] ->
  files (finalize h)
  = files h
    ++ match currentFile h with
       | Some cur =>
           if nonempty (path cur) && nonempty (trim (codeBlockBuffer h))
           then [mkFile (path cur) (trim (codeBlockBuffer h))
                   (match language cur with
                    | JStr [] => JStr (lit "text")
                    | l => l
                    end) (purpose cur) (patterns cur)]
           else []
       | None => []
       end
  /\ explanation (finalize h) = explanation h.
Proof.
  intros HI Hb. rewrite (files_finalize h HI), explanation_finalize, Hb.
  change (nonempty (trim [])) with false. cbv iota. split; reflexivity.
Qed.

(** The closing line, arriving whole at a line boundary inside a fence. *)
Lemma processChunk_closing_line (h : Handler) :
  buffer h = [] -> inCodeBlock h = true ->
  processChunk (backticks ++ [LF]) h
  = set_buffer [] (finalizeCodeBlock (set_inCodeBlock false h)).
Proof.
  intros Hb Hin.
  assert (E : backticks ++ [LF] = unlines [backticks] ++ [])
    by (cbn [unlines]; rewrite app_nil_r; reflexivity).
  rewrite E, (processChunk_lines [backticks] [] h Hb).
  - cbn [processLines fold_left].
    rewrite (processLine_close backticks h Hin eq_refl). reflexivity.
  - constructor; [exact backticks_newline_free|constructor].
  - intros [].
Qed.

(** X9.  A missing last closing marker makes no difference.  In every state
    the handler can be in, at a line boundary inside a fence, whether the
    block has a path line or not, and whatever came before: [finalize]
    gives the files and the explanation that it gives when the closing line
    is fed first; the files are those of the state and, if a draft is open
    and the trimmed block buffer is not empty, the artifact of the draft.
    So a text that ends inside a fence, its last line being complete, is
    parsed as the same text with the closing marker added. *)
Theorem unclosed_fence_recovery (h : Handler) :
  reachable h -> buffer h = [] -> inCodeBlock h = true ->
  getFiles (finalize h)
  = getFiles (finalize (processChunk (backticks ++ [LF]) h))
  /\ getExplanation (finalize h)
     = getExplanation (finalize (processChunk (backticks ++ [LF]) h))
  /\ getFiles (finalize h)
     = files h
       ++ match currentFile h with
          | Some cur =>
              if nonempty (path cur) && nonempty (trim (codeBlockBuffer h))
              then [mkFile (path cur) (trim (codeBlockBuffer h))
                      (match language cur with
                       | JStr [] => JStr (lit "text")
                       | l => l
                       end) (purpose cur) (patterns cur)]
              else []
          | None => []
          end
  /\ explanation (finalize h) = explanation h
  /\ (forall text : str,
        h = processChunk text init ->
        parseCompleteResponse text
        = parseCompleteResponse (text ++ backticks ++ [LF])).
Proof.
  intros Hr Hb Hin. pose proof (reachable_Inv h Hr) as HI.
  destruct (finalize_at_line_boundary h HI Hb) as (Hf & He).
  assert (HI' : Inv (processChunk (backticks ++ [LF]) h))
    by apply Inv_processChunk, HI.
  assert (Hb' : buffer (processChunk (backticks ++ [LF]) h) = [])
    by (rewrite (processChunk_closing_line h Hb Hin); reflexivity).
  destruct (finalize_at_line_boundary _ HI' Hb') as (Hf' & He').
  rewrite (processChunk_closing_line h Hb Hin) in Hf', He'.
  cbn [files currentFile explanation set_buffer] in Hf', He'.
  rewrite currentFile_finalizeCodeBlock, app_nil_r in Hf'.
  rewrite files_finalizeCodeBlock_any in Hf'.
  cbn [files currentFile codeBlockBuffer set_inCodeBlock] in Hf'.
  rewrite explanation_finalizeCodeBlock in He'.
  cbn [explanation set_inCodeBlock] in He'.
  assert (Hfiles : getFiles (finalize h)
                   = getFiles (finalize (processChunk (backticks ++ [LF]) h)))
    by (unfold getFiles;
        rewrite (processChunk_closing_line h Hb Hin), Hf, Hf'; reflexivity).
  assert (Hexpl : getExplanation (finalize h)
                  = getExplanation
                      (finalize (processChunk (backticks ++ [LF]) h)))
    by (unfold getExplanation;
        rewrite (processChunk_closing_line h Hb Hin), He, He'; reflexivity).
  split; [exact Hfiles|]. split; [exact Hexpl|].
  split; [exact Hf|]. split; [exact He|].
  intros text ->. unfold parseCompleteResponse. cbv zeta.
  rewrite <- (processChunk_app text (backticks ++ [LF]) init).
  rewrite Hfiles, Hexpl. reflexivity.
Qed.

Lemma unclosed_fence_recovery_witness :
  reachable
    (processChunk
       (unlines [lit "Config:"; lit "```json"; lit "// package.json"; lit "{}"])
       init)
  /\ parseCompleteResponse
       (unlines [lit "Config:"; lit "```json"; lit "// package.json"; lit "{}"])
     = parseCompleteResponse
         (unlines [lit "Config:"; lit "```json"; lit "// package.json";
                   lit "{}"] ++ backticks ++ [LF])
  /\ parseCompleteResponse
       (unlines [lit "Config:"; lit "```json"; lit "// package.json"; lit "{}"])
     = ([mkFile (lit "src/package.json") (lit "{}") (JStr (lit "json"))
           None None],
        lit "Config:").
Proof.
  assert (Hr : reachable
                 (processChunk
                    (unlines [lit "Config:"; lit "```json";
                              lit "// package.json"; lit "{}"]) init))
    by apply reach_processChunk, reach_init.
  split; [exact Hr|]. split.
  - exact (proj2 (proj2 (proj2 (proj2
             (unclosed_fence_recovery _ Hr eq_refl eq_refl)))) _ eq_refl).
  - vm_compute. reflexivity.
Defined.

(** ** The events *)

Lemma emitted_finalizeCurrentFile (h : Handler) :
  emitted (finalizeCurrentFile h)
  = emitted h
    ++ map FileComplete
         (match currentFile h with
          | Some cur =>
              if nonempty (path cur) && nonempty (content cur)
              then [mkFile (path cur) (content cur)
                      (match language cur with
                       | JStr [] => JStr (lit "text")
                       | l => l
                       end) (purpose cur) (patterns cur)]
              else []
          | None => []
          end)
  /\ files (finalizeCurrentFile h)
     = files h
       ++ match currentFile h with
          | Some cur =>
              if nonempty (path cur) && nonempty (content cur)
              then [mkFile (path cur) (content cur)
                      (match language cur with
                       | JStr [] => JStr (lit "text")
                       | l => l
                       end) (purpose cur) (patterns cur)]
              else []
          | None => []
          end.
Proof.
  unfold finalizeCurrentFile.
  destruct (currentFile h) as [cur|];
    [|cbn [emitted files set_currentFile map]; rewrite !app_nil_r; auto].
  destruct (nonempty (path cur)); destruct (nonempty (content cur));
    cbn [negb orb andb emitted files set_currentFile set_files emit map];
    rewrite ?app_nil_r; auto.
Qed.

Lemma accounted_refl (h : Handler) : accounted h h.
Proof. exists []. cbn. rewrite !app_nil_r. auto. Qed.

Lemma completed_app (a b : list StreamingChunk) :
  completed (a ++ b) = completed a ++ completed b.
Proof. apply flat_map_app. Qed.

Lemma explained_app (a b : list StreamingChunk) :
  explained (a ++ b) = explained a ++ explained b.
Proof. apply flat_map_app. Qed.

Lemma accounted_trans (h1 h2 h3 : Handler) :
  accounted h1 h2 -> accounted h2 h3 -> accounted h1 h3.
Proof.
  intros (e1 & A1 & B1 & C1) (e2 & A2 & B2 & C2). exists (e1 ++ e2).
  rewrite A2, B2, C2, A1, B1, C1, completed_app, explained_app, unlines_app,
    <- !app_assoc.
  auto.
Qed.

Lemma completed_map_FileComplete (fs : list FileGeneration) :
  completed (map FileComplete fs) = fs
  /\ explained (map FileComplete fs) = [].
Proof.
  induction fs as [|f fs [IH1 IH2]]; [auto|].
  cbn [map completed explained flat_map app] in *.
  unfold completed, explained in *. rewrite IH1, IH2. auto.
Qed.

Lemma accounted_finalizeCurrentFile (h : Handler) :
  accounted h (finalizeCurrentFile h).
Proof.
  destruct (emitted_finalizeCurrentFile h) as [E F].
  eexists. split; [exact E|].
  rewrite (proj1 (completed_map_FileComplete _)),
    (proj2 (completed_map_FileComplete _)), explanation_finalizeCurrentFile.
  cbn [unlines]. rewrite app_nil_r. auto.
Qed.

Lemma accounted_fields (h h' : Handler) :
  emitted h' = emitted h -> files h' = files h ->
  explanation h' = explanation h -> accounted h h'.
Proof.
  intros E F X. exists []. cbn [completed explained flat_map unlines].
  rewrite !app_nil_r. auto.
Qed.

Lemma accounted_finalizeCodeBlock (h : Handler) :
  accounted h (finalizeCodeBlock h).
Proof.
  unfold finalizeCodeBlock. destruct (currentFile h) as [cur|].
  - eapply accounted_trans; [|eapply accounted_trans].
    + apply (accounted_fields h
               (set_currentFile
                  (Some (mkFile (path cur) (trim (codeBlockBuffer h))
                           (language cur) (purpose cur) (patterns cur))) h));
        reflexivity.
    + apply accounted_finalizeCurrentFile.
    + apply accounted_fields; reflexivity.
  - apply accounted_fields; reflexivity.
Qed.

Lemma accounted_startNewFile (p lang : str) (h : Handler) :
  accounted h (startNewFile p lang h).
Proof.
  unfold startNewFile.
  set (h1 := match currentFile h with
             | Some cur => if nonempty (path cur) then finalizeCurrentFile h else h
             | None => h
             end).
  assert (H1 : accounted h h1).
  { subst h1. destruct (currentFile h) as [cur|]; [|apply accounted_refl].
    destruct (nonempty (path cur));
      [apply accounted_finalizeCurrentFile|apply accounted_refl]. }
  eapply accounted_trans; [exact H1|].
  eexists [_]. split; [reflexivity|].
        cbn [emitted files explanation emit set_currentFile completed
                    explained flat_map unlines app].
        rewrite ?app_nil_r. split; reflexivity.
Qed.

Lemma accounted_processLine (line : str) (h : Handler) :
  accounted h (processLine line h).
Proof.
  destruct (inCodeBlock h) eqn:Ein.
  - destruct (test_re codeBlockEndRe line) eqn:Et.
    + rewrite (processLine_close _ _ Ein Et).
      eapply accounted_trans; [|apply accounted_finalizeCodeBlock].
      apply accounted_fields; reflexivity.
    + rewrite (processLine_inside _ _ Ein Et).
      destruct (if nonempty (codeBlockBuffer h) then None else detectPath line).
      * apply accounted_startNewFile.
      * cbv zeta. cbn [currentFile set_codeBlockBuffer].
        destruct (currentFile h) as [cur|];
          [|apply accounted_fields; reflexivity].
        eexists [_]. split; [reflexivity|].
        cbn [emitted files explanation emit set_codeBlockBuffer
                          completed explained flat_map unlines app].
        rewrite ?app_nil_r. split; reflexivity.
  - destruct (match_re codeBlockStartRe line) as [c|] eqn:Em.
    + rewrite (processLine_open _ _ _ Ein Em). apply accounted_fields; reflexivity.
    + rewrite (processLine_outside _ _ Ein Em).
      destruct (nonempty (trim line)); [|apply accounted_refl].
      eexists [_]. split; [reflexivity|].
        cbn [emitted files explanation emit set_explanation
                        completed explained flat_map unlines app].
        rewrite ?app_nil_r. split; reflexivity.
Qed.

Lemma accounted_processLines (lines : list str) :
  forall h, accounted h (processLines lines h).
Proof.
  induction lines as [|l ls IH]; intros h; [apply accounted_refl|].
  cbn [processLines fold_left].
  eapply accounted_trans; [apply accounted_processLine|apply IH].
Qed.

Lemma accounted_processChunk (chunk : str) (h : Handler) :
  accounted h (processChunk chunk h).
Proof.
  rewrite processChunk_eq.
  eapply accounted_trans; [apply accounted_processLines|].
  apply accounted_fields; reflexivity.
Qed.

Lemma accounted_finalize (h : Handler) : accounted h (finalize h).
Proof.
  unfold finalize.
  set (h1 := if nonempty (trim (buffer h)) then processLine (buffer h) h else h).
  assert (H1 : accounted h h1).
  { subst h1. destruct (nonempty (trim (buffer h)));
      [apply accounted_processLine|apply accounted_refl]. }
  set (h2 := if inCodeBlock h1 && nonempty (codeBlockBuffer h1)
             then finalizeCodeBlock h1 else h1).
  assert (H2 : accounted h1 h2).
  { subst h2. destruct (inCodeBlock h1 && nonempty (codeBlockBuffer h1));
      [apply accounted_finalizeCodeBlock|apply accounted_refl]. }
  set (h3 := match currentFile h2 with
             | Some _ => finalizeCurrentFile h2
             | None => h2
             end).
  assert (H3 : accounted h2 h3).
  { subst h3. destruct (currentFile h2);
      [apply accounted_finalizeCurrentFile|apply accounted_refl]. }
  eapply accounted_trans; [exact H1|].
  eapply accounted_trans; [exact H2|].
  eapply accounted_trans; [exact H3|].
  eexists [_]. split; [reflexivity|].
        cbn [emitted files explanation emit completed explained
                    flat_map unlines app].
        rewrite ?app_nil_r. split; reflexivity.
Qed.

(** X10.  The accessors agree with the events: in every state the handler
    can be in, the files are the payloads of the [file-complete] events, in
    the order of their emission, and the explanation is the lines of the
    [explanation] events, each followed by a newline. *)
Theorem accessors_agree_with_events (h : Handler) :
  reachable h ->
  getFiles h = completed (emitted h)
  /\ explanation h = unlines (explained (emitted h)).
Proof.
  intros Hr.
  assert (H : accounted init h).
  { induction Hr as [|h chunk _ IH|h _ IH].
    - apply accounted_refl.
    - eapply accounted_trans; [exact IH|apply accounted_processChunk].
    - eapply accounted_trans; [exact IH|apply accounted_finalize]. }
  destruct H as (ev & E & F & X). unfold getFiles.
  rewrite E, F, X. auto.
Qed.

Lemma accessors_agree_with_events_witness :
  reachable (finalize (processChunk example_input init))
  /\ getFiles (finalize (processChunk example_input init))
     = completed (emitted (finalize (processChunk example_input init))).
Proof.
  assert (Hr : reachable (finalize (processChunk example_input init)))
    by apply reach_finalize, reach_processChunk, reach_init.
  split; [exact Hr|].
  exact (proj1 (accessors_agree_with_events _ Hr)).
Defined.

(** ** The order of the events *)

Lemma trace_run_snoc (t : list StreamingChunk) (e : StreamingChunk) :
  trace_run (t ++ [e]) = trace_step (trace_run t) e.
Proof. unfold trace_run. rewrite fold_left_app. reflexivity. Qed.

Lemma str_eqb_refl (a : str) : str_eqb a a = true.
Proof. apply str_eqb_eq. reflexivity. Qed.

Lemma follows_protocol_fields (h h' : Handler) :
  emitted h' = emitted h -> currentFile h' = currentFile h ->
  codeBlockBuffer h' = codeBlockBuffer h ->
  follows_protocol h -> follows_protocol h'.
Proof.
  intros E C B (st & Hst & Hcur). exists st. rewrite E, C, B. auto.
Qed.

Lemma follows_protocol_no_draft (h h' : Handler) :
  emitted h' = emitted h -> currentFile h' = None ->
  follows_protocol h -> follows_protocol h'.
Proof.
  intros E C (st & Hst & _). exists st. rewrite E, C.
  split; [exact Hst|discriminate].
Qed.

(** A draft that has no content yet is dropped without an event. *)
Lemma follows_protocol_drop (h : Handler) :
  (forall cur, currentFile h = Some cur -> content cur = []) ->
  follows_protocol h -> follows_protocol (finalizeCurrentFile h).
Proof.
  intros Hd. apply follows_protocol_no_draft.
  - rewrite (proj1 (emitted_finalizeCurrentFile h)).
    destruct (currentFile h) as [cur|]; [|apply app_nil_r].
    rewrite (Hd cur eq_refl). cbn [nonempty]. rewrite andb_false_r.
    apply app_nil_r.
  - apply currentFile_finalizeCurrentFile.
Qed.

Lemma follows_protocol_finalizeCodeBlock (h : Handler) :
  follows_protocol h -> follows_protocol (finalizeCodeBlock h).
Proof.
  intros (st & Hst & Hcur). unfold finalizeCodeBlock.
  destruct (currentFile h) as [cur|] eqn:Ecur.
  - specialize (Hcur cur eq_refl). subst st.
    set (h1 := set_currentFile
                 (Some (mkFile (path cur) (trim (codeBlockBuffer h))
                          (language cur) (purpose cur) (patterns cur))) h).
    pose proof (proj1 (emitted_finalizeCurrentFile h1)) as E.
    cbn [currentFile h1 set_currentFile path content emitted] in E.
    assert (Hnone : forall c, currentFile
                      (set_codeBlockBuffer [] (finalizeCurrentFile h1))
                    = Some c -> False).
    { intros c. cbn [currentFile set_codeBlockBuffer].
      rewrite currentFile_finalizeCurrentFile. discriminate. }
    destruct (nonempty (path cur) && nonempty (trim (codeBlockBuffer h))).
    + exists None. split; [|intros c Hc; destruct (Hnone c Hc)].
      cbn [emitted set_codeBlockBuffer]. rewrite E.
      cbn [map]. rewrite trace_run_snoc, Hst.
      cbn [trace_step path content]. rewrite !str_eqb_refl. reflexivity.
    + exists (Some (path cur, codeBlockBuffer h)).
      split; [|intros c Hc; destruct (Hnone c Hc)].
      cbn [emitted set_codeBlockBuffer]. rewrite E.
      cbn [map]. rewrite app_nil_r. exact Hst.
  - exists st. split; [exact Hst|].
    cbn [currentFile set_codeBlockBuffer]. rewrite Ecur. discriminate.
Qed.

Lemma follows_protocol_startNewFile (p lang : str) (h : Handler) :
  (forall cur, currentFile h = Some cur -> content cur = []) ->
  codeBlockBuffer h = [] ->
  follows_protocol h -> follows_protocol (startNewFile p lang h).
Proof.
  intros Hd Hb Hp. unfold startNewFile.
  set (h1 := match currentFile h with
             | Some cur => if nonempty (path cur) then finalizeCurrentFile h else h
             | None => h
             end).
  assert (H1 : follows_protocol h1 /\ codeBlockBuffer h1 = []).
  { subst h1. destruct (currentFile h) as [cur|] eqn:Ecur; [|auto].
    destruct (nonempty (path cur)); [|auto]. split.
    - apply follows_protocol_drop; [|exact Hp].
      intros c Hc. apply Hd. congruence.
    - rewrite codeBlockBuffer_finalizeCurrentFile. exact Hb. }
  destruct H1 as [(st & Hst & _) Hb1].
  exists (Some (normalizeFilePath p, [])). split.
  - cbn [emitted emit set_currentFile path language].
    rewrite trace_run_snoc, Hst. reflexivity.
  - cbn [currentFile codeBlockBuffer emit set_currentFile].
    intros cur E. injection E as <-. cbn [path]. rewrite Hb1. reflexivity.
Qed.

Lemma follows_protocol_processLine (line : str) (h : Handler) :
  Inv h -> follows_protocol h -> follows_protocol (processLine line h).
Proof.
  intros [I1 I2 I3 I4] Hp. destruct (inCodeBlock h) eqn:Ein.
  - destruct (test_re codeBlockEndRe line) eqn:Et.
    + rewrite (processLine_close _ _ Ein Et).
      apply follows_protocol_finalizeCodeBlock.
      apply (follows_protocol_fields h); auto.
    + rewrite (processLine_inside _ _ Ein Et).
      destruct (nonempty (codeBlockBuffer h)) eqn:Eb.
      * destruct Hp as (st & Hst & Hcur). cbv zeta.
        cbn [currentFile set_codeBlockBuffer].
        destruct (currentFile h) as [cur|] eqn:Ecur.
        -- specialize (Hcur cur eq_refl). subst st.
           exists (Some (path cur, codeBlockBuffer h ++ line ++ [LF])). split.
           ++ cbn [emitted emit set_codeBlockBuffer].
              rewrite trace_run_snoc, Hst. cbn [trace_step].
              rewrite str_eqb_refl. reflexivity.
           ++ cbn [currentFile codeBlockBuffer emit set_codeBlockBuffer].
              rewrite Ecur. intros c E. injection E as <-. reflexivity.
        -- exists st. split; [exact Hst|].
           cbn [currentFile set_codeBlockBuffer]. rewrite Ecur. discriminate.
      * assert (Hb : codeBlockBuffer h = [])
          by (destruct (codeBlockBuffer h); [reflexivity|discriminate]).
        destruct (detectPath line) as [p|].
        -- apply follows_protocol_startNewFile; assumption.
        -- destruct Hp as (st & Hst & Hcur). cbv zeta.
           cbn [currentFile set_codeBlockBuffer].
           destruct (currentFile h) as [cur|] eqn:Ecur.
           ++ specialize (Hcur cur eq_refl). subst st.
              exists (Some (path cur, codeBlockBuffer h ++ line ++ [LF])). split.
              ** cbn [emitted emit set_codeBlockBuffer].
                 rewrite trace_run_snoc, Hst. cbn [trace_step].
                 rewrite str_eqb_refl. reflexivity.
              ** cbn [currentFile codeBlockBuffer emit set_codeBlockBuffer].
                 rewrite Ecur. intros c E. injection E as <-. reflexivity.
           ++ exists st. split; [exact Hst|].
              cbn [currentFile set_codeBlockBuffer]. rewrite Ecur. discriminate.
  - specialize (I2 eq_refl).
    destruct (match_re codeBlockStartRe line) as [c|] eqn:Em.
    + rewrite (processLine_open _ _ _ Ein Em).
      apply (follows_protocol_no_draft h); [reflexivity|exact I2|exact Hp].
    + rewrite (processLine_outside _ _ Ein Em).
      destruct (nonempty (trim line)); [|exact Hp].
      destruct Hp as (st & Hst & _). exists None. split.
      * cbn [emitted emit set_explanation]. rewrite trace_run_snoc, Hst.
        reflexivity.
      * cbn [currentFile emit set_explanation]. rewrite I2. discriminate.
Qed.

Lemma follows_protocol_processLines (lines : list str) :
  forall h, Inv h -> follows_protocol h -> follows_protocol (processLines lines h).
Proof.
  induction lines as [|l ls IH]; intros h HI Hp; [exact Hp|].
  cbn [processLines fold_left]. apply IH.
  - apply Inv_processLine, HI.
  - apply follows_protocol_processLine; assumption.
Qed.

Lemma follows_protocol_processChunk (chunk : str) (h : Handler) :
  Inv h -> follows_protocol h -> follows_protocol (processChunk chunk h).
Proof.
  intros HI Hp. rewrite processChunk_eq.
  apply (follows_protocol_fields
           (processLines (removelast (split_nl (buffer h ++ chunk))) h));
    try reflexivity.
  apply follows_protocol_processLines; assumption.
Qed.

Lemma follows_protocol_finalize (h : Handler) :
  Inv h -> follows_protocol h -> follows_protocol (finalize h).
Proof.
  intros HI Hp. unfold finalize.
  set (h1 := if nonempty (trim (buffer h)) then processLine (buffer h) h else h).
  assert (H1 : Inv h1 /\ follows_protocol h1).
  { subst h1. destruct (nonempty (trim (buffer h))); [|auto]. split.
    - apply Inv_processLine, HI.
    - apply follows_protocol_processLine; assumption. }
  destruct H1 as [HI1 Hp1].
  set (h2 := if inCodeBlock h1 && nonempty (codeBlockBuffer h1)
             then finalizeCodeBlock h1 else h1).
  assert (H2 : Inv h2 /\ follows_protocol h2).
  { subst h2. destruct (inCodeBlock h1 && nonempty (codeBlockBuffer h1)); [|auto].
    split.
    - destruct HI1 as [I1 I2 I3 I4]. apply Inv_finalizeCodeBlock; assumption.
    - apply follows_protocol_finalizeCodeBlock, Hp1. }
  destruct H2 as [HI2 Hp2].
  set (h3 := match currentFile h2 with
             | Some _ => finalizeCurrentFile h2
             | None => h2
             end).
  assert (H3 : follows_protocol h3 /\ currentFile h3 = None).
  { subst h3. destruct (currentFile h2) as [cur|] eqn:Ecur; [|auto]. split.
    - apply follows_protocol_drop; [|exact Hp2]. apply (inv_draft h2 HI2).
    - apply currentFile_finalizeCurrentFile. }
  destruct H3 as [(st & Hst & _) Hc3]. exists None. split.
  - cbn [emitted emit]. rewrite trace_run_snoc, Hst. reflexivity.
  - cbn [currentFile emit]. rewrite Hc3. discriminate.
Qed.

Lemma follows_protocol_init : follows_protocol init.
Proof. exists None. split; [reflexivity|discriminate]. Qed.

(** X11.  The events keep their order.  In every state the handler can be
    in, the trace of its events follows the protocol: a [content-chunk]
    carries the path of the last [file-start], with no [explanation],
    [file-complete] or [done] in between; so does a [file-complete], whose
    content is moreover the trimmed concatenation of the chunks sent since
    that [file-start].  While a draft is open, the chunks sent for it make up
    the block buffer. *)
Theorem events_follow_protocol (h : Handler) :
  reachable h ->
  exists st, trace_run (emitted h) = Some st
             /\ forall cur, currentFile h = Some cur ->
                            st = Some (path cur, codeBlockBuffer h).
Proof.
  intros Hr. change (follows_protocol h).
  induction Hr as [|h chunk Hr IH|h Hr IH].
  - apply follows_protocol_init.
  - apply follows_protocol_processChunk; [apply reachable_Inv, Hr|exact IH].
  - apply follows_protocol_finalize; [apply reachable_Inv, Hr|exact IH].
Qed.

Lemma events_follow_protocol_witness :
  reachable (processChunk (unlines indented_block_lines) init)
  /\ exists st,
      trace_run (emitted (processChunk (unlines indented_block_lines) init))
      = Some st
      /\ forall cur,
           currentFile (processChunk (unlines indented_block_lines) init)
           = Some cur ->
           st = Some (path cur,
                      codeBlockBuffer
                        (processChunk (unlines indented_block_lines) init)).
Proof.
  assert (Hr : reachable (processChunk (unlines indented_block_lines) init))
    by apply reach_processChunk, reach_init.
  split; [exact Hr|].
  exact (events_follow_protocol _ Hr).
Defined.

(** ** Reuse of a handler: the trace does not steer the parser *)

Lemma forget_finalizeCurrentFile (h : Handler) :
  forget (finalizeCurrentFile h) = forget (finalizeCurrentFile (forget h)).
Proof.
  unfold finalizeCurrentFile. cbn [currentFile forget].
  destruct (currentFile h) as [cur|]; [|reflexivity].
  destruct (negb (nonempty (path cur)) || negb (nonempty (content cur)));
    reflexivity.
Qed.

Lemma forget_finalizeCodeBlock (h : Handler) :
  forget (finalizeCodeBlock h) = forget (finalizeCodeBlock (forget h)).
Proof.
  unfold finalizeCodeBlock. cbn [currentFile codeBlockBuffer forget].
  destruct (currentFile h) as [cur|]; [|reflexivity].
  change (forget (set_codeBlockBuffer [] ?x))
    with (set_codeBlockBuffer [] (forget x)).
  rewrite forget_finalizeCurrentFile.
  rewrite (forget_finalizeCurrentFile (set_currentFile _ (forget h))).
  reflexivity.
Qed.

Lemma forget_startNewFile (p lang : str) (h : Handler) :
  forget (startNewFile p lang h) = forget (startNewFile p lang (forget h)).
Proof.
  unfold startNewFile. cbn [currentFile forget].
  destruct (currentFile h) as [cur|]; [|reflexivity].
  destruct (nonempty (path cur)); [|reflexivity].
  change (forget (emit ?e (set_currentFile ?v ?x)))
    with (set_currentFile v (forget x)).
  rewrite forget_finalizeCurrentFile.
  rewrite (forget_finalizeCurrentFile (forget h)). reflexivity.
Qed.

Lemma forget_processLine (line : str) (h : Handler) :
  forget (processLine line h) = forget (processLine line (forget h)).
Proof.
  destruct (inCodeBlock h) eqn:Ein.
  - destruct (test_re codeBlockEndRe line) eqn:Et.
    + rewrite (processLine_close _ h Ein Et),
        (processLine_close _ (forget h) Ein Et).
      rewrite forget_finalizeCodeBlock.
      rewrite (forget_finalizeCodeBlock (set_inCodeBlock false (forget h))).
      reflexivity.
    + rewrite (processLine_inside _ h Ein Et),
        (processLine_inside _ (forget h) Ein Et).
      cbn [codeBlockBuffer codeBlockLanguage forget].
      destruct (if nonempty (codeBlockBuffer h) then None else detectPath line);
        [apply forget_startNewFile|].
      cbv zeta. cbn [currentFile set_codeBlockBuffer forget].
      destruct (currentFile h); reflexivity.
  - destruct (match_re codeBlockStartRe line) as [c|] eqn:Em.
    + rewrite (processLine_open _ h _ Ein Em),
        (processLine_open _ (forget h) _ Ein Em).
      reflexivity.
    + rewrite (processLine_outside _ h Ein Em),
        (processLine_outside _ (forget h) Ein Em).
      destruct (nonempty (trim line)); reflexivity.
Qed.

Lemma forget_processLines (lines : list str) :
  forall h, forget (processLines lines h)
            = forget (processLines lines (forget h)).
Proof.
  induction lines as [|l ls IH]; intros h; [reflexivity|].
  cbn [processLines fold_left].
  rewrite IH, forget_processLine, <- IH. reflexivity.
Qed.

Lemma forget_processChunk (chunk : str) (h : Handler) :
  forget (processChunk chunk h) = forget (processChunk chunk (forget h)).
Proof.
  rewrite !processChunk_eq. cbn [buffer forget].
  change (forget (set_buffer ?b ?x)) with (set_buffer b (forget x)).
  rewrite forget_processLines. reflexivity.
Qed.

Lemma forget_forget (h : Handler) : forget (forget h) = forget h.
Proof. reflexivity. Qed.

Lemma forget_finalize (h : Handler) :
  forget (finalize h) = forget (finalize (forget h)).
Proof.
  unfold finalize. cbn [buffer forget].
  set (h1 := if nonempty (trim (buffer h)) then processLine (buffer h) h else h).
  set (g1 := if nonempty (trim (buffer h))
             then processLine (buffer h) (forget h) else forget h).
  assert (H1 : forget h1 = forget g1).
  { subst h1 g1. destruct (nonempty (trim (buffer h))); [|reflexivity].
    apply forget_processLine. }
  set (h2 := if inCodeBlock h1 && nonempty (codeBlockBuffer h1)
             then finalizeCodeBlock h1 else h1).
  set (g2 := if inCodeBlock g1 && nonempty (codeBlockBuffer g1)
             then finalizeCodeBlock g1 else g1).
  assert (H2 : forget h2 = forget g2).
  { subst h2 g2.
    change (inCodeBlock h1) with (inCodeBlock (forget h1)).
    change (codeBlockBuffer h1) with (codeBlockBuffer (forget h1)).
    rewrite H1. cbn [inCodeBlock codeBlockBuffer forget].
    destruct (inCodeBlock g1 && nonempty (codeBlockBuffer g1)); [|exact H1].
    rewrite forget_finalizeCodeBlock, H1, <- forget_finalizeCodeBlock.
    reflexivity. }
  set (h3 := match currentFile h2 with
             | Some _ => finalizeCurrentFile h2
             | None => h2
             end).
  set (g3 := match currentFile g2 with
             | Some _ => finalizeCurrentFile g2
             | None => g2
             end).
  assert (H3 : forget h3 = forget g3).
  { subst h3 g3.
    change (currentFile h2) with (currentFile (forget h2)).
    rewrite H2. cbn [currentFile forget].
    destruct (currentFile g2); [|exact H2].
    rewrite forget_finalizeCurrentFile, H2, <- forget_finalizeCurrentFile.
    reflexivity. }
  change (forget (emit ?e ?x)) with (forget x). exact H3.
Qed.

(** X12.  A handler that was reset parses like a new one: whatever it did
    before, after [reset] the files and the explanation it gives for a
    stream of fragments are those of [parseCompleteResponse] on the whole
    text. *)
Theorem reset_parses_like_new (h : Handler) (fragments : list str) :
  getFiles (finalize (feed fragments (reset h)))
  = fst (parseCompleteResponse (concat fragments))
  /\ getExplanation (finalize (feed fragments (reset h)))
     = snd (parseCompleteResponse (concat fragments))
  /\ buffer (reset h) = [] /\ currentFile (reset h) = None
  /\ inCodeBlock (reset h) = false.
Proof.
  assert (E : forget (finalize (feed fragments (reset h)))
              = forget (finalize (processChunk (concat fragments) init))).
  { rewrite feed_concat by (intros []).
    rewrite forget_finalize, forget_processChunk.
    change (forget (reset h)) with (forget init).
    rewrite <- forget_processChunk, <- forget_finalize. reflexivity. }
  unfold parseCompleteResponse, getFiles, getExplanation. cbn [fst snd].
  change (files (finalize (feed fragments (reset h))))
    with (files (forget (finalize (feed fragments (reset h))))).
  change (explanation (finalize (feed fragments (reset h))))
    with (explanation (forget (finalize (feed fragments (reset h))))).
  rewrite E. repeat split; reflexivity.
Qed.

(** ** Calling [finalize] again *)

(** [finalize] outside a fence, with an unfinished line of prose in the
    carry-over buffer. *)
Lemma finalize_prose_tail (h : Handler) :
  inCodeBlock h = false -> currentFile h = None ->
  nonblank (buffer h) = true -> startsWith backticks (buffer h) = false ->
  finalize h
  = mkHandler (buffer h) None (files h)
      (explanation h ++ buffer h ++ [LF]) false (codeBlockLanguage h)
      (codeBlockBuffer h)
      (emitted h ++ [ExplanationText (buffer h);
                     Done (files h) (trim (explanation h ++ buffer h ++ [LF]))]).
Proof.
  intros Hin Hcur Hnb Hs. unfold nonblank in Hnb. unfold finalize.
  rewrite Hnb.
  rewrite processLine_outside;
    [|exact Hin|rewrite codeBlockStart_match, Hs; reflexivity].
  rewrite Hnb. hsimpl. rewrite Hin, Hcur. cbn [andb]. hsimpl.
  rewrite <- ?app_assoc. reflexivity.
Qed.

(** X13.  [finalize] leaves the carry-over buffer as it is, so a second call
    processes the unfinished last line once more: outside a fence, a last
    line of prose without its newline is added to the explanation by each
    call. *)
Theorem finalize_twice (h : Handler) :
  reachable h -> inCodeBlock h = false ->
  nonblank (buffer h) = true -> startsWith backticks (buffer h) = false ->
  buffer (finalize h) = buffer h
  /\ explanation (finalize h) = explanation h ++ buffer h ++ [LF]
  /\ explanation (finalize (finalize h))
     = explanation h ++ (buffer h ++ [LF]) ++ (buffer h ++ [LF])
  /\ files (finalize (finalize h)) = files h.
Proof.
  intros Hr Hin Hnb Hs.
  pose proof (reachable_draft_in_fence h Hr Hin) as Hcur.
  rewrite (finalize_prose_tail h Hin Hcur Hnb Hs).
  rewrite finalize_prose_tail; try assumption; try reflexivity.
  hsimpl. rewrite <- !app_assoc. repeat split; reflexivity.
Qed.

Lemma finalize_twice_witness :
  reachable (processChunk (lit "All done") init)
  /\ explanation (finalize (finalize (processChunk (lit "All done") init)))
     = unlines [lit "All done"; lit "All done"].
Proof.
  assert (Hr : reachable (processChunk (lit "All done") init))
    by apply reach_processChunk, reach_init.
  split; [exact Hr|].
  exact (proj1 (proj2 (proj2 (finalize_twice _ Hr eq_refl eq_refl eq_refl)))).
Defined.

(** ** Closing a fence *)

Lemma inCodeBlock_startNewFile (p lang : str) (h : Handler) :
  inCodeBlock (startNewFile p lang h) = inCodeBlock h.
Proof.
  unfold startNewFile. cbn [inCodeBlock emit set_currentFile].
  destruct (currentFile h) as [cur|]; [|reflexivity].
  destruct (nonempty (path cur)); [|reflexivity].
  apply inCodeBlock_finalizeCurrentFile.
Qed.

Lemma inCodeBlock_finalizeCodeBlock (h : Handler) :
  inCodeBlock (finalizeCodeBlock h) = inCodeBlock h.
Proof.
  unfold finalizeCodeBlock. destruct (currentFile h) as [cur|]; [|reflexivity].
  cbn [inCodeBlock set_codeBlockBuffer].
  rewrite inCodeBlock_finalizeCurrentFile. reflexivity.
Qed.

(** X14.  Inside a fence, the line made of exactly three backticks is the
    only one that closes it: any other line, one that begins with backticks
    included, leaves the handler inside the fence, and the closing line
    leaves it outside with an empty block buffer and no draft. *)
Theorem fence_close_recognition (h : Handler) (line : str) :
  inCodeBlock h = true ->
  (inCodeBlock (processLine line h) = false <-> line = backticks)
  /\ (line = backticks ->
      codeBlockBuffer (processLine line h) = []
      /\ currentFile (processLine line h) = None).
Proof.
  intros Hin.
  assert (Hclose : line = backticks ->
            processLine line h = finalizeCodeBlock (set_inCodeBlock false h)).
  { intros ->. apply processLine_close; [exact Hin|reflexivity]. }
  split; [split|].
  - intros Hout. destruct (test_re codeBlockEndRe line) eqn:Et;
      [apply codeBlockEnd_iff; exact Et|].
    rewrite (processLine_inside _ _ Hin Et) in Hout.
    destruct (if nonempty (codeBlockBuffer h) then None else detectPath line).
    + rewrite inCodeBlock_startNewFile in Hout. congruence.
    + cbv zeta in Hout. cbn [currentFile set_codeBlockBuffer] in Hout.
      destruct (currentFile h); cbn in Hout; congruence.
  - intros E. rewrite (Hclose E), inCodeBlock_finalizeCodeBlock. reflexivity.
  - intros E. rewrite (Hclose E). split.
    + unfold finalizeCodeBlock. destruct (currentFile _); reflexivity.
    + apply currentFile_finalizeCodeBlock.
Qed.

Lemma fence_close_recognition_witness :
  inCodeBlock (processLine (lit "```ts") init) = true
  /\ (inCodeBlock (processLine (lit "``` ")
                     (processLine (lit "```ts") init)) = false
      <-> lit "``` " = backticks).
Proof.
  split; [reflexivity|].
  exact (proj1 (fence_close_recognition (processLine (lit "```ts") init)
                  (lit "``` ") eq_refl)).
Defined.

(** ** What the artifacts of the streaming path look like *)

Lemma RootedPaths_finalizeCurrentFile (h : Handler) :
  RootedPaths h -> RootedPaths (finalizeCurrentFile h).
Proof.
  intros [Hc Hf]. split.
  - rewrite currentFile_finalizeCurrentFile. discriminate.
  - rewrite (proj2 (emitted_finalizeCurrentFile h)).
    apply Forall_app. split; [exact Hf|].
    destruct (currentFile h) as [cur|]; [|constructor].
    destruct (nonempty (path cur) && nonempty (content cur)); [|constructor].
    constructor; [|constructor]. cbn [path]. apply Hc. reflexivity.
Qed.

Lemma RootedPaths_finalizeCodeBlock (h : Handler) :
  RootedPaths h -> RootedPaths (finalizeCodeBlock h).
Proof.
  intros [Hc Hf]. unfold finalizeCodeBlock.
  destruct (currentFile h) as [cur|] eqn:Ecur.
  - assert (H : RootedPaths
                  (finalizeCurrentFile
                     (set_currentFile
                        (Some (mkFile (path cur) (trim (codeBlockBuffer h))
                                 (language cur) (purpose cur) (patterns cur)))
                        h))).
    { apply RootedPaths_finalizeCurrentFile. split; [|exact Hf].
      cbn [currentFile set_currentFile]. intros c E. injection E as <-.
      cbn [path]. apply Hc. reflexivity. }
    exact H.
  - split; [|exact Hf]. cbn [currentFile set_codeBlockBuffer].
    rewrite Ecur. discriminate.
Qed.

Lemma RootedPaths_startNewFile (p lang : str) (h : Handler) :
  RootedPaths h -> RootedPaths (startNewFile p lang h).
Proof.
  intros Hr. unfold startNewFile.
  set (h1 := match currentFile h with
             | Some cur => if nonempty (path cur) then finalizeCurrentFile h else h
             | None => h
             end).
  assert (H1 : RootedPaths h1).
  { subst h1. destruct (currentFile h) as [cur|]; [|exact Hr].
    destruct (nonempty (path cur)); [|exact Hr].
    apply RootedPaths_finalizeCurrentFile, Hr. }
  destruct H1 as [_ Hf]. split; [|exact Hf].
  cbn [currentFile emit set_currentFile]. intros c E. injection E as <-.
  cbn [path]. apply rooted_normalizeFilePath.
Qed.

Lemma RootedPaths_processLine (line : str) (h : Handler) :
  RootedPaths h -> RootedPaths (processLine line h).
Proof.
  intros Hr. destruct (inCodeBlock h) eqn:Ein.
  - destruct (test_re codeBlockEndRe line) eqn:Et.
    + rewrite (processLine_close _ _ Ein Et).
      apply RootedPaths_finalizeCodeBlock. exact Hr.
    + rewrite (processLine_inside _ _ Ein Et).
      destruct (if nonempty (codeBlockBuffer h) then None else detectPath line).
      * apply RootedPaths_startNewFile, Hr.
      * cbv zeta. cbn [currentFile set_codeBlockBuffer].
        destruct (currentFile h); exact Hr.
  - destruct (match_re codeBlockStartRe line) as [c|] eqn:Em.
    + rewrite (processLine_open _ _ _ Ein Em). exact Hr.
    + rewrite (processLine_outside _ _ Ein Em).
      destruct (nonempty (trim line)); exact Hr.
Qed.

Lemma RootedPaths_processLines (lines : list str) :
  forall h, RootedPaths h -> RootedPaths (processLines lines h).
Proof.
  induction lines as [|l ls IH]; intros h Hr; [exact Hr|].
  cbn [processLines fold_left]. apply IH, RootedPaths_processLine, Hr.
Qed.

Lemma RootedPaths_finalize (h : Handler) :
  RootedPaths h -> RootedPaths (finalize h).
Proof.
  intros Hr. unfold finalize.
  set (h1 := if nonempty (trim (buffer h)) then processLine (buffer h) h else h).
  assert (H1 : RootedPaths h1).
  { subst h1. destruct (nonempty (trim (buffer h)));
      [apply RootedPaths_processLine|]; exact Hr. }
  set (h2 := if inCodeBlock h1 && nonempty (codeBlockBuffer h1)
             then finalizeCodeBlock h1 else h1).
  assert (H2 : RootedPaths h2).
  { subst h2. destruct (inCodeBlock h1 && nonempty (codeBlockBuffer h1));
      [apply RootedPaths_finalizeCodeBlock|]; exact H1. }
  set (h3 := match currentFile h2 with
             | Some _ => finalizeCurrentFile h2
             | None => h2
             end).
  assert (H3 : RootedPaths h3).
  { subst h3. destruct (currentFile h2);
      [apply RootedPaths_finalizeCurrentFile|]; exact H2. }
  exact H3.
Qed.

Lemma reachable_RootedPaths (h : Handler) : reachable h -> RootedPaths h.
Proof.
  induction 1 as [|h chunk _ IH|h _ IH].
  - split; [discriminate|constructor].
  - rewrite processChunk_eq.
    exact (RootedPaths_processLines _ _ IH).
  - apply RootedPaths_finalize, IH.
Qed.

(** X15.  Every artifact that the streaming path gives has a path that
    begins with [src/], [public/], [prisma/], [tests/] or a dot, and a
    content that is not empty and has no white space at either end. *)
Theorem streamed_artifacts_shape (h : Handler) (f : FileGeneration) :
  reachable h -> In f (getFiles h) ->
  rooted (path f) = true /\ content f <> [] /\ trim (content f) = content f.
Proof.
  intros Hr Hin. unfold getFiles in Hin.
  pose proof (proj2 (reachable_RootedPaths h Hr)) as Hp.
  pose proof (inv_files h (reachable_Inv h Hr)) as Hc.
  rewrite Forall_forall in Hp, Hc.
  destruct (Hc f Hin) as [Ht Hne]. auto.
Qed.

Lemma streamed_artifacts_shape_witness :
  reachable (finalize (processChunk example_input init))
  /\ In example_artifact (getFiles (finalize (processChunk example_input init)))
  /\ rooted (path example_artifact) = true.
Proof.
  assert (Hr : reachable (finalize (processChunk example_input init)))
    by apply reach_finalize, reach_processChunk, reach_init.
  assert (Hin : In example_artifact
                  (getFiles (finalize (processChunk example_input init))))
    by (vm_compute; left; reflexivity).
  split; [exact Hr|]. split; [exact Hin|].
  exact (proj1 (streamed_artifacts_shape _ _ Hr Hin)).
Defined.

(** ** The explanation has no blank line *)

Lemma explanation_startNewFile (p lang : str) (h : Handler) :
  explanation (startNewFile p lang h) = explanation h.
Proof.
  unfold startNewFile. cbn [explanation emit set_currentFile].
  destruct (currentFile h) as [cur|]; [|reflexivity].
  destruct (nonempty (path cur)); [|reflexivity].
  apply explanation_finalizeCurrentFile.
Qed.

Lemma prose_lines_processLine (line : str) (h : Handler) :
  newline_free line -> prose_lines (explanation h) ->
  prose_lines (explanation (processLine line h)).
Proof.
  intros Hn Hp. destruct (inCodeBlock h) eqn:Ein.
  - destruct (test_re codeBlockEndRe line) eqn:Et.
    + rewrite (processLine_close _ _ Ein Et), explanation_finalizeCodeBlock.
      exact Hp.
    + rewrite (processLine_inside _ _ Ein Et).
      destruct (if nonempty (codeBlockBuffer h) then None else detectPath line).
      * rewrite explanation_startNewFile. exact Hp.
      * cbv zeta. cbn [currentFile set_codeBlockBuffer].
        destruct (currentFile h); exact Hp.
  - destruct (match_re codeBlockStartRe line) as [c|] eqn:Em.
    + rewrite (processLine_open _ _ _ Ein Em). exact Hp.
    + rewrite (processLine_outside _ _ Ein Em).
      destruct (nonempty (trim line)) eqn:En; [|exact Hp].
      destruct Hp as (ls & E & Hall). exists (ls ++ [line]).
      cbn [explanation emit set_explanation]. rewrite E, unlines_app. split.
      * cbn [unlines]. reflexivity.
      * apply Forall_app. split; [exact Hall|].
        constructor; [|constructor]. split; [exact En|exact Hn].
Qed.

Lemma prose_lines_processLines (lines : list str) :
  forall h, Forall newline_free lines -> prose_lines (explanation h) ->
            prose_lines (explanation (processLines lines h)).
Proof.
  induction lines as [|l ls IH]; intros h Hn Hp; [exact Hp|].
  inversion Hn; subst. cbn [processLines fold_left].
  apply IH; [assumption|]. apply prose_lines_processLine; assumption.
Qed.

Lemma split_nl_all_newline_free (s : str) : Forall newline_free (split_nl s).
Proof.
  induction s as [|c r IH]; [repeat constructor; intros []|].
  cbn [split_nl]. destruct (c =? LF) eqn:Ec.
  - constructor; [intros []|exact IH].
  - destruct (split_nl r) as [|hd tl]; [repeat constructor|].
    + intros [E|[]]. apply N.eqb_neq in Ec. congruence.
    + inversion IH as [|? ? Hh Ht]; subst. constructor; [|exact Ht].
      intros [E|Hin]; [apply N.eqb_neq in Ec; congruence|exact (Hh Hin)].
Qed.

Lemma Forall_removelast {A : Type} (P : A -> Prop) (l : list A) :
  Forall P l -> Forall P (removelast l).
Proof.
  induction 1 as [|x l Hx Hl IH]; [constructor|].
  cbn [removelast]. destruct l; [constructor|]. constructor; assumption.
Qed.

(** X16.  In every state the handler can be in, the explanation is a
    sequence of lines, each followed by a newline, none of which is blank:
    blank lines of the prose never reach the explanation, and text is only
    added to it a whole line at a time. *)
Theorem explanation_has_no_blank_line (h : Handler) :
  reachable h ->
  exists ls, explanation h = unlines ls
             /\ Forall (fun l => nonblank l = true /\ newline_free l) ls.
Proof.
  intros Hr. change (prose_lines (explanation h)).
  induction Hr as [|h chunk Hr IH|h Hr IH].
  - exists []. split; [reflexivity|constructor].
  - rewrite processChunk_eq. cbn [explanation set_buffer].
    apply prose_lines_processLines; [|exact IH].
    apply Forall_removelast, split_nl_all_newline_free.
  - assert (H : forall g, explanation (finalize g)
                          = explanation
                              (if nonempty (trim (buffer g))
                               then processLine (buffer g) g else g)).
    { intros g. unfold finalize. cbn [explanation emit].
      match goal with
      | |- explanation (match currentFile ?x with _ => _ end) = _ =>
          destruct (currentFile x);
          [rewrite explanation_finalizeCurrentFile|]
      end;
      match goal with
      | |- explanation (if ?c then finalizeCodeBlock ?x else ?x) = _ =>
          destruct c; [apply explanation_finalizeCodeBlock|reflexivity]
      end. }
    rewrite H. destruct (nonempty (trim (buffer h))); [|exact IH].
    apply prose_lines_processLine; [|exact IH].
    apply (inv_buffer h), reachable_Inv, Hr.
Qed.

Lemma explanation_has_no_blank_line_witness :
  reachable (processChunk (example_input ++ [LF]) init)
  /\ exists ls,
      explanation (processChunk (example_input ++ [LF]) init) = unlines ls
      /\ Forall (fun l => nonblank l = true /\ newline_free l) ls.
Proof.
  assert (Hr : reachable (processChunk (example_input ++ [LF]) init))
    by apply reach_processChunk, reach_init.
  split; [exact Hr|].
  exact (explanation_has_no_blank_line _ Hr).
Defined.

(** ** What the files of the scan look like *)

Lemma or_str_nonempty (a : option str) (b : str) : b <> [] -> or_str a b <> [].
Proof.
  intros Hb. unfold or_str. destruct a as [s|]; [|exact Hb].
  destruct s; [exact Hb|discriminate].
Qed.

Lemma blockFile_shape (c : caps) (n : nat) :
  (rooted (path (blockFile c n)) = true
   \/ startsWith (lit "unknown-") (path (blockFile c n)) = true)
  /\ trim (content (blockFile c n)) = content (blockFile c n)
  /\ language (blockFile c n) <> JStr [].
Proof.
  assert (Hl : normalizeLanguage (or_str (capture 1 c) (lit "text")) <> JStr []).
  { apply normalizeLanguage_nonempty, or_str_nonempty. discriminate. }
  unfold blockFile. cbv zeta.
  destruct (detectTruthy (extractFilePath (trim (hd [] (split_nl (group2 c))))));
    cbn [path content language].
  - split; [left; apply rooted_normalizeFilePath|].
    split; [apply trim_idempotent|exact Hl].
  - split; [right; apply startsWith_app|].
    split; [apply trim_idempotent|exact Hl].
Qed.

Lemma filesOf_In (blocks : list caps) :
  forall (n : nat) (f : FileGeneration),
    In f (filesOf n blocks) -> exists c k, f = blockFile c k.
Proof.
  induction blocks as [|c cs IH]; intros n f H; cbn [filesOf] in H;
    [contradiction|].
  destruct H as [<-|H]; [eauto|exact (IH _ _ H)].
Qed.

(** X17.  Every file that [extractFilesFromMarkdown] gives has a path that
    begins with [src/], [public/], [prisma/], [tests/] or a dot, or else
    with [unknown-]; its content has no white space at either end (it may
    be empty, unlike that of an artifact of the streaming path); and its
    language is never the empty string. *)
Theorem extracted_files_shape (markdown : str) (f : FileGeneration) :
  In f (extractFilesFromMarkdown markdown) ->
  (rooted (path f) = true \/ startsWith (lit "unknown-") (path f) = true)
  /\ trim (content f) = content f
  /\ language f <> JStr [].
Proof.
  unfold extractFilesFromMarkdown. rewrite extract_loop_scan.
  cbn [app length]. intros H. apply filesOf_In in H.
  destruct H as (c & k & ->). apply blockFile_shape.
Qed.

Lemma extracted_files_shape_witness :
  exists f,
    nth_error (extractFilesFromMarkdown three_blocks_input) 2 = Some f
    /\ content f = []
    /\ startsWith (lit "unknown-") (path f) = true
    /\ language f <> JStr [].
Proof.
  eexists. split; [vm_compute; reflexivity|].
  split; [reflexivity|]. split; [reflexivity|].
  refine (proj2 (proj2 (extracted_files_shape three_blocks_input _ _))).
  vm_compute. right. right. left. reflexivity.
Defined.

Lemma run_codeBlockRegex_prefix (pos : nat) (rest : str) (e : nat) (c : caps) :
  run codeBlockRegex pos rest = Some (e, c) -> startsWith backticks rest = true.
Proof.
  unfold run. intros H. apply m_sound in H.
  destruct H as (st' & c' & Hm & _).
  unfold codeBlockRegex in Hm.
  apply matches_seq_inv in Hm. destruct Hm as (st1 & c1 & Hm & _).
  exact (matches_Lit_prefix _ _ _ _ _ Hm).
Qed.

Lemma exec_from_codeBlockRegex_none (rest : str) :
  forall pos : nat,
    (forall j : nat, startsWith backticks (skipn j rest) = false) ->
    exec_from codeBlockRegex pos rest = None.
Proof.
  induction rest as [|x rest IH]; intros pos H; cbn [exec_from].
  - destruct (run codeBlockRegex pos []) as [[e c]|] eqn:E; [|reflexivity].
    apply run_codeBlockRegex_prefix in E. discriminate.
  - destruct (run codeBlockRegex pos (x :: rest)) as [[e c]|] eqn:E.
    + apply run_codeBlockRegex_prefix in E. pose proof (H O) as H0.
      cbn [skipn] in H0. congruence.
    + apply IH. intros j. exact (H (S j)).
Qed.

(** X18.  A text in which three backticks never stand in a row has no
    block: [extractFilesFromMarkdown] gives no file for it. *)
Theorem no_fence_no_files (markdown : str) :
  (forall j : nat, startsWith backticks (skipn j markdown) = false) ->
  extractFilesFromMarkdown markdown = [].
Proof.
  intros H. unfold extractFilesFromMarkdown. cbn [extract_loop].
  unfold exec. cbn [skipn].
  rewrite (exec_from_codeBlockRegex_none _ _ H). reflexivity.
Qed.

Lemma no_fence_no_files_witness :
  (forall j : nat, startsWith backticks (skipn j (lit "use `npm` here")) = false)
  /\ extractFilesFromMarkdown (lit "use `npm` here") = [].
Proof.
  assert (H : forall j : nat,
             startsWith backticks (skipn j (lit "use `npm` here")) = false).
  { intros j. do 14 (destruct j as [|j]; [reflexivity|]).
    destruct j; reflexivity. }
  split; [exact H|]. exact (no_fence_no_files _ H).
Defined.

(** ** The matcher finds a match whenever there is one *)

Lemma m_star (g : bool) (a : re) (k : cont) (st : mstate) (c : caps) :
  m (Star g a) k st c = star_loop g a k (length (snd st)) st c.
Proof. reflexivity. Qed.

Lemma orelse_l (a b : mresult) : a <> None -> orelse a b <> None.
Proof. destruct a; [discriminate|contradiction]. Qed.

Lemma orelse_r (a b : mresult) : b <> None -> orelse a b <> None.
Proof. destruct a; [discriminate|auto]. Qed.

Lemma m_complete (r : re) (st : mstate) (c : caps) (st' : mstate) (c' : caps) :
  matches r st c st' c' ->
  forall k : cont,
    k st' c' <> None ->
    m r k st c <> None
    /\ match r with
       | Star g a =>
           forall fuel : nat,
             (length (snd st) <= fuel)%nat -> star_loop g a k fuel st c <> None
       | _ => True
       end.
Proof.
  induction 1 as
    [st c|x pos rest c|x y pos rest c Hxy|p y pos rest c Hp
    |a b st c st1 c1 st2 c2 Ha IHa Hb IHb
    |a b st c st' c' Ha IHa|a b st c st' c' Hb IHb
    |g a st c|g a st c st1 c1 st2 c2 Ha IHa Hlt Hs IHs
    |n a st c st' c' Ha IHa|rest c|pos c];
    intros k Hk.
  - split; [exact Hk|exact I].
  - split; [|exact I]. cbn [m snd fst]. rewrite N.eqb_refl. exact Hk.
  - split; [|exact I]. cbn [m snd fst]. rewrite Hxy, N.eqb_refl. exact Hk.
  - split; [|exact I]. cbn [m snd fst]. rewrite Hp. exact Hk.
  - split; [|exact I]. rewrite m_seq.
    apply IHa. apply IHb. exact Hk.
  - split; [|exact I]. rewrite m_alt. apply orelse_l, IHa, Hk.
  - split; [|exact I]. rewrite m_alt. apply orelse_r, IHb, Hk.
  - assert (Hloop : forall fuel : nat, star_loop g a k fuel st c <> None).
    { intros [|fuel]; [exact Hk|]. cbn [star_loop]. cbv zeta.
      destruct g; [apply orelse_r|apply orelse_l]; exact Hk. }
    split; [rewrite m_star; apply Hloop|intros fuel _; apply Hloop].
  - assert (Hloop : forall fuel : nat,
               (length (snd st) <= fuel)%nat ->
               star_loop g a k fuel st c <> None).
    { intros [|fuel] Hf; [lia|]. cbn [star_loop]. cbv zeta.
      assert (Hagain :
                m a (fun st' c' =>
                       if Nat.ltb (length (snd st')) (length (snd st))
                       then star_loop g a k fuel st' c' else None) st c
                <> None).
      { apply IHa. apply Nat.ltb_lt in Hlt. rewrite Hlt.
        apply (IHs k Hk). apply Nat.ltb_lt in Hlt. lia. }
      destruct g; [apply orelse_l|apply orelse_r]; exact Hagain. }
    split; [rewrite m_star; apply Hloop; lia|exact Hloop].
  - split; [|exact I]. rewrite m_group. apply IHa. exact Hk.
  - split; [|exact I]. exact Hk.
  - split; [|exact I]. exact Hk.
Qed.

Lemma run_complete (r : re) (s : str) (st' : mstate) (c' : caps) :
  matches r (O, s) [] st' c' -> run r 0 s <> None.
Proof.
  intros H. unfold run. apply (m_complete _ _ _ _ _ H). discriminate.
Qed.

Lemma matches_star_flag (g g' : bool) (a : re) (st : mstate) (c : caps)
    (st' : mstate) (c' : caps) :
  matches (Star g a) st c st' c' -> matches (Star g' a) st c st' c'.
Proof.
  intros H. remember (Star g a) as r eqn:Er.
  induction H; try discriminate Er; injection Er as -> ->.
  - apply M_StarNil.
  - eapply M_StarCons; eauto.
Qed.

Lemma matches_Lit_LitI (s : str) :
  forall (st : mstate) (c : caps) (st' : mstate) (c' : caps),
    matches (Lit s) st c st' c' -> matches (LitI s) st c st' c'.
Proof.
  induction s as [|x s IH]; intros st c st' c' H; [exact H|].
  cbn [Lit] in H. apply matches_seq_inv in H.
  destruct H as (st1 & c1 & Hx & Hs). cbn [LitI].
  apply (M_Seq _ _ _ _ st1 c1); [|exact (IH _ _ _ _ Hs)].
  inversion Hx; subst. apply M_ChrI. reflexivity.
Qed.

(** ** The patterns for a line comment never fire *)

Lemma lineCommentPattern_shadowed (marker s : str) :
  marker = lit "//" \/ marker = lit "#" ->
  match_re (lineCommentPattern marker) s <> None ->
  match_re filePathPattern s <> None.
Proof.
  intros Hmk. unfold lineCommentPattern, filePathPattern.
  rewrite !match_re_anchored.
  destruct (run (Bol ;; Lit marker ;; _)%re 0 s) as [[e c0]|] eqn:E;
    [intros _|congruence].
  unfold run in E. apply m_sound in E. destruct E as (st' & c' & Hm & _).
  apply matches_seq_inv in Hm. destruct Hm as (st1 & c1 & Hb & Hm).
  apply matches_bol_inv in Hb. destruct Hb as (-> & -> & _).
  apply matches_seq_inv in Hm. destruct Hm as (st2 & c2 & Hmark & Hm).
  apply matches_seq_inv in Hm. destruct Hm as (st3 & c3 & Hws & Hm).
  apply matches_seq_inv in Hm. destruct Hm as (st4 & c4 & Hg & Heol).
  inversion Hg as [| | | | | | | | |n a st c st5 c5 Hplus| |]; subst.
  apply matches_seq_inv in Hplus. destruct Hplus as (st6 & c6 & Hdot & Hstar).
  assert (Hfull :
            matches
              (Bol ;; (LitI (lit "//") <|> LitI (lit "#") <|> LitI (lit "/*")) ;;
               Star true (Cls is_ws) ;;
               Opt (LitI (lit "File:") <|> LitI (lit "Path:")) ;;
               Star true (Cls is_ws) ;;
               Group 1 (Plus false (Cls is_dot)) ;;
               Opt (LitI (lit "*/")) ;; Eol)%re
              (O, s) [] st' c').
  { apply (M_Seq _ _ _ _ (O, s) []); [apply M_Bol|].
    apply (M_Seq _ _ _ _ st2 c2).
    { apply matches_Lit_LitI in Hmark.
      destruct Hmk as [-> | ->];
        [apply M_AltL|apply M_AltR, M_AltL]; exact Hmark. }
    apply (M_Seq _ _ _ _ st3 c3); [exact Hws|].
    apply (M_Seq _ _ _ _ st3 c3); [apply M_AltR, M_Eps|].
    apply (M_Seq _ _ _ _ st3 c3); [apply M_StarNil|].
    apply (M_Seq _ _ _ _ st4
             ((1%nat, firstn (fst st4 - fst st3)%nat (snd st3)) :: c5)).
    { apply M_Group. apply (M_Seq _ _ _ _ st6 c6); [exact Hdot|].
      exact (matches_star_flag _ _ _ _ _ _ _ Hstar). }
    apply (M_Seq _ _ _ _ st4
             ((1%nat, firstn (fst st4 - fst st3)%nat (snd st3)) :: c5));
      [apply M_AltR, M_Eps|exact Heol]. }
  pose proof (run_complete _ _ _ _ Hfull) as Hrun.
  destruct (run _ 0 s) as [[e1 c1]|]; [discriminate|contradiction].
Qed.

Lemma commentPatterns_eq :
  commentPatterns
  = lineCommentPattern (lit "//") :: lineCommentPattern (lit "#")
      :: skipn 2 commentPatterns.
Proof. reflexivity. Qed.

(** X19.  The first two of the [commentPatterns], those for a [//] and a
    [#] comment, never fire: a text that one of them matches is matched by
    [filePathPattern], so [extractFilePath] has returned before its last
    loop.  The loop can only return through its third pattern. *)
Theorem line_comment_patterns_shadowed (line : str) :
  (forall (i : nat) (pattern : re) (s : str),
      (i < 2)%nat -> nth_error commentPatterns i = Some pattern ->
      match_re filePathPattern s = None -> match_re pattern s = None)
  /\ extractFilePath line
     = match match_re filePathPattern (trim line) with
       | Some c => Some (trim (group1 c))
       | None =>
           if includes 47 (trim line) && negb (includes 32 (trim line))
           then Some (trim line)
           else tryCommentPatterns (skipn 2 commentPatterns) (trim line)
       end.
Proof.
  assert (Hsh : forall (marker s : str),
             marker = lit "//" \/ marker = lit "#" ->
             match_re filePathPattern s = None ->
             match_re (lineCommentPattern marker) s = None).
  { intros marker s Hmk Hnone.
    destruct (match_re (lineCommentPattern marker) s) eqn:E; [|reflexivity].
    exfalso. apply (lineCommentPattern_shadowed marker s Hmk); [|exact Hnone].
    rewrite E. discriminate. }
  split.
  - intros i pattern s Hi Hnth Hnone. rewrite commentPatterns_eq in Hnth.
    destruct i as [|[|i]]; [| |lia]; cbn [nth_error] in Hnth;
      injection Hnth as <-; apply Hsh; auto.
  - unfold extractFilePath. cbv zeta.
    destruct (match_re filePathPattern (trim line)) eqn:Em; [reflexivity|].
    destruct (includes 47 (trim line) && negb (includes 32 (trim line)));
      [reflexivity|].
    rewrite commentPatterns_eq at 1. cbn [tryCommentPatterns].
    rewrite (Hsh (lit "//") _ (or_introl eq_refl) Em).
    rewrite (Hsh (lit "#") _ (or_intror eq_refl) Em). reflexivity.
Qed.


Lemma line_comment_patterns_shadowed_witness :
  match_re filePathPattern (lit "see src/a.ts") = None
  /\ match_re (lineCommentPattern (lit "//")) (lit "see src/a.ts") = None
  /\ extractFilePath (lit "see src/a.ts") = None.
Proof.
  assert (H : match_re filePathPattern (lit "see src/a.ts") = None)
    by (vm_compute; reflexivity).
  split; [exact H|]. split.
  - exact (proj1 (line_comment_patterns_shadowed []) 0%nat _ _
             (Nat.lt_0_succ 1) eq_refl H).
  - rewrite (proj2 (line_comment_patterns_shadowed (lit "see src/a.ts"))).
    vm_compute. reflexivity.
Defined.

(** ** Every line comment is taken for a path *)

Lemma matches_consumed (r : re) (st : mstate) (c : caps) (st' : mstate)
    (c' : caps) :
  matches r st c st' c' ->
  exists consumed : str,
    snd st = consumed ++ snd st'
    /\ fst st' = (fst st + length consumed)%nat.
Proof.
  induction 1; cbn [fst snd] in *;
    try (exists []; split; [reflexivity|cbn [length]; lia]);
    try (eexists [_]; split; [reflexivity|cbn [length]; lia]).
  - destruct IHmatches1 as (u & Eu & Pu), IHmatches2 as (v & Ev & Pv).
    exists (u ++ v). rewrite Eu, Ev, <- app_assoc, length_app.
    split; [reflexivity|lia].
  - exact IHmatches.
  - exact IHmatches.
  - destruct IHmatches1 as (u & Eu & Pu), IHmatches2 as (v & Ev & Pv).
    exists (u ++ v). rewrite Eu, Ev, <- app_assoc, length_app.
    split; [reflexivity|lia].
  - exact IHmatches.
Qed.

Lemma matches_LitI_exact (s : str) :
  forallb not_letter s = true ->
  forall (st : mstate) (c : caps) (st' : mstate) (c' : caps),
    matches (LitI s) st c st' c' -> snd st = s ++ snd st'.
Proof.
  induction s as [|x s IH]; intros Hs st c st' c' H.
  - inversion H; subst. reflexivity.
  - cbn [forallb] in Hs. apply andb_true_iff in Hs. destruct Hs as [Hx Hs].
    cbn [LitI] in H. apply matches_seq_inv in H.
    destruct H as (st1 & c1 & Hm & Hrest).
    inversion Hm as [| |? y ? ? ? Hc| | | | | | | | |]; subst.
    apply (canonicalize_not_letter _ _ Hx) in Hc. subst y.
    cbn [snd app]. f_equal. exact (IH Hs _ _ _ _ Hrest).
Qed.

Lemma matches_star_cls (g : bool) (p : char -> bool) (s : str) :
  forallb p s = true ->
  forall (pos : nat) (rest : str) (c : caps),
    matches (Star g (Cls p)) (pos, s ++ rest) c
      ((pos + length s)%nat, rest) c.
Proof.
  induction s as [|x s IH]; intros Hs pos rest c.
  - cbn [app length]. rewrite Nat.add_0_r. apply M_StarNil.
  - cbn [forallb] in Hs. apply andb_true_iff in Hs. destruct Hs as [Hx Hs].
    cbn [app length]. rewrite Nat.add_succ_r.
    apply (M_StarCons _ _ _ _ (S pos, s ++ rest) c).
    + apply M_Cls. exact Hx.
    + cbn [snd length]. lia.
    + exact (IH Hs (S pos) rest c).
Qed.

Lemma matches_LitI_self (s : str) :
  forall (pos : nat) (rest : str) (c : caps),
    matches (LitI s) (pos, s ++ rest) c ((pos + length s)%nat, rest) c.
Proof.
  induction s as [|x s IH]; intros pos rest c.
  - cbn [app length LitI]. rewrite Nat.add_0_r. apply M_Eps.
  - cbn [app length LitI]. rewrite Nat.add_succ_r.
    apply (M_Seq _ _ _ _ (S pos, s ++ rest) c).
    + apply M_ChrI. reflexivity.
    + exact (IH (S pos) rest c).
Qed.

(** [filePathPattern] accepts a comment marker followed by anything that
    is not empty and has no line terminator. *)
Lemma filePathPattern_accepts (marker body : str) :
  marker = lit "//" \/ marker = lit "#" ->
  body <> [] -> forallb is_dot body = true ->
  match_re filePathPattern (marker ++ body) <> None.
Proof.
  intros Hmk Hne Hdot. destruct body as [|x b]; [contradiction|].
  cbn [forallb] in Hdot. apply andb_true_iff in Hdot. destruct Hdot as [Hx Hb].
  unfold filePathPattern. rewrite match_re_anchored.
  set (p1 := (length marker)).
  assert (Hfull :
            matches
              (Bol ;; (LitI (lit "//") <|> LitI (lit "#") <|> LitI (lit "/*")) ;;
               Star true (Cls is_ws) ;;
               Opt (LitI (lit "File:") <|> LitI (lit "Path:")) ;;
               Star true (Cls is_ws) ;;
               Group 1 (Plus false (Cls is_dot)) ;;
               Opt (LitI (lit "*/")) ;; Eol)%re
              (O, marker ++ x :: b) []
              ((S p1 + length b)%nat, [])
              [(1%nat, firstn ((S p1 + length b) - p1)%nat (x :: b))]).
  { apply (M_Seq _ _ _ _ (O, marker ++ x :: b) []); [apply M_Bol|].
    apply (M_Seq _ _ _ _ (p1, x :: b) []).
    { pose proof (matches_LitI_self marker O (x :: b) []) as Hm.
      cbn [Nat.add] in Hm. fold p1 in Hm.
      destruct Hmk as [-> | ->];
        [apply M_AltL|apply M_AltR, M_AltL]; exact Hm. }
    apply (M_Seq _ _ _ _ (p1, x :: b) []); [apply M_StarNil|].
    apply (M_Seq _ _ _ _ (p1, x :: b) []); [apply M_AltR, M_Eps|].
    apply (M_Seq _ _ _ _ (p1, x :: b) []); [apply M_StarNil|].
    apply (M_Seq _ _ _ _ ((S p1 + length b)%nat, [])
             [(1%nat, firstn ((S p1 + length b) - p1)%nat (x :: b))]).
    { apply (M_Group 1 _ (p1, x :: b) [] ((S p1 + length b)%nat, []) []).
      apply (M_Seq _ _ _ _ (S p1, b) []); [apply M_Cls; exact Hx|].
      pose proof (matches_star_cls false is_dot b Hb (S p1) [] []) as Hs.
      rewrite app_nil_r in Hs. exact Hs. }
    apply (M_Seq _ _ _ _ ((S p1 + length b)%nat, [])
             [(1%nat, firstn ((S p1 + length b) - p1)%nat (x :: b))]);
      [apply M_AltR, M_Eps|apply M_Eol]. }
  pose proof (run_complete _ _ _ _ Hfull) as Hrun.
  destruct (run _ 0 (marker ++ x :: b)) as [[e1 c1]|];
    [discriminate|contradiction].
Qed.

(** What [filePathPattern] captures: a piece of the text that is not empty
    and that runs to the end of the text, or to a closing comment marker
    that ends it. *)
Lemma filePathPattern_capture (t : str) (c : caps) :
  match_re filePathPattern t = Some c ->
  exists pre r1 post : str,
    t = pre ++ r1 ++ post /\ r1 <> [] /\ capture 1 c = Some r1
    /\ (post = [] \/ post = lit "*/").
Proof.
  unfold filePathPattern. rewrite match_re_anchored.
  destruct (run _ 0 t) as [[e c0]|] eqn:E; [|discriminate].
  intros H. injection H as ->.
  unfold run in E. apply m_sound in E. destruct E as (st' & c' & Hm & Hacc).
  unfold accept in Hacc. injection Hacc as _ <-.
  apply matches_seq_inv in Hm. destruct Hm as (st1 & c1 & Hb & Hm).
  apply matches_bol_inv in Hb. destruct Hb as (-> & -> & _).
  apply matches_seq_inv in Hm. destruct Hm as (st2 & c2 & H2 & Hm).
  apply matches_seq_inv in Hm. destruct Hm as (st3 & c3 & H3 & Hm).
  apply matches_seq_inv in Hm. destruct Hm as (st4 & c4 & H4 & Hm).
  apply matches_seq_inv in Hm. destruct Hm as (st5 & c5 & H5 & Hm).
  apply matches_seq_inv in Hm. destruct Hm as (st6 & c6 & Hg & Hm).
  apply matches_seq_inv in Hm. destruct Hm as (st7 & c7 & Hopt & Heol).
  destruct (matches_consumed _ _ _ _ _ H2) as (u2 & E2 & _).
  destruct (matches_consumed _ _ _ _ _ H3) as (u3 & E3 & _).
  destruct (matches_consumed _ _ _ _ _ H4) as (u4 & E4 & _).
  destruct (matches_consumed _ _ _ _ _ H5) as (u5 & E5 & _).
  destruct (matches_consumed _ _ _ _ _ Hg) as (r1 & Eg & Pg).
  cbn [snd] in E2.
  assert (Hr1 : r1 <> []).
  { inversion Hg as [| | | | | | | | |n a st cc st8 c8 Hplus| |]; subst.
    apply matches_seq_inv in Hplus.
    destruct Hplus as (st9 & c9 & Hdot & Hstar).
    pose proof (matches_position _ _ _ _ _ Hstar) as [Hle _].
    inversion Hdot; subst. cbn [fst] in *.
    intros ->. cbn [length] in Pg. lia. }
  assert (Hcap : c' = c7 /\ c7 = c6
                 /\ capture 1 c6 = Some r1).
  { split; [inversion Heol; reflexivity|]. split.
    - inversion Hopt as [| | | | |? ? ? ? ? ? Hl|? ? ? ? ? ? He| | | | |];
        subst.
      + clear - Hl. cbn [LitI lit] in Hl.
        repeat match goal with
               | H : matches (Seq _ _) _ _ _ _ |- _ =>
                   inversion H; subst; clear H
               | H : matches (ChrI _) _ _ _ _ |- _ =>
                   inversion H; subst; clear H
               | H : matches Eps _ _ _ _ |- _ => inversion H; subst; clear H
               end.
        reflexivity.
      + inversion He; reflexivity.
    - inversion Hg as [| | | | | | | | |n a st cc st8 c8 Hplus| |]; subst.
      cbn [capture Nat.eqb]. f_equal.
      rewrite Pg, Eg.
      replace (fst st5 + length r1 - fst st5)%nat with (length r1 + 0)%nat
        by lia.
      rewrite firstn_app_2. cbn [firstn]. apply app_nil_r. }
  destruct Hcap as (-> & -> & Hcap).
  assert (Hpost : snd st6 = [] \/ snd st6 = lit "*/").
  { inversion Heol; subst.
    inversion Hopt as [| | | | |? ? ? ? ? ? Hl|? ? ? ? ? ? He| | | | |];
      subst.
    - right. apply (matches_LitI_exact (lit "*/")) in Hl; [|reflexivity].
      cbn [snd] in Hl. rewrite Hl. reflexivity.
    - left. inversion He; subst. reflexivity. }
  exists (u2 ++ u3 ++ u4 ++ u5), r1, (snd st6).
  split; [|split; [exact Hr1|split; [exact Hcap|exact Hpost]]].
  rewrite E2, E3, E4, E5, Eg, <- !app_assoc. reflexivity.
Qed.

Lemma forallb_last (p : char -> bool) (s : str) (d : char) :
  s <> [] -> forallb p s = true -> p (last s d) = true.
Proof.
  intros Hne H. destruct (exists_last Hne) as (front & z & ->).
  rewrite last_last. rewrite forallb_app in H.
  apply andb_true_iff in H. destruct H as [_ H].
  cbn [forallb] in H. rewrite andb_true_r in H. exact H.
Qed.

(** A text whose last character is not white space is not blank. *)
Lemma nonblank_last (s : str) (d : char) :
  s <> [] -> is_ws (last s d) = false -> nonempty (trim s) = true.
Proof.
  intros Hne Hl. destruct (trim s) as [|x rest] eqn:E; [|reflexivity].
  exfalso. destruct (trim_decompose s) as (l & r & Es & Hl' & Hr).
  rewrite E in Es. cbn [app] in Es.
  assert (Hall : forallb is_ws s = true).
  { rewrite Es, forallb_app, Hl', Hr. reflexivity. }
  rewrite (forallb_last _ _ d Hne Hall) in Hl. discriminate.
Qed.

(** X20.  Every line comment is taken for a path.  If the trimmed text of
    a line is [//] or [#] followed by at least one character, has no line
    terminator and does not end with the closing marker of a block comment,
    then [looksLikeFilePath] holds of the line and [extractFilePath] gives
    a path that is not empty, whatever the comment says. *)
Theorem line_comment_is_path_line (line marker body : str) :
  marker = lit "//" \/ marker = lit "#" ->
  trim line = marker ++ body ->
  body <> [] -> forallb is_dot body = true ->
  endsWith (lit "*/") (trim line) = false ->
  looksLikeFilePath line = true
  /\ exists p, extractFilePath line = Some p /\ p <> []
               /\ detectPath line = Some p.
Proof.
  intros Hmk Ht Hne Hdot Hend.
  pose proof (filePathPattern_accepts marker body Hmk Hne Hdot) as Hacc.
  rewrite <- Ht in Hacc.
  destruct (match_re filePathPattern (trim line)) as [c|] eqn:Em;
    [clear Hacc|contradiction].
  assert (Hlooks : looksLikeFilePath line = true).
  { unfold looksLikeFilePath, test_re. cbv zeta. rewrite Em. reflexivity. }
  assert (Hex : extractFilePath line = Some (trim (group1 c))).
  { unfold extractFilePath. cbv zeta. rewrite Em. reflexivity. }
  assert (Hnb : nonempty (trim (group1 c)) = true).
  { destruct (filePathPattern_capture _ _ Em)
      as (pre & r1 & post & Et & Hr1 & Hcap & Hpost).
    unfold group1. rewrite Hcap.
    destruct Hpost as [-> | ->].
    - rewrite app_nil_r in Et.
      destruct (trim line) as [|x rest] eqn:Etl.
      { destruct pre; [|discriminate]. destruct r1; [contradiction|discriminate]. }
      destruct (trim_ends _ _ _ Etl) as [_ Hlast].
      apply (nonblank_last r1 x Hr1).
      rewrite Et, (last_app_nonempty _ _ _ Hr1) in Hlast. exact Hlast.
    - exfalso. rewrite Et in Hend. unfold endsWith in Hend.
      rewrite !rev_app_distr in Hend.
      rewrite <- app_assoc in Hend.
      rewrite startsWith_app in Hend. discriminate. }
  split; [exact Hlooks|]. exists (trim (group1 c)).
  split; [exact Hex|]. split; [apply nonempty_true, Hnb|].
  unfold detectPath. rewrite Hlooks, Hex. unfold detectTruthy.
  rewrite Hnb. reflexivity.
Qed.

Lemma line_comment_is_path_line_witness :
  looksLikeFilePath (lit "  # install the dependencies") = true
  /\ exists p,
      extractFilePath (lit "  # install the dependencies") = Some p
      /\ p <> [] /\ detectPath (lit "  # install the dependencies") = Some p.
Proof.
  apply (line_comment_is_path_line (lit "  # install the dependencies")
           (lit "#") (lit " install the dependencies")).
  - right. reflexivity.
  - vm_compute. reflexivity.
  - discriminate.
  - vm_compute. reflexivity.
  - vm_compute. reflexivity.
Defined.

(** ** The retry loop of the client *)

Lemma sleeps_app (a b : list effect) : sleeps (a ++ b) = sleeps a ++ sleeps b.
Proof. apply flat_map_app. Qed.

Lemma yields_app (a b : list effect) : yields (a ++ b) = yields a ++ yields b.
Proof. apply flat_map_app. Qed.

Lemma sleeps_Yield (chunks : list str) : sleeps (map Yield chunks) = [].
Proof. induction chunks as [|x xs IH]; [reflexivity|exact IH]. Qed.

Lemma yields_Yield (chunks : list str) : yields (map Yield chunks) = chunks.
Proof.
  induction chunks as [|x xs IH]; [reflexivity|].
  cbn [map yields flat_map app] in *. f_equal. exact IH.
Qed.

Lemma getRetryDelay_bounds (n : nat) :
  (1 <= n)%nat -> 1000 <= getRetryDelay n <= 8000.
Proof.
  destruct n as [|n]; [lia|]. intros _. cbn [getRetryDelay].
  assert (1 <= 2 ^ N.of_nat n).
  { pose proof (N.pow_nonzero 2 (N.of_nat n)). lia. }
  lia.
Qed.

Lemma getRetryDelay_values (n : nat) :
  getRetryDelay 1 = 1000 /\ getRetryDelay 2 = 2000 /\ getRetryDelay 3 = 4000
  /\ ((4 <= n)%nat -> getRetryDelay n = 8000).
Proof.
  repeat split. intros Hn.
  destruct n as [|n]; [lia|]. cbn [getRetryDelay].
  assert (2 ^ 3 <= 2 ^ N.of_nat n) by (apply N.pow_le_mono_r; lia).
  change (2 ^ 3) with 8 in H. lia.
Qed.

Lemma streamGeneration_from_schedule (maxRetries : Z) (script : list attempt) :
  forall (retries : nat) (failed : bool) (effects : list effect)
         (r : completion),
    streamGeneration_from maxRetries retries failed script = Some (effects, r) ->
    sleeps effects
    = map getRetryDelay (seq (S retries) (length (sleeps effects)))
    /\ (sleeps effects <> [] ->
        (Z.of_nat (retries + length (sleeps effects)) <= maxRetries)%Z)
    /\ (r = ThrownOnNull ->
        failed = false /\ (maxRetries < Z.of_nat retries)%Z /\ effects = []).
Proof.
  induction script as [|a script IH]; intros retries failed effects r H;
    cbn [streamGeneration_from] in H;
    destruct (Z.of_nat retries <=? maxRetries)%Z eqn:Ele;
    try discriminate H.
  1, 3: injection H as <- <-; cbn [sleeps flat_map length seq map];
    split; [reflexivity|]; split; [congruence|];
    intros Hr; destruct failed; [discriminate Hr|];
    apply Z.leb_gt in Ele; auto.
  cbv zeta in H. destruct (ending_of a) as [|[|]].
  - injection H as <- <-. rewrite sleeps_Yield.
    split; [reflexivity|]. split; [congruence|discriminate].
  - destruct (Z.of_nat (S retries) <=? maxRetries)%Z eqn:Ele'.
    + destruct (streamGeneration_from maxRetries (S retries) true script)
        as [[effs r0]|] eqn:Erec; [|discriminate H].
      injection H as <- <-.
      destruct (IH _ _ _ _ Erec) as (Hs & Hb & Hn).
      rewrite sleeps_app, sleeps_Yield. cbn [app sleeps flat_map].
      fold (sleeps effs). cbn [length seq map]. split; [|split].
      * f_equal. exact Hs.
      * intros _. destruct (sleeps effs) as [|x xs] eqn:Es.
        -- cbn [length]. apply Z.leb_le in Ele'. lia.
        -- assert (Hne : x :: xs <> []) by discriminate.
           specialize (Hb Hne). cbn [length] in *. lia.
      * intros Hr. destruct (Hn Hr) as (Hf & _). discriminate Hf.
    + injection H as <- <-. rewrite sleeps_Yield.
      split; [reflexivity|]. split; [congruence|discriminate].
  - injection H as <- <-. rewrite sleeps_Yield.
    split; [reflexivity|]. split; [congruence|discriminate].
Qed.

Lemma streamGeneration_from_total (maxRetries : Z) (script : list attempt) :
  forall (retries : nat) (failed : bool),
    (maxRetries < Z.of_nat (retries + length script))%Z ->
    streamGeneration_from maxRetries retries failed script <> None.
Proof.
  induction script as [|a script IH]; intros retries failed Hlen;
    cbn [streamGeneration_from];
    destruct (Z.of_nat retries <=? maxRetries)%Z eqn:Ele; try discriminate.
  - apply Z.leb_le in Ele. cbn [length] in Hlen. lia.
  - cbv zeta. destruct (ending_of a) as [|[|]]; try discriminate.
    destruct (Z.of_nat (S retries) <=? maxRetries)%Z; [|discriminate].
    specialize (IH (S retries) true).
    destruct (streamGeneration_from maxRetries (S retries) true script)
      as [[effs r0]|]; [discriminate|].
    exfalso. apply IH; [|reflexivity]. cbn [length] in Hlen. lia.
Qed.

Lemma sleeps_schedule (made : list attempt) :
  forall retries : nat,
    length (sleeps (schedule retries made)) = pred (length made).
Proof.
  induction made as [|a made IH]; intros retries; [reflexivity|].
  cbn [schedule]. rewrite sleeps_app, sleeps_Yield. cbn [app].
  destruct made as [|b made]; [reflexivity|].
  cbn [sleeps flat_map app]. fold (sleeps (schedule (S retries) (b :: made))).
  cbn [length]. rewrite IH. reflexivity.
Qed.

Lemma streamGeneration_from_effects (maxRetries : Z) (script : list attempt) :
  forall (retries : nat) (failed : bool) (effects : list effect)
         (r : completion),
    streamGeneration_from maxRetries retries failed script = Some (effects, r) ->
    exists made rest : list attempt,
      script = made ++ rest
      /\ effects = schedule retries made
      /\ ((Z.of_nat retries <= maxRetries)%Z -> made <> [])
      /\ (made <> [] ->
          (Z.of_nat (retries + length made) <= maxRetries + 1)%Z).
Proof.
  induction script as [|a script IH]; intros retries failed effects r H;
    cbn [streamGeneration_from] in H;
    destruct (Z.of_nat retries <=? maxRetries)%Z eqn:Ele;
    try discriminate H.
  1, 3: injection H as <- <-; eexists [], _;
    split; [reflexivity|]; split; [reflexivity|];
    apply Z.leb_gt in Ele; split; [lia|congruence].
  apply Z.leb_le in Ele.
  assert (Hone : forall effs : list effect,
             effs = map Yield (deltas a) ->
             exists made rest : list attempt,
               a :: script = made ++ rest
               /\ effs = schedule retries made
               /\ ((Z.of_nat retries <= maxRetries)%Z -> made <> [])
               /\ (made <> [] ->
                   (Z.of_nat (retries + length made) <= maxRetries + 1)%Z)).
  { intros effs ->. exists [a], script.
    split; [reflexivity|]. split; [cbn [schedule]; rewrite app_nil_r; reflexivity|].
    split; [discriminate|]. intros _. cbn [length]. lia. }
  cbv zeta in H. destruct (ending_of a) as [|[|]].
  - injection H as <- <-. apply Hone. reflexivity.
  - destruct (Z.of_nat (S retries) <=? maxRetries)%Z eqn:Ele'.
    + destruct (streamGeneration_from maxRetries (S retries) true script)
        as [[effs r0]|] eqn:Erec; [|discriminate H].
      injection H as <- <-. apply Z.leb_le in Ele'.
      destruct (IH _ _ _ _ Erec) as (made & rest & -> & -> & Hne & Hlen).
      specialize (Hne Ele').
      exists (a :: made), rest.
      split; [reflexivity|]. split.
      * cbn [schedule]. destruct made as [|b made]; [contradiction|].
        reflexivity.
      * split; [discriminate|]. intros _. specialize (Hlen Hne).
        cbn [length]. lia.
    + injection H as <- <-. apply Hone. reflexivity.
  - injection H as <- <-. apply Hone. reflexivity.
Qed.

(** X21.  The schedule of the retries of [streamGeneration].  A run makes
    the first attempts of the script, at most [maxRetries + 1] of them, and
    what its caller observes is the fragments of each attempt in turn with
    one sleep between two successive attempts and none anywhere else: the
    run sleeps only between attempts.  The [i]-th sleep lasts
    [getRetryDelay i], that is 1000, 2000 and 4000 milliseconds and then
    8000 for good; there are at most [maxRetries] sleeps, one less than
    attempts, and a script with [maxRetries + 1] attempts always tells how
    the run ends.  The run ends at the [throw] that follows the loop, with
    [lastError] still [null], exactly when [maxRetries] is negative; it has
    then made no attempt. *)
Theorem retry_schedule (maxRetries : Z) (script : list attempt)
    (effects : list effect) (r : completion) :
  streamGeneration maxRetries script = Some (effects, r) ->
  sleeps effects = map getRetryDelay (seq 1 (length (sleeps effects)))
  /\ Forall (fun ms => 1000 <= ms <= 8000) (sleeps effects)
  /\ (Z.of_nat (length (sleeps effects)) <= Z.max 0 maxRetries)%Z
  /\ (r = ThrownOnNull <-> (maxRetries < 0)%Z)
  /\ (forall script' : list attempt,
         (maxRetries < Z.of_nat (length script'))%Z ->
         streamGeneration maxRetries script' <> None)
  /\ (exists made rest : list attempt,
         script = made ++ rest
         /\ effects = schedule 0 made
         /\ (Z.of_nat (length made) <= Z.max 0 (maxRetries + 1))%Z
         /\ (made = [] <-> (maxRetries < 0)%Z)
         /\ length (sleeps effects) = pred (length made)).
Proof.
  unfold streamGeneration. intros H.
  destruct (streamGeneration_from_schedule _ _ _ _ _ _ H) as (Hs & Hb & Hn).
  split; [exact Hs|]. split; [|split; [|split; [|split]]].
  - rewrite Hs. apply Forall_forall. intros ms Hin.
    apply in_map_iff in Hin. destruct Hin as (i & <- & Hi).
    apply in_seq in Hi. apply getRetryDelay_bounds. lia.
  - destruct (sleeps effects) as [|x xs] eqn:Es; [cbn [length]; lia|].
    assert (Hne : x :: xs <> []) by discriminate.
    specialize (Hb Hne). cbn [Nat.add] in Hb. lia.
  - split.
    + intros Hr. destruct (Hn Hr) as (_ & Hlt & _). exact Hlt.
    + intros Hneg. destruct script as [|a script];
        cbn [streamGeneration_from] in H;
        assert (E : (Z.of_nat 0 <=? maxRetries)%Z = false)
          by (apply Z.leb_gt; exact Hneg);
        rewrite E in H; injection H as _ <-; reflexivity.
  - intros script' Hlen. apply streamGeneration_from_total.
    cbn [Nat.add]. exact Hlen.
  - destruct (streamGeneration_from_effects _ _ _ _ _ _ H)
      as (made & rest & Escript & Eeff & Hne & Hlen).
    exists made, rest. split; [exact Escript|]. split; [exact Eeff|].
    split; [|split].
    + destruct made as [|a made]; [cbn [length]; lia|].
      assert (Hm : a :: made <> []) by discriminate.
      specialize (Hlen Hm). cbn [Nat.add] in Hlen. lia.
    + split.
      * intros ->. destruct (Z_lt_le_dec maxRetries 0) as [Hlt|Hge];
          [exact Hlt|]. exfalso. apply Hne; [exact Hge|reflexivity].
      * intros Hneg. destruct made as [|a made]; [reflexivity|].
        assert (Hm : a :: made <> []) by discriminate.
        specialize (Hlen Hm). cbn [Nat.add length] in Hlen. lia.
    + rewrite Eeff. apply sleeps_schedule.
Qed.

Lemma retry_schedule_witness :
  exists effects r,
    streamGeneration 3 flaky_script = Some (effects, r)
    /\ effects = [Yield (lit "Here is"); Sleep 1000; Sleep 2000;
                  Yield (lit "Here is the "); Yield (lit "plan.")]
    /\ sleeps effects = [1000; 2000]
    /\ Forall (fun ms => 1000 <= ms <= 8000) (sleeps effects).
Proof.
  eexists. eexists. split; [vm_compute; reflexivity|].
  split; [reflexivity|]. split; [reflexivity|].
  refine (proj1 (proj2 (retry_schedule 3 flaky_script _ _ _))).
  vm_compute. reflexivity.
Defined.

Lemma streamGeneration_from_Returned (maxRetries : Z) (script : list attempt) :
  forall (retries : nat) (failed : bool) (effects : list effect)
         (fs : list FileGeneration) (ex : str),
    streamGeneration_from maxRetries retries failed script
    = Some (effects, Returned fs ex) ->
    exists (before : list attempt) (a : attempt) (rest : list attempt),
      script = before ++ a :: rest
      /\ Forall (fun b => ending_of b = Threw true) before
      /\ ending_of a = Completed
      /\ (fs, ex) = parseCompleteResponse (concat (deltas a))
      /\ yields effects = flat_map deltas before ++ deltas a.
Proof.
  induction script as [|a script IH]; intros retries failed effects fs ex H;
    cbn [streamGeneration_from] in H;
    destruct (Z.of_nat retries <=? maxRetries)%Z eqn:Ele;
    try discriminate H.
  1, 3: destruct failed; discriminate H.
  cbv zeta in H. destruct (ending_of a) as [|[|]] eqn:Ea.
  - injection H as <- <- <-. exists [], a, script.
    split; [reflexivity|]. split; [constructor|]. split; [exact Ea|].
    split.
    + unfold parseCompleteResponse. cbv zeta.
      rewrite <- (feed_concat (deltas a) init); [reflexivity|].
      intros [].
    + rewrite yields_Yield. reflexivity.
  - destruct (Z.of_nat (S retries) <=? maxRetries)%Z; [|discriminate H].
    destruct (streamGeneration_from maxRetries (S retries) true script)
      as [[effs r0]|] eqn:Erec; [|discriminate H].
    injection H as <- ->.
    destruct (IH _ _ _ _ _ Erec) as (before & b & rest & -> & Hall & Hb & Hp & Hy).
    exists (a :: before), b, rest.
    split; [reflexivity|]. split; [constructor; assumption|].
    split; [exact Hb|]. split; [exact Hp|].
    rewrite yields_app, yields_Yield. cbn [yields flat_map app].
    fold (yields effs). rewrite Hy, <- app_assoc. reflexivity.
  - discriminate H.
Qed.

(** X22.  A retry starts the parse again but not the output.  When
    [streamGeneration] returns, every attempt before the last has failed
    with an error worth a retry; the files and the explanation returned are
    those of the text of the last attempt alone, as [parseCompleteResponse]
    gives them; but the fragments yielded to the caller are those of all
    the attempts, the failed ones included. *)
Theorem retry_parses_last_attempt_only (maxRetries : Z)
    (script : list attempt) (effects : list effect)
    (fs : list FileGeneration) (ex : str) :
  streamGeneration maxRetries script = Some (effects, Returned fs ex) ->
  exists (before : list attempt) (a : attempt) (rest : list attempt),
    script = before ++ a :: rest
    /\ Forall (fun b => ending_of b = Threw true) before
    /\ ending_of a = Completed
    /\ (fs, ex) = parseCompleteResponse (concat (deltas a))
    /\ yields effects = flat_map deltas before ++ deltas a.
Proof. apply streamGeneration_from_Returned. Qed.

Lemma retry_parses_last_attempt_only_witness :
  exists effects fs ex,
    streamGeneration 3 flaky_script = Some (effects, Returned fs ex)
    /\ yields effects = [lit "Here is"; lit "Here is the "; lit "plan."]
    /\ ex = lit "Here is the plan."
    /\ exists before a rest,
        flaky_script = before ++ a :: rest
        /\ (fs, ex) = parseCompleteResponse (concat (deltas a)).
Proof.
  assert (H : streamGeneration 3 flaky_script
              = Some ([Yield (lit "Here is"); Sleep 1000; Sleep 2000;
                       Yield (lit "Here is the "); Yield (lit "plan.")],
                      Returned [] (lit "Here is the plan.")))
    by (vm_compute; reflexivity).
  eexists. eexists. eexists. split; [exact H|].
  split; [reflexivity|]. split; [reflexivity|].
  destruct (retry_parses_last_attempt_only _ _ _ _ _ H)
    as (before & a & rest & E & _ & _ & Hp & _).
  exists before, a, rest. split; [exact E|exact Hp].
Defined.

(** ** The body of a scanned block stops at the first fence marker *)

Lemma startsWith_split (pre s : str) :
  startsWith pre s = true -> exists rest, s = pre ++ rest.
Proof.
  revert s. induction pre as [|p pre IH]; intros s H; [exists s; reflexivity|].
  destruct s as [|x s]; [discriminate|]. cbn [startsWith] in H.
  apply andb_true_iff in H. destruct H as [Hx Hs]. apply N.eqb_eq in Hx.
  destruct (IH _ Hs) as (rest & ->). exists rest. subst x. reflexivity.
Qed.

Lemma m_Lit_accept (s : str) :
  forall (pos : nat) (rest : str) (c : caps),
    startsWith s rest = true -> m (Lit s) accept (pos, rest) c <> None.
Proof.
  intros pos rest c H. destruct (startsWith_split _ _ H) as (tail & ->).
  assert (Hm : matches (Lit s) (pos, s ++ tail) c
                 ((pos + length s)%nat, tail) c).
  { clear H. revert pos. induction s as [|x s IH]; intros pos.
    - cbn [app length Lit]. rewrite Nat.add_0_r. apply M_Eps.
    - cbn [app length Lit]. rewrite Nat.add_succ_r.
      apply (M_Seq _ _ _ _ (S pos, s ++ tail) c); [apply M_Chr|apply IH]. }
  apply (m_complete _ _ _ _ _ Hm). discriminate.
Qed.

Lemma matches_Lit_caps (s : str) :
  forall (st : mstate) (c : caps) (st' : mstate) (c' : caps),
    matches (Lit s) st c st' c' -> c' = c.
Proof.
  induction s as [|x s IH]; intros st c st' c' H.
  - inversion H; reflexivity.
  - cbn [Lit] in H. apply matches_seq_inv in H.
    destruct H as (st1 & c1 & Hx & Hs). inversion Hx; subst.
    exact (IH _ _ _ _ Hs).
Qed.

(** A lazy [[\s\S]*?] hands to its continuation the shortest run with which
    the continuation succeeds. *)
Lemma m_star_lazy_any (k : cont) (rest : str) :
  forall (pos : nat) (c : caps) (res : nat * caps),
    m (Star false (Cls is_any)) k (pos, rest) c = Some res ->
    exists n : nat,
      k ((pos + n)%nat, skipn n rest) c = Some res
      /\ forall j : nat, (j < n)%nat -> k ((pos + j)%nat, skipn j rest) c = None.
Proof.
  induction rest as [|y t IH]; intros pos c res H.
  - rewrite m_star_cls_nil in H. exists O. rewrite Nat.add_0_r.
    split; [exact H|]. intros j Hj. lia.
  - rewrite m_star_cls_cons in H. cbv zeta in H. unfold is_any in H.
    destruct (k (pos, y :: t) c) as [r0|] eqn:Ek.
    + cbn [orelse] in H. exists O. rewrite Nat.add_0_r. cbn [skipn].
      split; [congruence|]. intros j Hj. lia.
    + cbn [orelse] in H. destruct (IH _ _ _ H) as (n & Hn & Hmin).
      exists (S n). rewrite Nat.add_succ_r. cbn [skipn]. split; [exact Hn|].
      intros [|j] Hj.
      * rewrite Nat.add_0_r. exact Ek.
      * rewrite Nat.add_succ_r. cbn [skipn]. apply Hmin. lia.
Qed.

Lemma exec_from_run (r : re) (rest : str) :
  forall (pos i e : nat) (c : caps),
    exec_from r pos rest = Some (i, e, c) ->
    exists j : nat, run r i (skipn j rest) = Some (e, c).
Proof.
  induction rest as [|x rest IH]; intros pos i e c H; cbn [exec_from] in H;
    destruct (run r pos _) as [[e0 c0]|] eqn:E; try discriminate H.
  - injection H as <- <- <-. exists O. exact E.
  - injection H as <- <- <-. exists O. exact E.
  - destruct (IH _ _ _ _ H) as (j & Hj). exists (S j). exact Hj.
Qed.

Lemma startsWith_firstn (pre s : str) (n : nat) :
  startsWith pre (firstn n s) = true -> startsWith pre s = true.
Proof.
  revert s n. induction pre as [|p pre IH]; intros s n H; [reflexivity|].
  destruct s as [|x s]; [destruct n; discriminate H|].
  destruct n as [|n]; [discriminate H|]. cbn [firstn startsWith] in *.
  apply andb_true_iff in H. destruct H as [Hx Hs].
  rewrite Hx. exact (IH _ _ Hs).
Qed.

Lemma skipn_firstn_swap (s : str) :
  forall n j : nat, skipn j (firstn n s) = firstn (n - j) (skipn j s).
Proof.
  induction s as [|x s IH]; intros n j.
  - rewrite !firstn_nil, !skipn_nil, firstn_nil. reflexivity.
  - destruct n as [|n]; destruct j as [|j]; cbn [firstn skipn Nat.sub];
      try reflexivity.
    apply IH.
Qed.

(** The body that [codeBlockRegex] captures has no fence marker in it. *)
Lemma codeBlockRegex_body (pos : nat) (rest : str) (e : nat) (c : caps) :
  run codeBlockRegex pos rest = Some (e, c) -> fence_free (group2 c).
Proof.
  unfold run, codeBlockRegex. intros H.
  rewrite (m_seq (Lit backticks)) in H.
  apply (m_sound (Lit backticks)) in H. destruct H as (st1 & c1 & _ & H).
  rewrite (m_seq (Opt _)) in H.
  apply (m_sound (Opt _)) in H. destruct H as (st2 & c2 & _ & H).
  rewrite (m_seq (Chr LF)) in H.
  apply (m_sound (Chr LF)) in H. destruct H as (st3 & c3 & _ & H).
  rewrite (m_seq (Group 2 _)), m_group in H.
  destruct st3 as [p3 r3]. cbn [fst snd] in H.
  apply m_star_lazy_any in H. destruct H as (n & Hn & Hmin).
  cbn [fst] in Hn. apply m_sound in Hn.
  destruct Hn as (st' & c' & Hlit & Hacc).
  apply matches_Lit_caps in Hlit. subst c'.
  unfold accept in Hacc. injection Hacc as _ <-.
  unfold group2. cbn [capture Nat.eqb].
  replace (p3 + n - p3)%nat with n by lia.
  intros j. destruct (startsWith backticks (skipn j (firstn n r3))) eqn:E;
    [|reflexivity].
  exfalso. rewrite skipn_firstn_swap in E.
  assert (Hj : (j < n)%nat).
  { destruct (n - j)%nat eqn:En; [|lia]. cbn [firstn] in E.
    rewrite backticks_eq in E. discriminate E. }
  apply startsWith_firstn in E.
  specialize (Hmin j Hj). cbn [fst] in Hmin.
  exact (m_Lit_accept backticks _ _ _ E Hmin).
Qed.

Lemma scan_loop_fence_free (markdown : str) (fuel : nat) :
  forall (lastIndex : nat) (c : caps),
    In c (scan_loop fuel markdown lastIndex) -> fence_free (group2 c).
Proof.
  induction fuel as [|fuel IH]; intros lastIndex c H; cbn [scan_loop] in H;
    [contradiction|].
  destruct (exec codeBlockRegex markdown lastIndex) as [[[i e] c0]|] eqn:E;
    [|contradiction].
  destruct H as [<-|H]; [|exact (IH _ _ H)].
  unfold exec in E. apply exec_from_run in E. destruct E as (j & E).
  exact (codeBlockRegex_body _ _ _ _ E).
Qed.

Lemma fence_free_middle (a b d : str) :
  fence_free (a ++ b ++ d) -> fence_free b.
Proof.
  intros H j. destruct (startsWith backticks (skipn j b)) eqn:E; [|reflexivity].
  exfalso. destruct (startsWith_split _ _ E) as (tail & Et).
  specialize (H (length a + j)%nat).
  rewrite skipn_app in H.
  rewrite (skipn_all2 a) in H by lia. cbn [app] in H.
  replace (length a + j - length a)%nat with j in H by lia.
  rewrite skipn_app, Et, <- app_assoc, startsWith_app in H. discriminate H.
Qed.

Lemma join_split_nl (s : str) : join_nl (split_nl s) = s.
Proof.
  induction s as [|x s IH]; [reflexivity|]. cbn [split_nl].
  pose proof (split_nl_nonempty s) as Hne.
  destruct (split_nl s) as [|h t]; [contradiction|].
  destruct (x =? LF) eqn:Ex.
  - apply N.eqb_eq in Ex. subst x. cbn [join_nl app]. f_equal. exact IH.
  - destruct t as [|h' t]; cbn [join_nl app] in *; f_equal; exact IH.
Qed.

Lemma join_nl_tl_suffix (s : str) :
  exists pre : str, s = pre ++ join_nl (tl (split_nl s)).
Proof.
  pose proof (join_split_nl s) as H.
  destruct (split_nl s) as [|h [|h' t]]; cbn [tl join_nl] in *.
  - exists s. rewrite app_nil_r. reflexivity.
  - exists s. rewrite app_nil_r. reflexivity.
  - exists (h ++ [LF]). rewrite <- app_assoc. cbn [app]. symmetry. exact H.
Qed.

Lemma fence_free_trim (s : str) : fence_free s -> fence_free (trim s).
Proof.
  intros H. destruct (trim_decompose s) as (l & r & E & _).
  rewrite E in H. exact (fence_free_middle _ _ _ H).
Qed.

Lemma blockFile_fence_free (c : caps) (n : nat) :
  fence_free (group2 c) -> fence_free (content (blockFile c n)).
Proof.
  intros H. unfold blockFile. cbv zeta.
  destruct (detectTruthy (extractFilePath (trim (hd [] (split_nl (group2 c))))));
    cbn [content].
  - apply fence_free_trim.
    destruct (join_nl_tl_suffix (group2 c)) as (pre & E).
    rewrite E in H. apply (fence_free_middle pre _ []).
    rewrite app_nil_r. exact H.
  - apply fence_free_trim. exact H.
Qed.

Lemma filesOf_fence_free (blocks : list caps) :
  forall (n : nat) (f : FileGeneration),
    Forall (fun c => fence_free (group2 c)) blocks ->
    In f (filesOf n blocks) -> fence_free (content f).
Proof.
  induction blocks as [|c cs IH]; intros n f Hall H; cbn [filesOf] in H;
    [contradiction|].
  inversion Hall; subst.
  destruct H as [<-|H]; [apply blockFile_fence_free; assumption|].
  exact (IH _ _ ltac:(assumption) H).
Qed.

(** X23.  The content of a file that [extractFilesFromMarkdown] gives never
    holds a fence marker: the body of a block stops at the first three
    backticks that follow its opening line, wherever on a line they
    stand. *)
Theorem extracted_content_has_no_fence (markdown : str) (f : FileGeneration) :
  In f (extractFilesFromMarkdown markdown) ->
  forall j : nat, startsWith backticks (skipn j (content f)) = false.
Proof.
  unfold extractFilesFromMarkdown. rewrite extract_loop_scan.
  cbn [app length]. intros H.
  refine (filesOf_fence_free _ _ _ _ H).
  apply Forall_forall. intros c Hc.
  exact (scan_loop_fence_free _ _ _ _ Hc).
Qed.

Lemma extracted_content_has_no_fence_witness :
  exists f,
    nth_error (extractFilesFromMarkdown three_blocks_input) 1 = Some f
    /\ content f = lit "bar"
    /\ forall j : nat, startsWith backticks (skipn j (content f)) = false.
Proof.
  eexists. split; [vm_compute; reflexivity|]. split; [reflexivity|].
  apply (extracted_content_has_no_fence three_blocks_input).
  vm_compute. right. left. reflexivity.
Defined.

(** ** A fence stays open until its closing line *)

Lemma files_startNewFile (p lang : str) (h : Handler) :
  (forall cur, currentFile h = Some cur -> content cur = []) ->
  files (startNewFile p lang h) = files h.
Proof.
  intros Hd. unfold startNewFile. cbn [files emit set_currentFile].
  destruct (currentFile h) as [cur|] eqn:Ecur; [|reflexivity].
  destruct (nonempty (path cur)); [|reflexivity].
  rewrite (proj2 (emitted_finalizeCurrentFile h)), Ecur.
  rewrite (Hd cur eq_refl). cbn [nonempty]. rewrite andb_false_r.
  apply app_nil_r.
Qed.

Lemma processLine_stays_inside (line : str) (h : Handler) :
  Inv h -> inCodeBlock h = true -> line <> backticks ->
  inCodeBlock (processLine line h) = true
  /\ files (processLine line h) = files h
  /\ explanation (processLine line h) = explanation h.
Proof.
  intros HI Hin Hline.
  rewrite (processLine_inside _ _ Hin (not_close _ Hline)).
  destruct (if nonempty (codeBlockBuffer h) then None else detectPath line).
  - rewrite inCodeBlock_startNewFile, explanation_startNewFile.
    rewrite (files_startNewFile _ _ _ (inv_draft h HI)). auto.
  - cbv zeta. cbn [currentFile set_codeBlockBuffer].
    destruct (currentFile h); auto.
Qed.

(** X24.  A fence stays open until its closing line.  Inside a fence, as
    long as no line is exactly three backticks, the handler stays inside
    the fence and neither the files nor the explanation change, whatever
    the lines are.  So it is for a text with Windows line ends, where the
    closing line arrives with a carriage return after its backticks: the
    fence opened first never closes before [finalize]. *)
Theorem fence_stays_open (h : Handler) (lines : list str) :
  reachable h -> inCodeBlock h = true ->
  Forall (fun l => l <> backticks) lines ->
  inCodeBlock (processLines lines h) = true
  /\ files (processLines lines h) = files h
  /\ explanation (processLines lines h) = explanation h.
Proof.
  intros Hr. apply reachable_Inv in Hr. revert h Hr.
  induction lines as [|l ls IH]; intros h HI Hin Hall; [auto|].
  inversion Hall as [|? ? Hl Hls]; subst.
  cbn [processLines fold_left].
  change (fold_left (fun h0 line => processLine line h0) ls)
    with (processLines ls).
  destruct (processLine_stays_inside l h HI Hin Hl) as (Hin' & Hf & He).
  destruct (IH (processLine l h) (Inv_processLine _ _ HI) Hin' Hls)
    as (H1 & H2 & H3).
  rewrite H1, H2, H3. auto.
Qed.

Lemma fence_stays_open_witness :
  reachable (processChunk (lit "```ts" ++ [13; LF]) init)
  /\ inCodeBlock
       (processLines crlf_lines (processChunk (lit "```ts" ++ [13; LF]) init))
     = true
  /\ files
       (processLines crlf_lines (processChunk (lit "```ts" ++ [13; LF]) init))
     = [].
Proof.
  assert (Hr : reachable (processChunk (lit "```ts" ++ [13; LF]) init))
    by apply reach_processChunk, reach_init.
  split; [exact Hr|].
  assert (Hall : Forall (fun l => l <> backticks) crlf_lines)
    by (repeat constructor; discriminate).
  destruct (fence_stays_open _ crlf_lines Hr eq_refl Hall) as (H1 & H2 & _).
  split; [exact H1|exact H2].
Defined.
